(** * Tic-tac-toe: the game engine, the players and the statistics

    A shallow embedding of the Python package [tictactoe] (game.py, players.py,
    interface.py, utils.py) and the properties its specification states.

    Python values are modelled as follows.
    - [str] is [string]; the three cell contents are the strings [" "], ["X"], ["O"].
    - [int] is [Z]; [float] is the binary64 [float] of the kernel.
    - A [list] that the program mutates in place (the board, and the copy
      of it that the search works on) lives in a store of list objects and
      is named by its location: two names of one location alias.  Lists that are
      built once and only read (WIN_PATTERNS, the result of
      get_available_moves) are plain values.
    - A [TicTacToe] instance is a record passed in and out of each method;
      its [board] field holds the location of the board list.
    - Exceptions are results: every operation returns [Ok v] or [Raise e]
      together with the world it leaves behind.
    - The console and the random source are part of the world.
    - Loops and recursion that Rocq cannot see to end take a budget and raise
      [OutOfFuel] when it is used up; the lemmas [minimax_enough_fuel] and
      [human_get_move_loop_fuel] show that the budgets given are enough.

    The file has two parts.  The first holds the definitions: the methods of
    the four modules as statements over the world, then what they compute as
    functions of the board's contents (modules [Val] and [Search], and [Fast]
    for computing), then the notions the properties are stated with.  The
    second part holds the properties. *)

From Stdlib Require Import ZArith Lia Floats.
From stdpp Require Import gmap strings list.

Set Default Proof Using "Type".

(** ** Exceptions and results *)

Inductive exn : Type :=
| IndexError
| ValueError
| KeyboardInterrupt
| EOFError
| ZeroDivisionError
| OverflowError
| KeyError
| OutOfFuel        (* the model's budget of loop turns or calls ran out: not a Python exception *)
| InvalidRef.      (* no list object at this location: no Python program gets there *)

Inductive res (A : Type) : Type :=
| Ok (a : A)
| Raise (e : exn).
Arguments Ok {A} a.
Arguments Raise {A} e.

(** ** The world: list objects, console, random source *)

Definition loc := positive.

(** What [int(input(prompt))] meets on the console: a line that [int]
    parses, a line that it rejects (ValueError), or Ctrl-C while the
    program waits (KeyboardInterrupt).  An exhausted console is end of
    file (EOFError). *)
Inductive input_event : Type :=
| Number (n : Z)
| NotANumber
| Interrupt.

Inductive GameState : Type := ONGOING | X_WINS | O_WINS | DRAW.

Global Instance GameState_eq_dec : EqDecision GameState.
Proof. solve_decision. Defined.

(** What the program writes, one constructor per [print] (or prompt). *)
Inductive output_event : Type :=
| Prompt (name symbol : string)
| InvalidMove
| EnterNumber
| StartingGame (x_name o_name : string)
| BoardDisplayed (cells : list string)
| TurnOf (name symbol : string)
| Interrupted
| ResultDisplayed (st : GameState) (pattern : option (list Z)).

Record world : Type := World {
  heap : gmap loc (list string);
  stdin : list input_event;
  stdout : list output_event;
  entropy : nat → Z
}.

Definition set_heap (h : gmap loc (list string)) (w : world) : world :=
  World h (stdin w) (stdout w) (entropy w).
Definition set_stdin (i : list input_event) (w : world) : world :=
  World (heap w) i (stdout w) (entropy w).
Definition set_stdout (o : list output_event) (w : world) : world :=
  World (heap w) (stdin w) o (entropy w).
Definition set_entropy (e : nat → Z) (w : world) : world :=
  World (heap w) (stdin w) (stdout w) e.

(** ** The monad of Python statements *)

Definition M (A : Type) : Type := world → res A * world.

Definition ret {A} (a : A) : M A := λ w, (Ok a, w).
Definition raise {A} (e : exn) : M A := λ w, (Raise e, w).
Definition bind {A B} (m : M A) (k : A → M B) : M B :=
  λ w, match m w with
       | (Ok a, w') => k a w'
       | (Raise e, w') => (Raise e, w')
       end.

Notation "x <- m ;; k" := (bind m (λ x, k))
  (at level 100, m at next level, right associativity).
Notation "m ;; k" := (bind m (λ _, k))
  (at level 100, right associativity).

(** [try: m except (e1, ...): h], the handled exceptions given by [handles]. *)
Definition try_except {A} (m : M A) (handles : exn → bool) (h : M A) : M A :=
  λ w, match m w with
       | (Ok a, w') => (Ok a, w')
       | (Raise e, w') => if handles e then h w' else (Raise e, w')
       end.

(** A [for x in xs] loop whose body updates the loop-carried variables [s]. *)
Fixpoint for_each {A S} (xs : list A) (body : A → S → M S) (s : S) : M S :=
  match xs with
  | [] => ret s
  | x :: rest => s' <- body x s ;; for_each rest body s'
  end.

(** [range(n)] *)
Definition range (n : nat) : list Z := Z.of_nat <$> seq 0 n.

(** ** Sequences and list objects *)

(** [xs[i]] on a sequence value: a negative index counts from the end, an
    index out of range raises IndexError. *)
Definition index {A} (xs : list A) (i : Z) : res A :=
  let j := (if i <? 0 then i + Z.of_nat (length xs) else i)%Z in
  if (j <? 0)%Z then Raise IndexError
  else match xs !! Z.to_nat j with
       | Some x => Ok x
       | None => Raise IndexError
       end.

Definition seq_item {A} (xs : list A) (i : Z) : M A :=
  λ w, (index xs i, w).

(** [board[i]] on the list object at [l]. *)
Definition list_get (l : loc) (i : Z) : M string :=
  λ w, match heap w !! l with
       | Some xs => (index xs i, w)
       | None => (Raise InvalidRef, w)
       end.

(** [board[i] = v] *)
Definition list_set (l : loc) (i : Z) (v : string) : M unit :=
  λ w, match heap w !! l with
       | Some xs =>
           let j := (if i <? 0 then i + Z.of_nat (length xs) else i)%Z in
           if ((j <? 0) || (Z.of_nat (length xs) <=? j))%Z then (Raise IndexError, w)
           else (Ok (), set_heap (<[l := <[Z.to_nat j := v]> xs]> (heap w)) w)
       | None => (Raise InvalidRef, w)
       end.

(** The whole list at [l], as a value (a read of every element). *)
Definition list_read (l : loc) : M (list string) :=
  λ w, match heap w !! l with
       | Some xs => (Ok xs, w)
       | None => (Raise InvalidRef, w)
       end.

(** A new list object. *)
Definition list_new (xs : list string) : M loc :=
  λ w, let l := fresh (dom (heap w)) in
       (Ok l, set_heap (<[l := xs]> (heap w)) w).

(** [v in xs] *)
Definition contains (v : string) (xs : list string) : bool :=
  existsb (String.eqb v) xs.

(** ** game.py *)

Record TicTacToe : Type := mkTicTacToe {
  board : loc;
  current_player : string;
  game_state : GameState;
  moves_count : Z;
  winner : option string;
  winning_pattern : option (list Z)
}.

Definition WIN_PATTERNS : list (list Z) :=
  [ (* Rows *)
    [0; 1; 2]; [3; 4; 5]; [6; 7; 8];
    (* Columns *)
    [0; 3; 6]; [1; 4; 7]; [2; 5; 8];
    (* Diagonals *)
    [0; 4; 8]; [2; 4; 6] ]%Z.

(** [TicTacToe()] *)
Definition TicTacToe_init : M TicTacToe :=
  b <- list_new (replicate 9 " ") ;;
  ret (mkTicTacToe b "X" ONGOING 0 None None).

(** [reset]: a new board list is made, the fields start over. *)
Definition reset (self : TicTacToe) : M TicTacToe :=
  b <- list_new (replicate 9 " ") ;;
  ret (mkTicTacToe b "X" ONGOING 0 None None).

Definition is_valid_move (self : TicTacToe) (position : Z) : M bool :=
  if ((0 <=? position) && (position <=? 8))%Z then
    c <- list_get (board self) position ;;
    if String.eqb c " " then ret (bool_decide (game_state self = ONGOING))
    else ret false
  else ret false.

Definition get_available_moves (self : TicTacToe) : M (list Z) :=
  for_each (range 9)
    (λ i acc, c <- list_get (board self) i ;;
              ret (if String.eqb c " " then acc ++ [i] else acc))
    [].

(** The condition
    [board[p[0]] == board[p[1]] == board[p[2]] != ' ']
    of _update_game_state and _evaluate_board: a chained comparison, each
    operand read once, left to right, stopping at the first false link. *)
Definition three_in_line (board : loc) (pattern : list Z) : M bool :=
  p0 <- seq_item pattern 0 ;;
  a <- list_get board p0 ;;
  p1 <- seq_item pattern 1 ;;
  b <- list_get board p1 ;;
  if negb (String.eqb a b) then ret false else
  p2 <- seq_item pattern 2 ;;
  c <- list_get board p2 ;;
  if negb (String.eqb b c) then ret false else
  ret (negb (String.eqb c " ")).

(** The loop of _update_game_state over the patterns still to scan, and what
    follows the loop. *)
Fixpoint _update_game_state_from (self : TicTacToe) (patterns : list (list Z))
  : M TicTacToe :=
  match patterns with
  | pattern :: rest =>
      hit <- three_in_line (board self) pattern ;;
      if hit then
        p0 <- seq_item pattern 0 ;;
        w <- list_get (board self) p0 ;;
        ret (mkTicTacToe (board self) (current_player self)
               (if String.eqb w "X" then X_WINS else O_WINS)
               (moves_count self) (Some w) (Some pattern))
      else _update_game_state_from self rest
  | [] =>
      (* Check for draw *)
      if (moves_count self =? 9)%Z then
        ret (mkTicTacToe (board self) (current_player self) DRAW
               (moves_count self) (winner self) (winning_pattern self))
      else ret self
  end.

Definition _update_game_state (self : TicTacToe) : M TicTacToe :=
  _update_game_state_from self WIN_PATTERNS.

Definition make_move (self : TicTacToe) (position : Z) : M (bool * TicTacToe) :=
  valid <- is_valid_move self position ;;
  if negb valid then ret (false, self) else
  list_set (board self) position (current_player self) ;;
  let self := mkTicTacToe (board self) (current_player self) (game_state self)
                (moves_count self + 1) (winner self) (winning_pattern self) in
  self <- _update_game_state self ;;
  (* Switch player if game is still ongoing *)
  let self :=
    if bool_decide (game_state self = ONGOING) then
      mkTicTacToe (board self)
        (if String.eqb (current_player self) "X" then "O" else "X")
        (game_state self) (moves_count self) (winner self) (winning_pattern self)
    else self in
  ret (true, self).

Definition is_game_over (self : TicTacToe) : bool :=
  negb (bool_decide (game_state self = ONGOING)).

(** [self.board.copy()]: a new list object with the same elements. *)
Definition get_board_copy (self : TicTacToe) : M loc :=
  xs <- list_read (board self) ;;
  list_new xs.

(** ** The console and the random source *)

Definition print (e : output_event) : M unit :=
  λ w, (Ok (), set_stdout (stdout w ++ [e]) w).

(** [int(input(prompt))]: the prompt is written, the next console event is
    consumed. *)
Definition input_int (prompt : output_event) : M Z :=
  λ w, let w' := set_stdout (stdout w ++ [prompt]) w in
       match stdin w with
       | Number n :: rest => (Ok n, set_stdin rest w')
       | NotANumber :: rest => (Raise ValueError, set_stdin rest w')
       | Interrupt :: rest => (Raise KeyboardInterrupt, set_stdin rest w')
       | [] => (Raise EOFError, w')
       end.

(** The next draw of the random source. *)
Definition next_draw : M Z :=
  λ w, (Ok (entropy w 0%nat), set_entropy (λ n, entropy w (S n)) w).

(** [random.choice(xs)] *)
Definition random_choice {A} (xs : list A) : M A :=
  match xs with
  | [] => raise IndexError
  | _ => r <- next_draw ;; seq_item xs (r `mod` Z.of_nat (length xs))%Z
  end.

(** [random.random()]: a multiple of 2^-53 in [0, 1). *)
Definition random_random : M float :=
  r <- next_draw ;;
  ret (PrimFloat.of_uint63 (Uint63.of_Z (r `mod` 2 ^ 53)) / 9007199254740992)%float.

(** ** players.py *)

(** A player object: its two attributes and its [get_move] method. *)
Record Player : Type := mkPlayer {
  symbol : string;
  name : string;
  get_move : TicTacToe → M Z
}.

(** [name or default] *)
Definition name_or (name default : string) : string :=
  if String.eqb name "" then default else name.

Module HumanPlayer.

(** The [while True] loop of get_move, with a budget of turns.  [None]
    from the body of the [try] means the loop goes round again. *)
Fixpoint get_move_loop (fuel : nat) (name symbol : string) (game : TicTacToe)
  : M Z :=
  match fuel with
  | O => raise OutOfFuel
  | S fuel' =>
      r <- try_except
             (n <- input_int (Prompt name symbol) ;;
              let position := (n - 1)%Z in
              valid <- is_valid_move game position ;;
              if valid then ret (Some position)
              else (print InvalidMove ;; ret None))
             (λ e, match e with
                   | ValueError | KeyboardInterrupt => true
                   | _ => false
                   end)
             (print EnterNumber ;; ret None) ;;
      match r with
      | Some position => ret position
      | None => get_move_loop fuel' name symbol game
      end
  end.

(** Every turn of the loop consumes one console event, and the loop ends
    at end of file: one more turn than there are events is enough. *)
Definition get_move (name symbol : string) (game : TicTacToe) : M Z :=
  λ w, get_move_loop (S (length (stdin w))) name symbol game w.

Definition new (symbol name : string) : Player :=
  let name := name_or name ("Player " +:+ symbol) in
  mkPlayer symbol name (get_move name symbol).

End HumanPlayer.

Module RandomAI.

Definition get_move (game : TicTacToe) : M Z :=
  available_moves <- get_available_moves game ;;
  random_choice available_moves.

Definition new (symbol name : string) : Player :=
  mkPlayer symbol (name_or name ("Random AI (" +:+ symbol +:+ ")")) get_move.

End RandomAI.

(** The numbers the search compares: the scores, which are ints, and the
    two floats [float('-inf')] and [float('inf')]. *)
Inductive number : Type :=
| NegInf
| Int (z : Z)
| PosInf.

Definition number_lt (x y : number) : bool :=
  match x, y with
  | NegInf, NegInf => false
  | NegInf, _ => true
  | Int _, NegInf => false
  | Int a, Int b => (a <? b)%Z
  | Int _, PosInf => true
  | PosInf, _ => false
  end.

Definition number_gt (x y : number) : bool := number_lt y x.

Module SmartAI.

Record t : Type := mk {
  symbol : string;
  name : string;
  difficulty : string;
  opponent_symbol : string
}.

(** [SmartAI(symbol, name, difficulty)] *)
Definition init (symbol name difficulty : string) : t :=
  mk symbol (name_or name ("Smart AI (" +:+ symbol +:+ ")")) difficulty
     (if String.eqb symbol "X" then "O" else "X").

Fixpoint _evaluate_board_from (self : t) (board : loc) (patterns : list (list Z))
  : M Z :=
  match patterns with
  | pattern :: rest =>
      hit <- three_in_line board pattern ;;
      if hit then
        p0 <- seq_item pattern 0 ;;
        winner <- list_get board p0 ;;
        if String.eqb winner (symbol self) then ret 10%Z else ret (-10)%Z
      else _evaluate_board_from self board rest
  | [] => ret 0%Z  (* No winner *)
  end.

Definition _evaluate_board (self : t) (board : loc) : M Z :=
  _evaluate_board_from self board WIN_PATTERNS.

(** [_minimax], with a budget [fuel] of nested calls.  The loop-carried
    variables of each [for i in range(9)] are [(best_score, best_move)]. *)
Fixpoint _minimax (fuel : nat) (self : t) (board : loc) (player : string)
    (is_maximizing : bool) : M (number * option Z) :=
  match fuel with
  | O => raise OutOfFuel
  | S fuel' =>
      (* Check terminal states *)
      score <- _evaluate_board self board ;;
      terminal <- (if negb (score =? 0)%Z then ret true
                   else (cells <- list_read board ;;
                         ret (negb (contains " " cells)))) ;;
      if (terminal : bool) then ret (Int score, None) else
      let other :=
        if String.eqb player (symbol self) then opponent_symbol self
        else symbol self in
      if is_maximizing then
        for_each (range 9)
          (λ i '(best_score, best_move),
             c <- list_get board i ;;
             if String.eqb c " " then
               list_set board i player ;;
               r <- _minimax fuel' self board other false ;;
               let current_score := r.1 in
               list_set board i " " ;;  (* Undo move *)
               if number_gt current_score best_score
               then ret (current_score, Some i)
               else ret (best_score, best_move)
             else ret (best_score, best_move))
          (NegInf, None)
      else
        for_each (range 9)
          (λ i '(best_score, best_move),
             c <- list_get board i ;;
             if String.eqb c " " then
               list_set board i player ;;
               r <- _minimax fuel' self board other true ;;
               let current_score := r.1 in
               list_set board i " " ;;  (* Undo move *)
               if number_lt current_score best_score
               then ret (current_score, Some i)
               else ret (best_score, best_move)
             else ret (best_score, best_move))
          (PosInf, None)
  end.

(** Nested calls of [_minimax] from get_move: with marks that are not the
    empty cell, each call below the first has one more cell filled, so on a
    board of nine cells ten calls deep is as far as the search goes (lemmas
    [minimax_enough_fuel] and [minimax_depth_enough]). *)
Definition depth : nat := 10.

Definition get_move (self : t) (game : TicTacToe) : M Z :=
  early <-
    (if String.eqb (difficulty self) "easy" then
       (* Mix random and smart moves *)
       r <- random_random ;;
       if (r <? 0x1.3333333333333p-2)%float (* 0.3 *) then
         available_moves <- get_available_moves game ;;
         m <- random_choice available_moves ;;
         ret (Some m)
       else ret None
     else ret None) ;;
  match early with
  | Some m => ret m
  | None =>
      copy <- get_board_copy game ;;
      r <- _minimax depth self copy (symbol self) true ;;
      match r.2 with
      | Some best_move => ret best_move
      | None =>
          available_moves <- get_available_moves game ;;
          seq_item available_moves 0
      end
  end.

Definition player (self : t) : Player :=
  mkPlayer (symbol self) (name self) (get_move self).

(** The two marks of the search are marks: neither is the empty cell. *)
Definition marks_ok (self : t) : Prop :=
  symbol self ≠ " " ∧ opponent_symbol self ≠ " ".

End SmartAI.

(** ** interface.py *)

Module ConsoleInterface.

Definition display_board (game : TicTacToe) : M unit :=
  copy <- get_board_copy game ;;
  cells <- list_read copy ;;
  print (BoardDisplayed cells).

Definition display_result (game : TicTacToe) : M unit :=
  print (ResultDisplayed (game_state game) (winning_pattern game)).

(** [players[self.game.current_player]] for
    [players = {'X': player_x, 'O': player_o}] *)
Definition players_item (player_x player_o : Player) (key : string) : M Player :=
  if String.eqb key "X" then ret player_x
  else if String.eqb key "O" then ret player_o
  else raise KeyError.

(** How one turn of the [while] loop of play_game ends. *)
Inductive turn : Type :=
| Moved (game : TicTacToe)       (* the move was made *)
| Continue (game : TicTacToe)    (* [continue] after an invalid move *)
| Return.                        (* [return] after an interrupt *)

(** The [while not self.game.is_game_over()] loop and what follows it, with
    a budget of turns.  The result is the value play_game returns ([None]
    after an interrupt) and the game instance as the call leaves it. *)
Fixpoint play_game_loop (fuel : nat) (game : TicTacToe) (player_x player_o : Player)
  : M (option GameState * TicTacToe) :=
  match fuel with
  | O => raise OutOfFuel
  | S fuel' =>
      if is_game_over game then
        display_board game ;;
        display_result game ;;
        ret (Some (game_state game), game)
      else
        display_board game ;;
        current <- players_item player_x player_o (current_player game) ;;
        print (TurnOf (name current) (current_player game)) ;;
        t <- try_except
               (move <- get_move current game ;;
                r <- make_move game move ;;
                if negb r.1 then (print InvalidMove ;; ret (Continue r.2))
                else ret (Moved r.2))
               (λ e, match e with KeyboardInterrupt => true | _ => false end)
               (print Interrupted ;; ret Return) ;;
        match t with
        | Moved game' | Continue game' => play_game_loop fuel' game' player_x player_o
        | Return => ret (None, game)
        end
  end.

Definition play_game (fuel : nat) (game : TicTacToe) (player_x player_o : Player)
  : M (option GameState * TicTacToe) :=
  print (StartingGame (name player_x) (name player_o)) ;;
  play_game_loop fuel game player_x player_o.

End ConsoleInterface.

(** ** utils.py *)

(** An int below 2^53 in magnitude as a float: the conversion is exact. *)
Definition is_small (z : Z) : bool := (Z.abs z <? 2 ^ 53)%Z.

Definition float_of_small (z : Z) : float :=
  if (z <? 0)%Z then (- PrimFloat.of_uint63 (Uint63.of_Z (- z)))%float
  else PrimFloat.of_uint63 (Uint63.of_Z z).

(** The binary64 nearest to the quotient of two ints of any size, ties to
    even, as IEEE 754 specifies division: an infinity when the quotient is
    beyond the floats, a zero with the sign of [b] when [a] is 0. *)
Definition nearest_quotient (a b : Z) : spec_float :=
  match a, b with
  | Z0, _ => S754_zero (b <? 0)%Z
  | _, Z0 => S754_nan
  | _, _ =>
      SFdiv prec emax
        (S754_finite (a <? 0)%Z (Z.to_pos (Z.abs a)) 0)
        (S754_finite (b <? 0)%Z (Z.to_pos (Z.abs b)) 0)
  end.

(** [a / b] on ints: the float nearest to the quotient.  Two ints below
    2^53 are converted, exactly, and divided as floats; otherwise the
    quotient of the ints is rounded once, and OverflowError is raised when
    it is too large for a float. *)
Definition truediv (a b : Z) : res float :=
  if (b =? 0)%Z then Raise ZeroDivisionError
  else if is_small a && is_small b
  then Ok (float_of_small a / float_of_small b)%float
  else match nearest_quotient a b with
       | S754_infinity _ => Raise OverflowError
       | q => Ok (SF2Prim q)
       end.

(** [n / d] rounded to the nearest integer, ties to even ([0 ≤ n], [0 < d]). *)
Definition round_half_even (n d : Z) : Z :=
  let q := (n / d)%Z in
  match (2 * (n `mod` d) ?= d)%Z with
  | Lt => q
  | Gt => (q + 1)%Z
  | Eq => if Z.even q then q else (q + 1)%Z
  end.

(** [round(x, 1)] on a float: the float nearest to the one-decimal number
    that is nearest to the exact value of [x], ties to even both times;
    signs, zeros, infinities and NaN are kept, and a float with no
    fractional part is returned as it is. *)
Definition round1 (x : float) : float :=
  match Prim2SF x with
  | S754_finite s m e =>
      if (0 <=? e)%Z then x
      else
        let t := round_half_even (Z.pos m * 10) (2 ^ (- e)) in
        let r := SF2Prim (nearest_quotient t 10) in
        if s then (- r)%float else r
  | _ => x
  end.

(** The dict that get_stats returns, by key. *)
Module Stats.
Record t : Type := mk {
  games_played : Z;
  x_wins : Z;
  o_wins : Z;
  draws : Z;
  average_moves : float
}.
End Stats.

Module GameStats.

Record t : Type := mk {
  games_played : Z;
  wins : gmap string Z;   (* defaultdict(int) *)
  draws : Z;
  total_moves : Z
}.

(** [GameStats()] *)
Definition init : t := mk 0 ∅ 0 0.

(** [self.wins[key]]: a missing key is entered with [int()], that is 0. *)
Definition wins_item (self : t) (key : string) : Z * t :=
  match wins self !! key with
  | Some v => (v, self)
  | None => (0%Z, mk (games_played self) (<[key := 0%Z]> (wins self))
                     (draws self) (total_moves self))
  end.

(** [self.wins[key] += 1] *)
Definition wins_incr (self : t) (key : string) : t :=
  let '(v, self) := wins_item self key in
  mk (games_played self) (<[key := (v + 1)%Z]> (wins self))
     (draws self) (total_moves self).

Definition record_game (self : t) (game_state : GameState) (moves : Z) : t :=
  let self := mk (games_played self + 1) (wins self) (draws self)
                 (total_moves self + moves) in
  match game_state with
  | X_WINS => wins_incr self "X"
  | O_WINS => wins_incr self "O"
  | DRAW => mk (games_played self) (wins self) (draws self + 1) (total_moves self)
  | ONGOING => self
  end.

(** The dict entries are evaluated in order; reading [wins] may enter keys,
    so the instance is returned too.  (When the division raises, the keys
    entered stay entered; no instance is returned then, and nothing below
    reads one after a raise.) *)
Definition get_stats (self : t) : res (Stats.t * t) :=
  let games := games_played self in
  let '(x, self) := wins_item self "X" in
  let '(o, self) := wins_item self "O" in
  let d := draws self in
  match truediv (total_moves self) (Z.max 1 (games_played self)) with
  | Ok mean => Ok (Stats.mk games x o d (round1 mean), self)
  | Raise e => Raise e
  end.

(** [reset]: [wins.clear()] empties the dict. *)
Definition reset (self : t) : t := mk 0 ∅ 0 0.

(** An instance as it is before any game is recorded: fresh, or reset, and
    read any number of times since. *)
Inductive no_games : t → Prop :=
| no_games_init : no_games init
| no_games_reset self : no_games (reset self)
| no_games_get_stats self r self' :
    no_games self → get_stats self = Ok (r, self') → no_games self'.

End GameStats.

(** ** The engine on board values

    The same operations as functions of the board's contents, for boards of
    nine cells: what each method computes, without the store.  The lemmas
    of section "The methods compute their value forms" relate them to the
    methods above. *)

Module Val.

(** [board[i]] for an index in range. *)
Definition cell (b : list string) (i : Z) : string :=
  default " " (b !! Z.to_nat i).

Definition line (b : list string) (pattern : list Z) : bool :=
  match pattern with
  | [p0; p1; p2] =>
      String.eqb (cell b p0) (cell b p1)
      && String.eqb (cell b p1) (cell b p2)
      && negb (String.eqb (cell b p2) " ")
  | _ => false
  end.

Definition head_cell (b : list string) (pattern : list Z) : string :=
  match pattern with
  | p0 :: _ => cell b p0
  | [] => " "
  end.

Fixpoint update_game_state_from (b : list string) (self : TicTacToe)
    (patterns : list (list Z)) : TicTacToe :=
  match patterns with
  | pattern :: rest =>
      if line b pattern then
        let w := head_cell b pattern in
        mkTicTacToe (board self) (current_player self)
          (if String.eqb w "X" then X_WINS else O_WINS)
          (moves_count self) (Some w) (Some pattern)
      else update_game_state_from b self rest
  | [] =>
      if (moves_count self =? 9)%Z then
        mkTicTacToe (board self) (current_player self) DRAW
          (moves_count self) (winner self) (winning_pattern self)
      else self
  end.

Definition is_valid_move (b : list string) (self : TicTacToe) (position : Z) : bool :=
  (0 <=? position)%Z && (position <=? 8)%Z
  && String.eqb (cell b position) " "
  && bool_decide (game_state self = ONGOING).

Definition place (b : list string) (position : Z) (mark : string) : list string :=
  <[Z.to_nat position := mark]> b.

Definition switch_player (self : TicTacToe) : TicTacToe :=
  if bool_decide (game_state self = ONGOING) then
    mkTicTacToe (board self)
      (if String.eqb (current_player self) "X" then "O" else "X")
      (game_state self) (moves_count self) (winner self) (winning_pattern self)
  else self.

Definition count_move (self : TicTacToe) : TicTacToe :=
  mkTicTacToe (board self) (current_player self) (game_state self)
    (moves_count self + 1) (winner self) (winning_pattern self).

(** The instance and the board after an accepted move at [position]. *)
Definition moved (b : list string) (self : TicTacToe) (position : Z)
  : TicTacToe * list string :=
  let b' := place b position (current_player self) in
  (switch_player (update_game_state_from b' (count_move self) WIN_PATTERNS), b').

(** The result, the instance and the board after [make_move]. *)
Definition make_move (b : list string) (self : TicTacToe) (position : Z)
  : bool * TicTacToe * list string :=
  if is_valid_move b self position
  then (true, (moved b self position).1, (moved b self position).2)
  else (false, self, b).

(** The instance and the board after the calls [make_move(p)] for [p] in
    [positions], one after the other. *)
Fixpoint make_moves (b : list string) (self : TicTacToe) (positions : list Z)
  : TicTacToe * list string :=
  match positions with
  | [] => (self, b)
  | p :: rest =>
      let '(_, self', b') := make_move b self p in make_moves b' self' rest
  end.

Definition get_available_moves (b : list string) : list Z :=
  filter (λ i, cell b i = " ") (range 9).

End Val.

(** ** The search on board values

    [_minimax] as a function of the board's contents: each exploration works
    on a copy of the board with the cell filled, and the two loops are one,
    parametrised by the comparison. *)

Module Search.

Fixpoint evaluate_from (self : SmartAI.t) (b : list string) (patterns : list (list Z))
  : Z :=
  match patterns with
  | pattern :: rest =>
      if Val.line b pattern then
        if String.eqb (Val.head_cell b pattern) (SmartAI.symbol self)
        then 10%Z else (-10)%Z
      else evaluate_from self b rest
  | [] => 0%Z
  end.

Definition evaluate (self : SmartAI.t) (b : list string) : Z :=
  evaluate_from self b WIN_PATTERNS.

Definition terminal (self : SmartAI.t) (b : list string) : bool :=
  negb (evaluate self b =? 0)%Z || negb (contains " " b).

(** [current_score > best_score] when maximizing, [<] when minimizing. *)
Definition better (is_maximizing : bool) (current best : number) : bool :=
  if is_maximizing then number_gt current best else number_lt current best.

Definition worst (is_maximizing : bool) : number :=
  if is_maximizing then NegInf else PosInf.

Definition other (self : SmartAI.t) (player : string) : string :=
  if String.eqb player (SmartAI.symbol self) then SmartAI.opponent_symbol self
  else SmartAI.symbol self.

(** One turn of the loop at cell [i], given the score [child i] of the
    position reached by playing there ([None]: that search ran out of
    budget). *)
Definition step (child : Z → option number) (is_maximizing : bool) (b : list string)
    (i : Z) (best : number * option Z) : option (number * option Z) :=
  if String.eqb (Val.cell b i) " " then
    match child i with
    | Some current_score =>
        Some (if better is_maximizing current_score best.1
              then (current_score, Some i) else best)
    | None => None
    end
  else Some best.

(** The scan of the cells [cells]. *)
Fixpoint scan (child : Z → option number) (is_maximizing : bool) (b : list string)
    (cells : list Z) (best : number * option Z) : option (number * option Z) :=
  match cells with
  | [] => Some best
  | i :: rest =>
      match step child is_maximizing b i best with
      | Some best' => scan child is_maximizing b rest best'
      | None => None
      end
  end.

(** [None]: the budget of nested calls ran out. *)
Fixpoint minimax (fuel : nat) (self : SmartAI.t) (b : list string) (player : string)
    (is_maximizing : bool) : option (number * option Z) :=
  match fuel with
  | O => None
  | S fuel' =>
      if terminal self b then Some (Int (evaluate self b), None) else
      scan (λ i, fst <$> minimax fuel' self (Val.place b i player)
                           (other self player) (negb is_maximizing))
        is_maximizing b (range 9) (worst is_maximizing, None)
  end.

(** The score of the position reached from [b] when [player] plays at [i]. *)
Definition child_score (fuel : nat) (self : SmartAI.t) (b : list string)
    (player : string) (is_maximizing : bool) (i : Z) : option number :=
  fst <$> minimax fuel self (Val.place b i player) (other self player)
            (negb is_maximizing).

(** get_move at full strength (difficulty other than "easy"). *)
Definition get_move (self : SmartAI.t) (b : list string) : option Z :=
  match minimax SmartAI.depth self b (SmartAI.symbol self) true with
  | Some (_, Some best_move) => Some best_move
  | Some (_, None) => head (Val.get_available_moves b)
  | None => None
  end.

End Search.

(** ** The search on marks

    The same search once more, for computing: the cells are the three
    values of an enumeration instead of strings, the nine cells are taken
    apart by pattern matching instead of indexing, and the plays of a turn are
    listed outright.  Lemma [fast_minimax] relates it to [Search.minimax]. *)

Module Fast.

Inductive mark : Type := Blank | Cross | Nought.

Definition dec (c : mark) : string :=
  match c with Blank => " " | Cross => "X" | Nought => "O" end.

Definition enc (c : string) : option mark :=
  if String.eqb c " " then Some Blank
  else if String.eqb c "X" then Some Cross
  else if String.eqb c "O" then Some Nought
  else None.

Fixpoint board_of (b : list string) : option (list mark) :=
  match b with
  | [] => Some []
  | c :: rest =>
      match enc c, board_of rest with
      | Some m, Some marks => Some (m :: marks)
      | _, _ => None
      end
  end.

Definition mark_eqb (a b : mark) : bool :=
  match a, b with
  | Blank, Blank | Cross, Cross | Nought, Nought => true
  | _, _ => false
  end.

Definition is_empty (a : mark) : bool :=
  match a with Blank => true | _ => false end.

Definition line3 (a b c : mark) : bool :=
  mark_eqb a b && mark_eqb b c && negb (is_empty c).

Definition score (me winner : mark) : Z :=
  if mark_eqb winner me then 10%Z else (-10)%Z.

Definition evaluate (me : mark) (b : list mark) : Z :=
  match b with
  | [c0; c1; c2; c3; c4; c5; c6; c7; c8] =>
      if line3 c0 c1 c2 then score me c0 else
      if line3 c3 c4 c5 then score me c3 else
      if line3 c6 c7 c8 then score me c6 else
      if line3 c0 c3 c6 then score me c0 else
      if line3 c1 c4 c7 then score me c1 else
      if line3 c2 c5 c8 then score me c2 else
      if line3 c0 c4 c8 then score me c0 else
      if line3 c2 c4 c6 then score me c2 else 0%Z
  | _ => 0%Z
  end.

(** For each cell: its index, what it holds, and the board with [p] there. *)
Definition plays (b : list mark) (p : mark) : list (Z * mark * list mark) :=
  match b with
  | [c0; c1; c2; c3; c4; c5; c6; c7; c8] =>
      [ (0, c0, [p; c1; c2; c3; c4; c5; c6; c7; c8]);
        (1, c1, [c0; p; c2; c3; c4; c5; c6; c7; c8]);
        (2, c2, [c0; c1; p; c3; c4; c5; c6; c7; c8]);
        (3, c3, [c0; c1; c2; p; c4; c5; c6; c7; c8]);
        (4, c4, [c0; c1; c2; c3; p; c5; c6; c7; c8]);
        (5, c5, [c0; c1; c2; c3; c4; p; c6; c7; c8]);
        (6, c6, [c0; c1; c2; c3; c4; c5; p; c7; c8]);
        (7, c7, [c0; c1; c2; c3; c4; c5; c6; p; c8]);
        (8, c8, [c0; c1; c2; c3; c4; c5; c6; c7; p]) ]%Z
  | _ => []
  end.

Fixpoint scan (child : list mark → option number) (is_maximizing : bool)
    (ps : list (Z * mark * list mark)) (best : number * option Z)
  : option (number * option Z) :=
  match ps with
  | [] => Some best
  | (i, c, b') :: rest =>
      if is_empty c then
        match child b' with
        | Some current_score =>
            scan child is_maximizing rest
              (if Search.better is_maximizing current_score best.1
               then (current_score, Some i) else best)
        | None => None
        end
      else scan child is_maximizing rest best
  end.

Definition other (me opp p : mark) : mark := if mark_eqb p me then opp else me.

Fixpoint minimax (fuel : nat) (me opp : mark) (b : list mark) (p : mark)
    (is_maximizing : bool) : option (number * option Z) :=
  match fuel with
  | O => None
  | S fuel' =>
      if negb (evaluate me b =? 0)%Z || negb (existsb is_empty b)
      then Some (Int (evaluate me b), None) else
      scan (λ b', fst <$> minimax fuel' me opp b' (other me opp p)
                            (negb is_maximizing))
        is_maximizing (plays b p) (Search.worst is_maximizing, None)
  end.

(** [Search.get_move], through the search on marks when the board and the
    two marks of [self] are made of the three cell contents. *)
Definition get_move (self : SmartAI.t) (b : list string) : option Z :=
  match enc (SmartAI.symbol self), enc (SmartAI.opponent_symbol self),
        board_of b with
  | Some me, Some opp, Some marks =>
      match minimax SmartAI.depth me opp marks me true with
      | Some (_, Some best_move) => Some best_move
      | Some (_, None) => head (Val.get_available_moves b)
      | None => None
      end
  | _, _, _ => Search.get_move self b
  end.

(** Every game from the position [(b, game)] in which the search plays the
    mark [SmartAI.symbol self] and the other mark's moves range over all valid
    moves: [true] when the search always has a valid move and the state
    [lost] is never reached. *)
Fixpoint never_reaches (lost : GameState) (turns : nat) (self : SmartAI.t)
    (b : list string) (game : TicTacToe) : bool :=
  negb (bool_decide (game_state game = lost))
  && (is_game_over game ||
      match turns with
      | O => false
      | S turns' =>
          if String.eqb (current_player game) (SmartAI.symbol self) then
            match get_move self b with
            | Some m =>
                Val.is_valid_move b game m
                && (let '(game', b') := Val.moved b game m in
                    never_reaches lost turns' self b' game')
            | None => false
            end
          else
            forallb (λ p, negb (Val.is_valid_move b game p)
                          || (let '(game', b') := Val.moved b game p in
                              never_reaches lost turns' self b' game'))
              (range 9)
      end).

End Fast.

(** A turn of the scan of the value form and a play of the form on marks
    agree: the same cell, empty in both or in neither, with the same
    score. *)
Definition same_turn (child : Z → option number)
    (child' : list Fast.mark → option number) (b : list string) (i : Z)
    (play : Z * Fast.mark * list Fast.mark) : Prop :=
  i = play.1.1
  ∧ String.eqb (Val.cell b i) " " = Fast.is_empty play.1.2
  ∧ child i = child' play.2.

(** ** Notions of the specification *)

(** [game.make_move(p)] for each [p] in [positions], results dropped. *)
Definition make_moves (game : TicTacToe) (positions : list Z) : M TicTacToe :=
  for_each positions (λ p game, r <- make_move game p ;; ret r.2) game.

(** The three cells of [pattern] all hold the mark [m], which is not the
    empty cell. *)
Definition full_line (b : list string) (pattern : list Z) (m : string) : Prop :=
  m ≠ " " ∧ ∀ i, i ∈ pattern → b !! Z.to_nat i = Some m.

(** [board.count(' ')] and the number of the other cells. *)
Definition count_empty (b : list string) : nat :=
  length (filter (λ c, c = " ") b).
Definition count_marked (b : list string) : nat :=
  length (filter (λ c, c ≠ " ") b).

(** The states of a game instance: made by [TicTacToe()], then any calls of
    [make_move] and [reset]; whatever else the program does in between
    leaves the board list as it is. *)
Inductive reachable : world → TicTacToe → Prop :=
| reachable_init w game w' :
    TicTacToe_init w = (Ok game, w') → reachable w' game
| reachable_reset w game game' w' :
    reachable w game → reset game w = (Ok game', w') → reachable w' game'
| reachable_make_move w game position r game' w' :
    reachable w game → make_move game position w = (Ok (r, game'), w') →
    reachable w' game'
| reachable_elsewhere w game w' :
    reachable w game → heap w' !! board game = heap w !! board game →
    reachable w' game.

(** The states of the games in which the search [self] has the first move
    on a new board and plays every move of "X" with [get_move], and the
    moves of "O" are any moves that [make_move] accepts; whatever else
    happens in between leaves the board list as it is. *)
Inductive search_moves_first (self : SmartAI.t) : world → TicTacToe → Prop :=
| first_start w game w' :
    TicTacToe_init w = (Ok game, w') → search_moves_first self w' game
| first_search w game m w1 r game' w2 :
    search_moves_first self w game →
    game_state game = ONGOING → current_player game = "X" →
    SmartAI.get_move self game w = (Ok m, w1) →
    make_move game m w1 = (Ok (r, game'), w2) →
    search_moves_first self w2 game'
| first_reply w game position game' w' :
    search_moves_first self w game →
    current_player game = "O" →
    make_move game position w = (Ok (true, game'), w') →
    search_moves_first self w' game'
| first_elsewhere w game w' :
    search_moves_first self w game →
    heap w' !! board game = heap w !! board game →
    search_moves_first self w' game.

(** The candidate move [i] of [player] on the board [b], and the score [s]
    that the search gives it: the cell is empty, and [_minimax] run on the
    board with the cell filled, for the other player and the opposite role,
    returns [s]. *)
Definition candidate_score (fuel : nat) (self : SmartAI.t) (b : list string)
    (player : string) (is_maximizing : bool) (i : Z) (s : number) : Prop :=
  (0 ≤ i < 9)%Z ∧ b !! Z.to_nat i = Some " "
  ∧ ∀ w l, heap w !! l = Some (Val.place b i player) →
      ∃ mv, SmartAI._minimax fuel self l (Search.other self player)
              (negb is_maximizing) w = (Ok (s, mv), w).

(** ** The value of a position

    Modelled from the spec: the game-theoretic value of a position for the
    strategy that plays the mark [own] against [opponent], as the rules of
    the game give it on the board alone.  A position is decided when some
    mark has a full pattern; its static score is +10 when the strategy's
    own mark has one, -10 when another mark has one, 0 otherwise.  The value
    of a position that is decided or full is its static score; otherwise it
    is the greatest (for the maximizing role) or the least (for the
    minimizing role) of the values of the positions that the mover reaches
    by marking one empty cell, where the other mark moves in the opposite
    role.  The search of players.py is compared with it in C5. *)

Module Game.

Definition has_line (b : list string) (m : string) : bool :=
  negb (String.eqb m " ")
  && existsb (λ pattern,
                forallb (λ i, bool_decide (b !! Z.to_nat i = Some m)) pattern)
       WIN_PATTERNS.

Definition decided (b : list string) : bool := existsb (has_line b) b.

Definition static_score (own : string) (b : list string) : Z :=
  if has_line b own then 10%Z
  else if decided b then (-10)%Z
  else 0%Z.

(** The empty cells, ascending. *)
Definition empty_cells (b : list string) : list Z :=
  filter (λ i, b !! Z.to_nat i = Some " ") (range 9).

(** The greatest of the values, or the least. *)
Definition best (maximizing : bool) (values : list Z) : Z :=
  match values with
  | [] => 0%Z
  | v :: rest => foldr (if maximizing then Z.max else Z.min) v rest
  end.

(** The mark that moves after [mover]. *)
Definition next (own opponent mover : string) : string :=
  if String.eqb mover own then opponent else own.

(** The value, looking [depth] moves ahead: nine is as far as a game
    goes. *)
Fixpoint value (depth : nat) (own opponent : string) (b : list string)
    (mover : string) (maximizing : bool) : Z :=
  match depth with
  | O => static_score own b
  | S depth' =>
      if decided b || bool_decide (empty_cells b = []) then static_score own b
      else
        best maximizing
          ((λ i, value depth' own opponent (<[Z.to_nat i := mover]> b)
                   (next own opponent mover) (negb maximizing))
           <$> empty_cells b)
  end.

End Game.

(** ** Notions of the proofs *)

(** A pattern is three cell indices of the board. *)
Definition pattern_ok (pattern : list Z) : Prop :=
  ∃ p0 p1 p2, pattern = [p0; p1; p2]
    ∧ (0 ≤ p0 < 9)%Z ∧ (0 ≤ p1 < 9)%Z ∧ (0 ≤ p2 < 9)%Z.

(** What every reachable instance satisfies. *)
Definition game_inv (w : world) (game : TicTacToe) : Prop :=
  ∃ b : list string,
    heap w !! board game = Some b
    ∧ length b = 9%nat
    ∧ moves_count game = Z.of_nat (count_marked b)
    ∧ (current_player game = "X" ∨ current_player game = "O")
    ∧ (game_state game = ONGOING → moves_count game ≠ 9%Z).

(** What a statement does in the world [w], for a value form [v]: with
    [Some a] it returns [a] and leaves the world as it was, with [None] it
    runs out of budget. *)
Definition runs_as {A} (m : M A) (w : world) (v : option A) : Prop :=
  match v with
  | Some a => m w = (Ok a, w)
  | None => ∃ w', m w = (Raise OutOfFuel, w')
  end.

(** A state that [never_reaches] has checked: the board has nine cells and
    no game from here, with the search as [self], reaches O_WINS. *)
Definition checked (self : SmartAI.t) (w : world) (game : TicTacToe) : Prop :=
  ∃ (b : list string) turns,
    heap w !! board game = Some b ∧ length b = 9%nat
    ∧ Fast.never_reaches O_WINS turns self b game = true.

(** ** States to run the program on *)

(** The world before anything is made. *)
Definition world_empty : world := World ∅ [] [] (λ _, 0%Z).

(** A world with one board, empty, at location 1, and a game instance on
    it: the state [TicTacToe()] makes in an empty store. *)
Definition world0 : world :=
  World {[1%positive := replicate 9 " "]} [] [] (λ _, 0%Z).
Definition game0 : TicTacToe := mkTicTacToe 1%positive "X" ONGOING 0 None None.

(** A world with one board on which "X" is one move from the top row, and
    the instance on it: X X _ / _ O _ / _ O _, X to move. *)
Definition board3 : list string := ["X"; "X"; " "; " "; "O"; " "; " "; "O"; " "].
Definition world3 : world := World {[1%positive := board3]} [] [] (λ _, 0%Z).
Definition game3 : TicTacToe := mkTicTacToe 1%positive "X" ONGOING 4 None None.

(** A world with one board on which "X", to move, completes the top row
    and the left column at once by playing at 0, and the instance on it:
    _ X X / X O O / X O O. *)
Definition board_two_lines : list string :=
  [" "; "X"; "X"; "X"; "O"; "O"; "X"; "O"; "O"].
Definition world_two_lines : world :=
  World {[1%positive := board_two_lines]} [] [] (λ _, 0%Z).
Definition game_two_lines : TicTacToe :=
  mkTicTacToe 1%positive "X" ONGOING 8 None None.

(** A game in which the search has played "X" twice and "O" has replied
    twice, after the moves 0, 4, 1, 2: X X O / _ O _ / _ _ _, X to move. *)
Definition board_played : list string :=
  ["X"; "X"; "O"; " "; "O"; " "; " "; " "; " "].
Definition world_played : world :=
  World {[1%positive := board_played]} [] [] (λ _, 0%Z).
Definition game_played : TicTacToe := mkTicTacToe 1%positive "X" ONGOING 4 None None.

(** A world in which a game was played for two moves and then reset, and
    the instance after the calls [make_move] with 8, 4, 0 and, once more, 4
    on the new board: the old board X _ _ / _ O _ / _ _ _ is still there,
    the new one is X _ _ / _ O _ / _ _ X, "O" to move. *)
Definition board_again : list string :=
  ["X"; " "; " "; " "; "O"; " "; " "; " "; "X"].
Definition world_again : world :=
  World {[1%positive := ["X"; " "; " "; " "; "O"; " "; " "; " "; " "];
          2%positive := board_again]} [] [] (λ _, 0%Z).
Definition game_again : TicTacToe := mkTicTacToe 2%positive "O" ONGOING 3 None None.

(** A world with one board, one move from full, and the instance on it:
    X O X / O X O / O X _, X to move. *)
Definition board1 : list string := ["X"; "O"; "X"; "O"; "X"; "O"; "O"; "X"; " "].
Definition world1 : world := World {[1%positive := board1]} [] [] (λ _, 0%Z).
Definition game1 : TicTacToe := mkTicTacToe 1%positive "X" ONGOING 8 None None.

(** A world with one board after one move of each player:
    X O _ / _ _ _ / _ _ _, X to move.  The moves 3, 4 and 6 all win. *)
Definition board2 : list string := ["X"; "O"; " "; " "; " "; " "; " "; " "; " "].
Definition world2 : world := World {[1%positive := board2]} [] [] (λ _, 0%Z).

(** The statistics after the four games X wins in 5 moves, O wins in 7,
    draw in 9, X wins in 6, recorded on a new instance. *)
Definition four_games : GameStats.t :=
  GameStats.record_game
    (GameStats.record_game
       (GameStats.record_game
          (GameStats.record_game GameStats.init X_WINS 5) O_WINS 7) DRAW 9)
    X_WINS 6.

(** A session of two human players, as in examples/basic_game.py, on the
    console of which Ctrl-C is pressed at the first prompt, and the cells
    1, 5, 2, 8, 3 are entered after that. *)
Definition player1 : Player := HumanPlayer.new "X" "Player 1".
Definition player2 : Player := HumanPlayer.new "O" "Player 2".
Definition world_interrupted : world :=
  World {[1%positive := replicate 9 " "]}
    [Interrupt; Number 1; Number 5; Number 2; Number 8; Number 3] [] (λ _, 0%Z).

Definition is_interrupted (e : output_event) : bool :=
  match e with Interrupted => true | _ => false end.

(** ** game.py: the board as text *)

(** ["\n"] *)
Definition newline : string := String (Ascii.ascii_of_nat 10) "".

(** [xs[i:j]] for [0 ≤ i ≤ j]: a slice stops where the list does. *)
Definition slice {A} (xs : list A) (i j : Z) : list A :=
  take (Z.to_nat (j - i)) (drop (Z.to_nat i) xs).

(** [__str__]; the loop-carried variable is [board_str]. *)
Definition __str__ (self : TicTacToe) : M string :=
  for_each [0; 3; 6]%Z   (* range(0, 9, 3) *)
    (λ i board_str,
       cells <- list_read (board self) ;;
       let row := String.concat " | " (slice cells i (i + 3)) in
       let board_str := board_str +:+ row +:+ newline in
       ret (if (i <? 6)%Z then board_str +:+ "---------" +:+ newline
            else board_str))
    "".

(** ** utils.py: the two functions on boards *)

(** [board.count(v)] *)
Definition count_of (v : string) (b : list string) : nat :=
  length (filter (λ c, c = v) b).

(** The dict that analyze_board returns, by key. *)
Module Analysis.
Record t : Type := mk {
  empty_spaces : Z;
  x_count : Z;
  o_count : Z;
  center_occupied : bool;
  corners_occupied : Z;
  edges_occupied : Z
}.
End Analysis.




(** ** examples/tournament.py *)

Module Tournament.

(** The game of one round of [main], played without the interface: the
    loop [while not game.is_game_over()] over
    [players = {'X': player_x, 'O': player_o}], with a budget of turns.
    (The demonstration of examples/custom_player_example.py plays its
    games with the same loop.)  The result of [make_move] is dropped: after
    a move that is not accepted the same player is asked again. *)
Fixpoint play_silently (fuel : nat) (game : TicTacToe) (player_x player_o : Player)
  : M TicTacToe :=
  match fuel with
  | O => raise OutOfFuel
  | S fuel' =>
      if is_game_over game then ret game else
      current <- ConsoleInterface.players_item player_x player_o
                   (current_player game) ;;
      move <- get_move current game ;;
      r <- make_move game move ;;
      play_silently fuel' r.2 player_x player_o
  end.

(** [RandomAI('X', f"Random AI")] and [SmartAI('O', f"Smart AI")] *)
Definition random_ai : Player := RandomAI.new "X" "Random AI".
Definition smart_ai : SmartAI.t := SmartAI.init "O" "Smart AI" "hard".

End Tournament.

(** ** examples/custom_player_example.py *)

(** [for pos in candidates: if pos in available_moves: return pos]: the
    position returned, or [None] when the loop comes to its end. *)
Definition first_available (candidates available_moves : list Z) : option Z :=
  find (λ pos, bool_decide (pos ∈ available_moves)) candidates.

Module CornerFirstAI.

Definition get_move (game : TicTacToe) : M Z :=
  available_moves <- get_available_moves game ;;
  (* Priority order: corners -> center -> edges *)
  let corners := [0; 2; 6; 8]%Z in
  let center := [4]%Z in
  let edges := [1; 3; 5; 7]%Z in
  match first_available corners available_moves with
  | Some pos => ret pos
  | None =>
      match first_available center available_moves with
      | Some pos => ret pos
      | None =>
          match first_available edges available_moves with
          | Some pos => ret pos
          | None => seq_item available_moves 0
          end
      end
  end.

Definition new (symbol name : string) : Player :=
  mkPlayer symbol (name_or name ("Corner AI (" +:+ symbol +:+ ")")) get_move.

End CornerFirstAI.

Module DefensiveAI.

Record t : Type := mk {
  symbol : string;
  name : string;
  opponent_symbol : string
}.

(** [DefensiveAI(symbol, name)] *)
Definition init (symbol name : string) : t :=
  mk symbol (name_or name ("Defensive AI (" +:+ symbol +:+ ")"))
     (if String.eqb symbol "X" then "O" else "X").

(** [all(board[pos] == symbol for pos in pattern)], which stops at the
    first cell that differs. *)
Fixpoint all_hold (board : loc) (symbol : string) (pattern : list Z) : M bool :=
  match pattern with
  | [] => ret true
  | pos :: rest =>
      c <- list_get board pos ;;
      if String.eqb c symbol then all_hold board symbol rest else ret false
  end.

Fixpoint _check_winner_from (board : loc) (symbol : string)
    (patterns : list (list Z)) : M bool :=
  match patterns with
  | pattern :: rest =>
      hit <- all_hold board symbol pattern ;;
      if hit then ret true else _check_winner_from board symbol rest
  | [] => ret false
  end.

Definition _check_winner (board : loc) (symbol : string) : M bool :=
  _check_winner_from board symbol WIN_PATTERNS.

(** Each of the first two loops of get_move, for the mark [symbol]: the
    move returned, or [None] when the loop comes to its end.  The move
    that is returned is left on the board, the others are undone. *)
Fixpoint winning_move (board : loc) (symbol : string) (moves : list Z)
  : M (option Z) :=
  match moves with
  | [] => ret None
  | move :: rest =>
      list_set board move symbol ;;
      win <- _check_winner board symbol ;;
      if win then ret (Some move) else
      list_set board move " " ;;  (* Undo *)
      winning_move board symbol rest
  end.

Definition get_move (self : t) (game : TicTacToe) : M Z :=
  board <- get_board_copy game ;;
  available_moves <- get_available_moves game ;;
  (* First, check if we can win *)
  r <- winning_move board (symbol self) available_moves ;;
  match r with
  | Some move => ret move
  | None =>
      (* Then, check if we need to block opponent *)
      r <- winning_move board (opponent_symbol self) available_moves ;;
      match r with
      | Some move => ret move
      | None =>
          (* Otherwise, take center or corner *)
          let preferences := [4; 0; 2; 6; 8; 1; 3; 5; 7]%Z in
          match first_available preferences available_moves with
          | Some pos => ret pos
          | None => seq_item available_moves 0
          end
      end
  end.

Definition player (self : t) : Player :=
  mkPlayer (symbol self) (name self) (get_move self).

End DefensiveAI.

Module PatternAI.

Definition _get_defensive_move (game : TicTacToe) : M Z :=
  available_moves <- get_available_moves game ;;
  match available_moves with
  | [] => ret 0%Z  (* Should not happen in valid game *)
  | _ =>
      (* Simple preference: corners, then center, then edges *)
      match first_available [0; 2; 6; 8; 4; 1; 3; 5; 7]%Z available_moves with
      | Some pos => ret pos
      | None => seq_item available_moves 0
      end
  end.

(** [early] is the move returned by the opening strategy, [None] when
    control comes to the last line. *)
Definition get_move (game : TicTacToe) : M Z :=
  board <- get_board_copy game ;;
  available_moves <- get_available_moves game ;;
  let moves_made := (9 - Z.of_nat (length available_moves))%Z in
  early <-
    (if (moves_made =? 0)%Z then ret (Some 4%Z)  (* Take center *)
     else if (moves_made =? 2)%Z then
       (* If opponent took center, take corner *)
       c <- list_get board 4 ;;
       if negb (String.eqb c " ") then
         ret (first_available [0; 2; 6; 8]%Z available_moves)
       else if bool_decide (4%Z ∈ available_moves) then ret (Some 4%Z)
       else ret None
     else ret None) ;;
  match early with
  | Some move => ret move
  | None => _get_defensive_move game  (* Use defensive strategy for later moves *)
  end.

Definition new (symbol name : string) : Player :=
  mkPlayer symbol (name_or name ("Pattern AI (" +:+ symbol +:+ ")")) get_move.

End PatternAI.

(** ** More notions of the engine *)

(** No pattern of WIN_PATTERNS is full. *)
Definition no_line (b : list string) : Prop :=
  ∀ q m, q ∈ WIN_PATTERNS → ¬ full_line b q m.

(** The board and the fields of an instance agree: the cells are the three
    cell contents, the move count is the number of marks, "X" has as many
    marks as "O" or one more, and the outcome, the active mark, the winner
    and the winning line are those the board shows. *)
Definition consistent (b : list string) (game : TicTacToe) : Prop :=
  Forall (λ c, c = " " ∨ c = "X" ∨ c = "O") b
  ∧ moves_count game = Z.of_nat (count_of "X" b + count_of "O" b)
  ∧ match game_state game with
    | ONGOING =>
        no_line b ∧ (moves_count game < 9)%Z
        ∧ winner game = None ∧ winning_pattern game = None
        ∧ (current_player game = "X" ∧ count_of "X" b = count_of "O" b
           ∨ current_player game = "O" ∧ count_of "X" b = S (count_of "O" b))
    | X_WINS =>
        winner game = Some "X" ∧ current_player game = "X"
        ∧ count_of "X" b = S (count_of "O" b)
        ∧ (∀ q m, q ∈ WIN_PATTERNS → full_line b q m → m = "X")
        ∧ ∃ pre p post,
            WIN_PATTERNS = pre ++ p :: post ∧ winning_pattern game = Some p
            ∧ full_line b p "X" ∧ ∀ q m, q ∈ pre → ¬ full_line b q m
    | O_WINS =>
        winner game = Some "O" ∧ current_player game = "O"
        ∧ count_of "X" b = count_of "O" b
        ∧ (∀ q m, q ∈ WIN_PATTERNS → full_line b q m → m = "O")
        ∧ ∃ pre p post,
            WIN_PATTERNS = pre ++ p :: post ∧ winning_pattern game = Some p
            ∧ full_line b p "O" ∧ ∀ q m, q ∈ pre → ¬ full_line b q m
    | DRAW =>
        no_line b ∧ moves_count game = 9%Z
        ∧ winner game = None ∧ winning_pattern game = None
        ∧ current_player game = "X" ∧ count_of "X" b = S (count_of "O" b)
    end.

(** The entries of a list of ints increase. *)
Fixpoint ascending (l : list Z) : Prop :=
  match l with
  | [] => True
  | x :: rest => Forall (λ y, x < y)%Z rest ∧ ascending rest
  end.

(** ** Notions for HumanPlayer.get_move *)

(** An entry that [HumanPlayer.get_move] does not accept on the board [b]:
    a line that is no number, Ctrl-C, or a number that is no valid move. *)
Definition rejected (b : list string) (game : TicTacToe) (e : input_event) : bool :=
  match e with
  | Number n => negb (Val.is_valid_move b game (n - 1))
  | NotANumber | Interrupt => true
  end.

(** What is written for the entries [skipped]: the prompt and the message,
    for each. *)
Definition answers (name symbol : string) (skipped : list input_event)
  : list output_event :=
  skipped ≫= λ e, [Prompt name symbol;
                    match e with Number _ => InvalidMove | _ => EnterNumber end].

(** ** Notions for whole games *)

(** A player that plays by the rules: asked for a move in a reachable game
    that is ongoing, its [get_move] returns a move that [is_valid_move]
    accepts, and leaves the board list as it is. *)
Definition plays_legally (p : Player) : Prop :=
  ∀ w game, reachable w game → game_state game = ONGOING →
    ∃ m w1,
      get_move p game w = (Ok m, w1)
      ∧ heap w1 !! board game = heap w !! board game
      ∧ is_valid_move game m w1 = (Ok true, w1).

(** A state from which the search [self] cannot reach the outcome [lost],
    whatever valid moves the other mark makes: [checked], for any outcome. *)
Definition safe (lost : GameState) (self : SmartAI.t) (w : world) (game : TicTacToe)
  : Prop :=
  ∃ (b : list string) turns,
    heap w !! board game = Some b ∧ length b = 9%nat
    ∧ Fast.never_reaches lost turns self b game = true.

(** The search at full strength, playing [mark] against [other]. *)
Definition full_strength (self : SmartAI.t) (mark other : string) : Prop :=
  SmartAI.symbol self = mark ∧ SmartAI.opponent_symbol self = other
  ∧ SmartAI.difficulty self ≠ "easy".

(** A reachable state that is safe for each of the searches that take part
    in the game, given with the outcome that it must not meet. *)
Definition guarded (searches : list (SmartAI.t * GameState)) (w : world)
    (game : TicTacToe) : Prop :=
  reachable w game ∧ ∀ s lost, (s, lost) ∈ searches → safe lost s w game.

(** A player keeps the property [Inv] of world and game when it moves as
    [mark]: asked in an ongoing game with [Inv] where [mark] is to move, it
    returns a move and leaves the board list as it is, [make_move] accepts
    the move, and [Inv] holds afterwards. *)
Definition keeps (Inv : world → TicTacToe → Prop) (p : Player) (mark : string)
  : Prop :=
  ∀ w game, Inv w game → game_state game = ONGOING → current_player game = mark →
    ∃ m w1 game' w2,
      get_move p game w = (Ok m, w1)
      ∧ heap w1 !! board game = heap w !! board game
      ∧ make_move game m w1 = (Ok (true, game'), w2)
      ∧ Inv w2 game'.

(** A player that keeps [Inv] as [keeps] says, or else finds the console at
    its end: its [get_move] raises the EOFError of [input]. *)
Definition keeps_or_ends (Inv : world → TicTacToe → Prop) (p : Player)
    (mark : string) : Prop :=
  ∀ w game, Inv w game → game_state game = ONGOING → current_player game = mark →
    (∃ m w1 game' w2,
       get_move p game w = (Ok m, w1)
       ∧ heap w1 !! board game = heap w !! board game
       ∧ make_move game m w1 = (Ok (true, game'), w2)
       ∧ Inv w2 game')
    ∨ (∃ w1, get_move p game w = (Raise EOFError, w1) ∧ stdin w1 = []).

(** ** Notions for the statistics and for analyze_board *)

(** The games recorded on an instance since it was made or last reset, the
    latest first, each with its outcome and its number of moves; reading
    the statistics in between does not change them. *)
Inductive recorded : list (GameState * Z) → GameStats.t → Prop :=
| recorded_init : recorded [] GameStats.init
| recorded_reset self : recorded [] (GameStats.reset self)
| recorded_game games self st moves :
    recorded games self →
    recorded ((st, moves) :: games) (GameStats.record_game self st moves)
| recorded_read games self r self' :
    recorded games self → GameStats.get_stats self = Ok (r, self') →
    recorded games self'.

(** How many of the games have the outcome [st], and the moves of all. *)
Definition count_outcome (st : GameState) (games : list (GameState * Z)) : Z :=
  Z.of_nat (length (filter (λ g, g.1 = st) games)).
Definition moves_of (games : list (GameState * Z)) : Z :=
  foldr (λ g acc, g.2 + acc)%Z 0%Z games.

(** 1 for a cell that holds a mark, 0 for an empty one, and the sum over
    the cells of the board [b] at the indices [cells]. *)
Definition weight (c : string) : Z := if String.eqb c " " then 0%Z else 1%Z.

(** ** Notions for the custom players *)

(** [symbol] has a full pattern on the board [b] with [symbol] at [move]:
    what [_check_winner] returns in the loops of [DefensiveAI.get_move]. *)
Definition wins_with (b : list string) (symbol : string) (move : Z) : bool :=
  existsb (λ pattern,
      forallb (λ pos, String.eqb (Val.cell (Val.place b move symbol) pos) symbol)
        pattern)
    WIN_PATTERNS.

(** The mark [symbol] put at [move] on the board [b] fills a pattern. *)
Definition completes (b : list string) (symbol : string) (move : Z) : Prop :=
  ∃ q, q ∈ WIN_PATTERNS ∧ full_line (Val.place b move symbol) q symbol.

(** ** More states to run the program on *)

(** The game after the moves 0, 4, 1, 7, 2: "X" has the top row. *)
Definition board_won : list string :=
  ["X"; "X"; "X"; " "; "O"; " "; " "; "O"; " "].
Definition world_won : world := World {[1%positive := board_won]} [] [] (λ _, 0%Z).
Definition game_won : TicTacToe :=
  mkTicTacToe 1%positive "X" X_WINS 5 (Some "X") (Some [0; 1; 2]%Z).

(** The game after the moves 1, 4, 2, 5, 3, 7, 6, 8, 0: with the ninth move
    "X" has filled the top row and the left column at once. *)
Definition board_double : list string :=
  ["X"; "X"; "X"; "X"; "O"; "O"; "X"; "O"; "O"].
Definition world_double : world :=
  World {[1%positive := board_double]} [] [] (λ _, 0%Z).
Definition game_double : TicTacToe :=
  mkTicTacToe 1%positive "X" X_WINS 9 (Some "X") (Some [0; 1; 2]%Z).

(** The game after the moves 0, 4, 1: X X _ / _ O _ / _ _ _, "O" to move. *)
Definition board_mid : list string :=
  ["X"; "X"; " "; " "; "O"; " "; " "; " "; " "].
Definition world_mid : world := World {[1%positive := board_mid]} [] [] (λ _, 0%Z).
Definition game_mid : TicTacToe := mkTicTacToe 1%positive "O" ONGOING 3 None None.

(** A world with one board on which "X" can win at once, at 8, or later:
    X O _ / O X _ / _ _ _, X to move. *)
Definition board_delay : list string :=
  ["X"; "O"; " "; "O"; "X"; " "; " "; " "; " "].
Definition world_delay : world :=
  World {[1%positive := board_delay]} [] [] (λ _, 0%Z).

(** ** Notions for interrupts away from a prompt *)

(** A player that keeps [Inv], or finds the console at its end, as
    [keeps_or_ends] says, or else (when [stops] holds) is interrupted:
    KeyboardInterrupt comes out of its [get_move], with the board list as
    it was. *)
Definition keeps_or_stops (stops : Prop) (Inv : world → TicTacToe → Prop)
    (p : Player) (mark : string) : Prop :=
  ∀ w game, Inv w game → game_state game = ONGOING → current_player game = mark →
    (∃ m w1 game' w2,
       get_move p game w = (Ok m, w1)
       ∧ heap w1 !! board game = heap w !! board game
       ∧ make_move game m w1 = (Ok (true, game'), w2)
       ∧ Inv w2 game')
    ∨ (∃ w1, get_move p game w = (Raise EOFError, w1) ∧ stdin w1 = [])
    ∨ (stops
       ∧ ∃ w1, get_move p game w = (Raise KeyboardInterrupt, w1)
               ∧ heap w1 !! board game = heap w !! board game).

(** The search [self] as a player on whose search Ctrl-C may fall.  The
    console events are in the order of time; the search reads none of them,
    so Ctrl-C as the next event arrives either while the search runs, and
    KeyboardInterrupt comes out of [get_move] with the board of the game
    untouched (the search works on a copy), or later, at the next prompt.
    [p] is any player that at each call does one or the other. *)
Definition search_with_interrupts (self : SmartAI.t) (p : Player) : Prop :=
  name p = SmartAI.name self
  ∧ ∀ game w,
      get_move p game w = SmartAI.get_move self game w
      ∨ ∃ rest w',
          stdin w = Interrupt :: rest
          ∧ get_move p game w = (Raise KeyboardInterrupt, w')
          ∧ stdin w' = rest ∧ stdout w' = stdout w
          ∧ heap w' !! board game = heap w !! board game.

(** The player on which every Ctrl-C falls as soon as it can: when the
    next console event is Ctrl-C, [get_move] takes it and raises. *)
Definition interrupted (p : Player) : Player :=
  mkPlayer (symbol p) (name p)
    (λ game w, match stdin w with
               | Interrupt :: rest => (Raise KeyboardInterrupt, set_stdin rest w)
               | _ => get_move p game w
               end).

(** The console of a session in which "X" enters 1 and Ctrl-C follows:
    the world before [TicTacToe()], and after. *)
Definition world_console_stop : world :=
  World ∅ [Number 1; Interrupt; Number 5] [] (λ _, 0%Z).
Definition world_stop : world :=
  World {[1%positive := replicate 9 " "]} [Number 1; Interrupt; Number 5] []
    (λ _, 0%Z).

(** ** Notions for moves that are not accepted *)

(** A player none of whose answers is a valid move in the game [game] on
    the board [b]: whenever the board list holds [b], its [get_move] returns a
    position that is outside 0..8 or names a cell that is taken, leaves the
    board list as it is, and adds [out] to what is written. *)
Definition always_rejected (p : Player) (game : TicTacToe) (b : list string) : Prop :=
  ∀ w, heap w !! board game = Some b →
    ∃ m w' out,
      get_move p game w = (Ok m, w')
      ∧ ¬ ((0 ≤ m ≤ 8)%Z ∧ b !! Z.to_nat m = Some " ")
      ∧ heap w' !! board game = Some b
      ∧ stdout w' = stdout w ++ out.

(** What one turn of [play_game] writes when the move is not accepted: the
    board, the turn, what the player writes, and the message. *)
Definition rejected_turn (b : list string) (name mark : string)
    (out : list output_event) : list output_event :=
  [BoardDisplayed b; TurnOf name mark] ++ out ++ [InvalidMove].

(** A player that answers with positions beyond the board, a new one each
    time something has been written: 9 plus the number of events written. *)
Definition off_board (symbol name : string) : Player :=
  mkPlayer symbol name (λ _ w, (Ok (9 + Z.of_nat (length (stdout w)))%Z, w)).

(** A player that answers every request with the same position. *)
Definition stubborn (symbol name : string) (position : Z) : Player :=
  mkPlayer symbol name (λ _, ret position).

(** * Properties *)

(** ** Running statements *)

Lemma bind_run {A B} (m : M A) (k : A → M B) w a w' :
  m w = (Ok a, w') → bind m k w = k a w'.
Proof. intros H. unfold bind. by rewrite H. Qed.

Lemma bind_raise {A B} (m : M A) (k : A → M B) w e w' :
  m w = (Raise e, w') → bind m k w = (Raise e, w').
Proof. intros H. unfold bind. by rewrite H. Qed.

Lemma set_heap_id w : set_heap (heap w) w = w.
Proof. by destruct w. Qed.

Lemma index_in_range {A} (xs : list A) (i : Z) :
  (0 ≤ i < Z.of_nat (length xs))%Z → ∃ x, xs !! Z.to_nat i = Some x ∧ index xs i = Ok x.
Proof.
  intros Hi. destruct (lookup_lt_is_Some_2 xs (Z.to_nat i)) as [x Hx]; [lia|].
  exists x. split; [done|]. unfold index.
  destruct (Z.ltb_spec i 0); [lia|].
  destruct (Z.ltb_spec i 0); [lia|]. by rewrite Hx.
Qed.

Lemma index_cell (b : list string) (i : Z) :
  (0 ≤ i < Z.of_nat (length b))%Z → index b i = Ok (Val.cell b i).
Proof.
  intros Hi. destruct (index_in_range b i Hi) as (x & Hx & ->).
  unfold Val.cell. by rewrite Hx.
Qed.

Lemma list_get_run w l b i :
  heap w !! l = Some b → (0 ≤ i < Z.of_nat (length b))%Z →
  list_get l i w = (Ok (Val.cell b i), w).
Proof. intros Hl Hi. unfold list_get. by rewrite Hl, index_cell. Qed.

Lemma list_set_run w l b i v :
  heap w !! l = Some b → (0 ≤ i < Z.of_nat (length b))%Z →
  list_set l i v w = (Ok (), set_heap (<[l := Val.place b i v]> (heap w)) w).
Proof.
  intros Hl Hi. unfold list_set. rewrite Hl.
  destruct (Z.ltb_spec i 0); [lia|].
  destruct (Z.ltb_spec i 0); [lia|].
  destruct (Z.leb_spec (Z.of_nat (length b)) i); [lia|]. done.
Qed.

Lemma list_read_run w l b :
  heap w !! l = Some b → list_read l w = (Ok b, w).
Proof. intros Hl. unfold list_read. by rewrite Hl. Qed.

(** ** The methods compute their value forms *)

Lemma WIN_PATTERNS_ok : Forall pattern_ok WIN_PATTERNS.
Proof.
  unfold WIN_PATTERNS.
  repeat (apply Forall_cons; split;
          [eexists _, _, _; split; [reflexivity|lia] |]).
  apply Forall_nil_2.
Qed.

Lemma seq_item_run {A} w (xs : list A) i x :
  index xs i = Ok x → seq_item xs i w = (Ok x, w).
Proof. intros H. unfold seq_item. by rewrite H. Qed.

(** One statement of a sequence runs as the lemma [lem] says. *)
Ltac run lem :=
  erewrite bind_run by (apply lem; first [done | lia | eassumption]);
  cbv beta.

Lemma range_9_ok : Forall (λ i, 0 ≤ i < 9)%Z (range 9).
Proof.
  unfold range. cbn. repeat (apply Forall_cons; split; [lia|]). apply Forall_nil_2.
Qed.

Section on_board.
Variable w : world.
Variable l : loc.
Variable b : list string.
Hypothesis Hl : heap w !! l = Some b.
Hypothesis Hlen : length b = 9%nat.

Lemma get_cell i :
  (0 ≤ i < 9)%Z → list_get l i w = (Ok (Val.cell b i), w).
Proof using Hl Hlen. intros Hi. apply list_get_run; [done | lia]. Qed.

Lemma three_in_line_run pattern :
  pattern_ok pattern →
  three_in_line l pattern w = (Ok (Val.line b pattern), w).
Proof using Hl Hlen.
  intros (p0 & p1 & p2 & -> & H0 & H1 & H2).
  unfold three_in_line. cbn [Val.line].
  run (seq_item_run w [p0; p1; p2] 0%Z p0). run (get_cell p0).
  run (seq_item_run w [p0; p1; p2] 1%Z p1). run (get_cell p1).
  destruct (String.eqb (Val.cell b p0) (Val.cell b p1)); cbn [negb andb]; [|done].
  run (seq_item_run w [p0; p1; p2] 2%Z p2). run (get_cell p2).
  by destruct (String.eqb (Val.cell b p1) (Val.cell b p2)).
Qed.

Lemma update_game_state_from_run self patterns :
  board self = l → Forall pattern_ok patterns →
  _update_game_state_from self patterns w
  = (Ok (Val.update_game_state_from b self patterns), w).
Proof using Hl Hlen.
  intros Hb Hok. induction Hok as [|pattern rest Hp _ IH]; cbn.
  - by destruct (moves_count self =? 9)%Z.
  - rewrite Hb. run (three_in_line_run pattern).
    destruct (Val.line b pattern); [|by apply IH].
    destruct Hp as (p0 & p1 & p2 & -> & H0 & H1 & H2).
    run (seq_item_run w [p0; p1; p2] 0%Z p0). by run (get_cell p0).
Qed.

Lemma is_valid_move_run self position :
  board self = l →
  is_valid_move self position w = (Ok (Val.is_valid_move b self position), w).
Proof using Hl Hlen.
  intros Hb. unfold is_valid_move, Val.is_valid_move.
  destruct (Z.leb_spec 0 position), (Z.leb_spec position 8); cbn; try done.
  rewrite Hb. run (get_cell position).
  by destruct (String.eqb (Val.cell b position) " ").
Qed.

Lemma get_available_moves_from_run self cells acc :
  board self = l → Forall (λ i, 0 ≤ i < 9)%Z cells →
  for_each cells
    (λ i acc, c <- list_get (board self) i ;;
              ret (if String.eqb c " " then acc ++ [i] else acc)) acc w
  = (Ok (acc ++ filter (λ i, Val.cell b i = " ") cells), w).
Proof using Hl Hlen.
  intros Hb Hok. revert acc. induction Hok as [|i rest Hi _ IH]; intros acc; cbn.
  - by rewrite app_nil_r.
  - rewrite Hb. erewrite bind_run by (by run (get_cell i)).
    rewrite <- Hb, IH.
    destruct (String.eqb_spec (Val.cell b i) " ") as [Heq|Hne].
    + rewrite decide_True by done. by rewrite <- app_assoc.
    + by rewrite decide_False by done.
Qed.

Lemma get_available_moves_run self :
  board self = l →
  get_available_moves self w = (Ok (Val.get_available_moves b), w).
Proof using Hl Hlen.
  intros Hb. unfold get_available_moves.
  by rewrite get_available_moves_from_run by auto using range_9_ok.
Qed.

End on_board.

Lemma cell_lookup (b : list string) (i : Z) (c : string) :
  (0 ≤ i < Z.of_nat (length b))%Z → Val.cell b i = c ↔ b !! Z.to_nat i = Some c.
Proof.
  intros Hi. destruct (index_in_range b i Hi) as (x & Hx & _).
  unfold Val.cell. rewrite Hx. cbn. split; congruence.
Qed.

Lemma is_valid_move_true (b : list string) self position :
  length b = 9%nat →
  Val.is_valid_move b self position = true
  ↔ (0 ≤ position ≤ 8)%Z ∧ b !! Z.to_nat position = Some " "
    ∧ game_state self = ONGOING.
Proof.
  intros Hlen. unfold Val.is_valid_move.
  rewrite !andb_true_iff, !Z.leb_le, String.eqb_eq, bool_decide_eq_true.
  split.
  - intros [[[H0 H8] Hc] Hs]. rewrite <- cell_lookup by lia. done.
  - intros [[H0 H8] [Hc Hs]]. rewrite cell_lookup by lia. done.
Qed.

Lemma place_length b position mark : length (Val.place b position mark) = length b.
Proof. apply length_insert. Qed.

Lemma make_move_run w self position b :
  heap w !! board self = Some b → length b = 9%nat →
  make_move self position w
  = (Ok ((Val.make_move b self position).1.1, (Val.make_move b self position).1.2),
     set_heap (<[board self := (Val.make_move b self position).2]> (heap w)) w).
Proof.
  intros Hl Hlen. unfold make_move, Val.make_move.
  run (is_valid_move_run w (board self) b Hl Hlen self position).
  destruct (Val.is_valid_move b self position) eqn:Hv; cbn [negb fst snd].
  - apply is_valid_move_true in Hv as ([H0 H8] & _ & _); [|done].
    run (list_set_run w (board self) b position (current_player self) Hl).
    set (b' := Val.place b position (current_player self)).
    set (w' := set_heap _ w). unfold _update_game_state.
    assert (heap w' !! board self = Some b') as Hl' by apply lookup_insert_eq.
    assert (length b' = 9%nat) as Hlen' by (unfold b'; by rewrite place_length).
    run (update_game_state_from_run w' (board self) b' Hl' Hlen'
           (Val.count_move self) WIN_PATTERNS eq_refl WIN_PATTERNS_ok).
    done.
  - unfold ret. by rewrite insert_id, set_heap_id.
Qed.

(** ** C1 and C2: make_move and the outcome after a move *)

Lemma line_true (b : list string) pattern :
  length b = 9%nat → pattern_ok pattern →
  Val.line b pattern = true ↔ ∃ m, full_line b pattern m.
Proof.
  intros Hlen (p0 & p1 & p2 & -> & H0 & H1 & H2). cbn [Val.line].
  rewrite !andb_true_iff, negb_true_iff, !String.eqb_eq, String.eqb_neq.
  unfold full_line. split.
  - intros [[H01 H12] Hne]. exists (Val.cell b p2). split; [done|].
    intros i Hi.
    apply elem_of_cons in Hi as [->|Hi]; [apply cell_lookup; [lia|congruence]|].
    apply elem_of_cons in Hi as [->|Hi]; [apply cell_lookup; [lia|congruence]|].
    apply list_elem_of_singleton in Hi as ->. by apply cell_lookup; [lia|].
  - intros (m & Hne & Hall).
    assert (Val.cell b p0 = m) as E0
      by (apply cell_lookup; [lia|]; apply Hall; rewrite !elem_of_cons; auto).
    assert (Val.cell b p1 = m) as E1
      by (apply cell_lookup; [lia|]; apply Hall; rewrite !elem_of_cons; auto).
    assert (Val.cell b p2 = m) as E2
      by (apply cell_lookup; [lia|]; apply Hall; rewrite !elem_of_cons; auto).
    rewrite E0, E1, E2. done.
Qed.

Lemma full_line_head (b : list string) pattern m :
  length b = 9%nat → pattern_ok pattern → full_line b pattern m →
  Val.head_cell b pattern = m.
Proof.
  intros Hlen (p0 & p1 & p2 & -> & H0 & H1 & H2) [_ Hall]. cbn.
  apply cell_lookup; [lia|]. apply Hall. rewrite !elem_of_cons. auto.
Qed.

(** The scan of [_update_game_state] stops at the first full line. *)
Lemma update_game_state_first (b : list string) self pre pattern post m :
  length b = 9%nat → Forall pattern_ok (pre ++ pattern :: post) →
  (∀ q m', q ∈ pre → ¬ full_line b q m') → full_line b pattern m →
  Val.update_game_state_from b self (pre ++ pattern :: post)
  = mkTicTacToe (board self) (current_player self)
      (if String.eqb m "X" then X_WINS else O_WINS)
      (moves_count self) (Some m) (Some pattern).
Proof.
  intros Hlen Hok Hpre Hfull. induction pre as [|q pre IH]; cbn.
  - apply Forall_cons in Hok as [Hp _].
    assert (Val.line b pattern = true) as -> by (apply line_true; [done..|by exists m]).
    by rewrite (full_line_head b pattern m).
  - apply Forall_cons in Hok as [Hq Hok].
    destruct (Val.line b q) eqn:Hline.
    + apply line_true in Hline as [m' Hm']; [|done..].
      destruct (Hpre q m'); [set_solver | done].
    + apply IH; [done|]. intros q' m' Hq'. apply Hpre. set_solver.
Qed.

Lemma update_game_state_none (b : list string) self patterns :
  length b = 9%nat → Forall pattern_ok patterns →
  (∀ q m', q ∈ patterns → ¬ full_line b q m') →
  Val.update_game_state_from b self patterns
  = if (moves_count self =? 9)%Z
    then mkTicTacToe (board self) (current_player self) DRAW
           (moves_count self) (winner self) (winning_pattern self)
    else self.
Proof.
  intros Hlen Hok Hnone. induction Hok as [|q rest Hq _ IH]; cbn; [done|].
  destruct (Val.line b q) eqn:Hline.
  - apply line_true in Hline as [m' Hm']; [|done..].
    destruct (Hnone q m'); [set_solver | done].
  - apply IH. intros q' m' Hq'. apply Hnone. set_solver.
Qed.

Lemma switch_player_fields u :
  board (Val.switch_player u) = board u
  ∧ game_state (Val.switch_player u) = game_state u
  ∧ moves_count (Val.switch_player u) = moves_count u
  ∧ winner (Val.switch_player u) = winner u
  ∧ winning_pattern (Val.switch_player u) = winning_pattern u.
Proof. unfold Val.switch_player. by destruct (bool_decide _). Qed.

Lemma update_game_state_board (b : list string) self patterns :
  board (Val.update_game_state_from b self patterns) = board self
  ∧ moves_count (Val.update_game_state_from b self patterns) = moves_count self
  ∧ current_player (Val.update_game_state_from b self patterns) = current_player self.
Proof.
  induction patterns as [|p ps IH]; cbn.
  - by destruct (moves_count self =? 9)%Z.
  - by destruct (Val.line b p).
Qed.

Lemma make_move_board (b : list string) self position :
  board (Val.make_move b self position).1.2 = board self
  ∧ length (Val.make_move b self position).2 = length b.
Proof.
  unfold Val.make_move. destruct (Val.is_valid_move b self position); [|done].
  unfold Val.moved. cbn [fst snd]. split; [|apply place_length].
  rewrite (proj1 (switch_player_fields _)).
  by rewrite (proj1 (update_game_state_board _ _ _)).
Qed.

Lemma make_move_valid w game m (b : list string) :
  heap w !! board game = Some b → length b = 9%nat →
  Val.is_valid_move b game m = true →
  make_move game m w
  = (Ok (true, (Val.moved b game m).1),
     set_heap (<[board game := (Val.moved b game m).2]> (heap w)) w)
  ∧ moves_count (Val.moved b game m).1 = (moves_count game + 1)%Z
  ∧ board (Val.moved b game m).1 = board game.
Proof.
  intros Hl Hlen Hv. split; [|split].
  - rewrite (make_move_run w game m b Hl Hlen). unfold Val.make_move. by rewrite Hv.
  - unfold Val.moved. cbn [fst].
    destruct (switch_player_fields
                (Val.update_game_state_from (Val.place b m (current_player game))
                   (Val.count_move game) WIN_PATTERNS)) as (_ & _ & -> & _).
    by destruct (update_game_state_board (Val.place b m (current_player game))
                   (Val.count_move game) WIN_PATTERNS) as (_ & -> & _).
  - unfold Val.moved. cbn [fst].
    destruct (switch_player_fields
                (Val.update_game_state_from (Val.place b m (current_player game))
                   (Val.count_move game) WIN_PATTERNS)) as (-> & _).
    by destruct (update_game_state_board (Val.place b m (current_player game))
                   (Val.count_move game) WIN_PATTERNS) as (-> & _).
Qed.

Lemma make_moves_run positions : ∀ w game (b : list string),
  heap w !! board game = Some b → length b = 9%nat →
  make_moves game positions w
  = (Ok (Val.make_moves b game positions).1,
     set_heap (<[board game := (Val.make_moves b game positions).2]> (heap w)) w).
Proof.
  unfold make_moves. induction positions as [|p rest IH]; intros w game b Hl Hlen; cbn.
  - unfold ret. by rewrite insert_id, set_heap_id.
  - erewrite bind_run by (by run (make_move_run w game p b)). cbn [snd].
    destruct (make_move_board b game p) as [Hb Hlen'].
    destruct (Val.make_move b game p) as [[r game'] b'] eqn:Hmv. cbn [fst snd] in *.
    rewrite (IH _ game' b'); [|by rewrite Hb; apply lookup_insert_eq|congruence].
    rewrite Hb. cbn [heap set_heap]. by rewrite insert_insert_eq.
Qed.

Lemma TicTacToe_init_run w :
  let l := fresh (dom (heap w)) in
  TicTacToe_init w
  = (Ok (mkTicTacToe l "X" ONGOING 0 None None),
     set_heap (<[l := replicate 9 " "]> (heap w)) w).
Proof. done. Qed.

(** C1.  On a board of nine cells, a move that is not legal (position
    outside 0..8, cell taken, or game over) makes [make_move] return [False]
    and leaves the instance and the whole world as they were.  A legal move
    returns [True], writes the active mark into the cell at [position] and
    nothing else in the world, and adds one to the move count; the outcome
    is then the one the new board [b'] shows: if a pattern is full, the win
    of the mark of the first full pattern (X_WINS for "X", O_WINS otherwise),
    with that mark as winner and that pattern as winning line; if none is
    full, DRAW when the new count is 9 and ONGOING otherwise.  The active
    mark changes to the other one exactly when the new outcome is ONGOING. *)
Theorem make_move_spec w self position (b : list string) :
  heap w !! board self = Some b → length b = 9%nat →
  let legal := (0 ≤ position ≤ 8)%Z ∧ b !! Z.to_nat position = Some " "
               ∧ game_state self = ONGOING in
  let b' := <[Z.to_nat position := current_player self]> b in
  let patterns := [[0; 1; 2]; [3; 4; 5]; [6; 7; 8];
                   [0; 3; 6]; [1; 4; 7]; [2; 5; 8];
                   [0; 4; 8]; [2; 4; 6]]%Z in
  (¬ legal → make_move self position w = (Ok (false, self), w))
  ∧ (legal → ∃ self',
       make_move self position w
       = (Ok (true, self'), set_heap (<[board self := b']> (heap w)) w)
       ∧ board self' = board self
       ∧ moves_count self' = (moves_count self + 1)%Z
       ∧ (∀ pre pattern post m,
            patterns = pre ++ pattern :: post →
            (∀ q m', q ∈ pre → ¬ full_line b' q m') →
            full_line b' pattern m →
            game_state self' = (if String.eqb m "X" then X_WINS else O_WINS)
            ∧ winner self' = Some m
            ∧ winning_pattern self' = Some pattern
            ∧ current_player self' = current_player self)
       ∧ ((∀ q m', q ∈ patterns → ¬ full_line b' q m') →
          winner self' = winner self
          ∧ winning_pattern self' = winning_pattern self
          ∧ if (moves_count self + 1 =? 9)%Z
            then game_state self' = DRAW
                 ∧ current_player self' = current_player self
            else game_state self' = ONGOING
                 ∧ current_player self'
                   = if String.eqb (current_player self) "X" then "O" else "X")).
Proof.
  intros Hl Hlen legal b' patterns.
  assert (patterns = WIN_PATTERNS) as Hpatterns by reflexivity.
  clearbody patterns. subst patterns.
  pose proof (make_move_run w self position b Hl Hlen) as Hrun.
  pose proof (is_valid_move_true b self position Hlen) as Hv.
  unfold Val.make_move in Hrun. split.
  - intros Hno. destruct (Val.is_valid_move b self position).
    + destruct Hno. by apply Hv.
    + cbn in Hrun. by rewrite Hrun, insert_id, set_heap_id.
  - intros Hyes. pose proof Hyes as (_ & _ & Hongoing).
    apply Hv in Hyes. rewrite Hyes in Hrun. cbn [fst snd] in Hrun.
    unfold Val.moved in Hrun. cbn [fst snd] in Hrun.
    change (Val.place b position (current_player self)) with b' in Hrun.
    assert (length b' = 9%nat) as Hlen' by (unfold b'; by rewrite length_insert).
    set (u := Val.update_game_state_from b' (Val.count_move self) WIN_PATTERNS) in *.
    destruct (switch_player_fields u) as (Hb & Hs & Hm & Hw & Hp).
    destruct (update_game_state_board b' (Val.count_move self) WIN_PATTERNS)
      as (Hub & Hum & Huc).
    fold u in Hub, Hum, Huc.
    exists (Val.switch_player u). split; [done|].
    rewrite Hb, Hs, Hm, Hw, Hp.
    split; [done|]. split; [done|]. split.
    + intros pre pattern post m Hsplit Hpre Hfull.
      assert (u = mkTicTacToe (board self) (current_player self)
                    (if String.eqb m "X" then X_WINS else O_WINS)
                    (moves_count self + 1) (Some m) (Some pattern)) as Hu.
      { unfold u. rewrite Hsplit.
        apply (update_game_state_first b' (Val.count_move self) pre pattern post m);
          [done | rewrite <- Hsplit; apply WIN_PATTERNS_ok | done | done]. }
      rewrite Hu. unfold Val.switch_player. cbn.
      by destruct (String.eqb m "X").
    + intros Hnone.
      assert (u = if (moves_count self + 1 =? 9)%Z
                  then mkTicTacToe (board self) (current_player self) DRAW
                         (moves_count self + 1) (winner self) (winning_pattern self)
                  else Val.count_move self) as Hu.
      { unfold u.
        by rewrite (update_game_state_none b' _ WIN_PATTERNS Hlen' WIN_PATTERNS_ok
                      Hnone). }
      rewrite Hu. unfold Val.switch_player.
      destruct (moves_count self + 1 =? 9)%Z; cbn; [done|].
      rewrite Hongoing. by rewrite bool_decide_eq_true_2 by done.
Qed.

Lemma make_move_spec_witness :
  heap world3 !! board game3 = Some board3
  ∧ length board3 = 9%nat
  ∧ let self := game3 in
    let w := world3 in
    let b := board3 in
    let position := 2%Z in
    let legal := (0 ≤ position ≤ 8)%Z ∧ b !! Z.to_nat position = Some " "
                 ∧ game_state self = ONGOING in
    let b' := <[Z.to_nat position := current_player self]> b in
    let patterns := [[0; 1; 2]; [3; 4; 5]; [6; 7; 8];
                     [0; 3; 6]; [1; 4; 7]; [2; 5; 8];
                     [0; 4; 8]; [2; 4; 6]]%Z in
    (¬ legal → make_move self position w = (Ok (false, self), w))
    ∧ (legal → ∃ self',
         make_move self position w
         = (Ok (true, self'), set_heap (<[board self := b']> (heap w)) w)
         ∧ board self' = board self
         ∧ moves_count self' = (moves_count self + 1)%Z
         ∧ (∀ pre pattern post m,
              patterns = pre ++ pattern :: post →
              (∀ q m', q ∈ pre → ¬ full_line b' q m') →
              full_line b' pattern m →
              game_state self' = (if String.eqb m "X" then X_WINS else O_WINS)
              ∧ winner self' = Some m
              ∧ winning_pattern self' = Some pattern
              ∧ current_player self' = current_player self)
         ∧ ((∀ q m', q ∈ patterns → ¬ full_line b' q m') →
            winner self' = winner self
            ∧ winning_pattern self' = winning_pattern self
            ∧ if (moves_count self + 1 =? 9)%Z
              then game_state self' = DRAW
                   ∧ current_player self' = current_player self
              else game_state self' = ONGOING
                   ∧ current_player self'
                     = if String.eqb (current_player self) "X" then "O" else "X")).
Proof.
  split; [reflexivity|]. split; [reflexivity|].
  exact (make_move_spec world3 game3 2%Z board3 eq_refl eq_refl).
Defined.

(** On that board the move at 0 fills the top row and the left column:
    "X" wins, at the ninth move, and the winning line is the row, which
    comes first. *)
Example make_move_two_lines :
  make_move game_two_lines 0 world_two_lines
  = (Ok (true, mkTicTacToe 1%positive "X" X_WINS 9 (Some "X") (Some [0; 1; 2]%Z)),
     set_heap {[1%positive := <[0%nat := "X"]> board_two_lines]} world_two_lines).
Proof. by vm_compute. Qed.

(** C2.  The eight win patterns are the rows (0,1,2), (3,4,5), (6,7,8), the
    columns (0,3,6), (1,4,7), (2,5,8) and the diagonals (0,4,8), (2,4,6), in
    this order.  After an accepted move on a board of nine cells, with [b']
    the board as the move leaves it: if some pattern has its three cells
    equal to one mark, then for the first such pattern in that order the
    winning line is that pattern, the winner is its mark and the outcome is
    that mark's win (X_WINS for "X", O_WINS for "O"); if no pattern is full,
    the outcome is DRAW exactly when the move count is 9 and ONGOING
    otherwise.  And from a fresh game the moves 0, 4, 1, 7, 2 give X_WINS with
    winning line [0; 1; 2]. *)
Theorem outcome_after_move :
  let patterns := [[0; 1; 2]; [3; 4; 5]; [6; 7; 8];
                   [0; 3; 6]; [1; 4; 7]; [2; 5; 8];
                   [0; 4; 8]; [2; 4; 6]]%Z in
  WIN_PATTERNS = patterns
  ∧ (∀ w self position self' w' (b : list string),
       heap w !! board self = Some b → length b = 9%nat →
       make_move self position w = (Ok (true, self'), w') →
       ∃ b' : list string,
         heap w' !! board self' = Some b'
         ∧ b' = <[Z.to_nat position := current_player self]> b
         ∧ (∀ pre pattern post m,
              patterns = pre ++ pattern :: post →
              (∀ q m', q ∈ pre → ¬ full_line b' q m') →
              full_line b' pattern m →
              winning_pattern self' = Some pattern
              ∧ winner self' = Some m
              ∧ (m = "X" → game_state self' = X_WINS)
              ∧ (m = "O" → game_state self' = O_WINS))
         ∧ ((∀ q m', q ∈ patterns → ¬ full_line b' q m') →
            game_state self' = if (moves_count self' =? 9)%Z then DRAW else ONGOING))
  ∧ (∀ w, ∃ game w0 game' w',
       TicTacToe_init w = (Ok game, w0)
       ∧ make_moves game [0; 4; 1; 7; 2]%Z w0 = (Ok game', w')
       ∧ game_state game' = X_WINS
       ∧ winner game' = Some "X"
       ∧ winning_pattern game' = Some [0; 1; 2]%Z
       ∧ moves_count game' = 5%Z
       ∧ heap w' !! board game' = Some ["X"; "X"; "X"; " "; "O"; " "; " "; "O"; " "]).
Proof.
  intros patterns.
  assert (patterns = WIN_PATTERNS) as Hpatterns by reflexivity.
  clearbody patterns. subst patterns.
  split; [done|]. split.
  - intros w self position self' w' b Hl Hlen Hmove.
    rewrite (make_move_run w self position b Hl Hlen) in Hmove.
    unfold Val.make_move in Hmove.
    destruct (Val.is_valid_move b self position) eqn:Hv; [|done].
    cbn [fst snd] in Hmove. unfold Val.moved in Hmove. cbn [fst snd] in Hmove.
    apply is_valid_move_true in Hv as (_ & _ & Hongoing); [|done].
    set (b' := Val.place b position (current_player self)) in *.
    assert (length b' = 9%nat) as Hlen' by (unfold b'; by rewrite place_length).
    set (u := Val.update_game_state_from b' (Val.count_move self) WIN_PATTERNS) in *.
    destruct (switch_player_fields u) as (Hb & Hs & Hm & Hw & Hp).
    injection Hmove as <- <-. exists b'. split.
    { rewrite Hb. unfold u. rewrite (proj1 (update_game_state_board _ _ _)).
      apply lookup_insert_eq. }
    split; [done|].
    rewrite Hs, Hm, Hw, Hp. split.
    + intros pre pattern post m Hsplit Hpre Hfull. unfold u. rewrite Hsplit.
      rewrite (update_game_state_first b' _ pre pattern post m);
        [| done | rewrite <- Hsplit; apply WIN_PATTERNS_ok | done | done].
      cbn. repeat split; by intros ->.
    + intros Hnone. unfold u.
      rewrite (update_game_state_none b' _ WIN_PATTERNS Hlen' WIN_PATTERNS_ok Hnone).
      cbn. destruct (moves_count self + 1 =? 9)%Z eqn:E; cbn; rewrite E; done.
  - intros w. rewrite TicTacToe_init_run. cbv zeta.
    set (l := fresh (dom (heap w))).
    set (w0 := set_heap _ w).
    eexists _, w0, _, _. split; [done|].
    rewrite (make_moves_run _ w0 _ (replicate 9 " "));
      [| apply lookup_insert_eq | done].
    clearbody l.
    set (r := Val.make_moves _ _ _). vm_compute in r. subst r. cbn [fst snd board].
    split; [done|]. cbn [heap set_heap game_state winner winning_pattern
                         moves_count board].
    by rewrite lookup_insert_eq.
Qed.

Lemma outcome_after_move_witness :
  heap world_two_lines !! board game_two_lines = Some board_two_lines
  ∧ length board_two_lines = 9%nat
  ∧ make_move game_two_lines 0 world_two_lines
    = (Ok (true, mkTicTacToe 1%positive "X" X_WINS 9 (Some "X") (Some [0; 1; 2]%Z)),
       set_heap {[1%positive := <[0%nat := "X"]> board_two_lines]} world_two_lines)
  ∧ ∃ b' : list string,
      heap (set_heap {[1%positive := <[0%nat := "X"]> board_two_lines]}
              world_two_lines) !! 1%positive = Some b'
      ∧ b' = <[Z.to_nat 0 := "X"]> board_two_lines
      ∧ (∀ pre pattern post m,
           [[0; 1; 2]; [3; 4; 5]; [6; 7; 8]; [0; 3; 6]; [1; 4; 7]; [2; 5; 8];
            [0; 4; 8]; [2; 4; 6]]%Z = pre ++ pattern :: post →
           (∀ q m', q ∈ pre → ¬ full_line b' q m') →
           full_line b' pattern m →
           Some [0; 1; 2]%Z = Some pattern ∧ Some "X" = Some m
           ∧ (m = "X" → X_WINS = X_WINS) ∧ (m = "O" → X_WINS = O_WINS))
      ∧ ((∀ q m', q ∈ [[0; 1; 2]; [3; 4; 5]; [6; 7; 8]; [0; 3; 6]; [1; 4; 7];
                        [2; 5; 8]; [0; 4; 8]; [2; 4; 6]]%Z → ¬ full_line b' q m') →
         X_WINS = if (9 =? 9)%Z then DRAW else ONGOING).
Proof.
  split; [reflexivity|]. split; [reflexivity|].
  split; [exact make_move_two_lines|].
  exact (proj1 (proj2 outcome_after_move) world_two_lines game_two_lines 0%Z _ _
           board_two_lines eq_refl eq_refl make_move_two_lines).
Defined.

(** ** C4: the move count *)

Lemma count_empty_marked (b : list string) :
  (count_empty b + count_marked b = length b)%nat.
Proof.
  unfold count_empty, count_marked. induction b as [|c b IH]; [done|].
  rewrite !filter_cons. destruct (decide (c = " ")).
  - rewrite decide_False by auto. cbn. lia.
  - rewrite decide_True by auto. cbn. lia.
Qed.

Lemma count_marked_insert (b : list string) (i : nat) (mark : string) :
  b !! i = Some " " → mark ≠ " " →
  count_marked (<[i := mark]> b) = S (count_marked b).
Proof.
  unfold count_marked. revert i. induction b as [|c b IH]; intros i Hi Hm; [done|].
  destruct i as [|i]; cbn in Hi.
  - injection Hi as ->. change (<[0%nat := mark]> (" " :: b)) with (mark :: b).
    rewrite !filter_cons. rewrite decide_True by done.
    by rewrite decide_False by auto.
  - change (<[S i := mark]> (c :: b)) with (c :: <[i := mark]> b).
    rewrite !filter_cons.
    destruct (decide (c ≠ " ")); cbn [length]; by rewrite IH.
Qed.

Lemma update_game_state_ongoing (b : list string) self patterns :
  game_state (Val.update_game_state_from b self patterns) = ONGOING →
  moves_count self ≠ 9%Z.
Proof.
  induction patterns as [|p ps IH]; cbn.
  - destruct (moves_count self =? 9)%Z eqn:E; [done|]. intros _. by apply Z.eqb_neq.
  - destruct (Val.line b p); [|done]. cbn.
    by destruct (String.eqb (Val.head_cell b p) "X").
Qed.

Lemma game_inv_fresh w :
  game_inv (set_heap (<[fresh (dom (heap w)) := replicate 9 " "]> (heap w)) w)
    (mkTicTacToe (fresh (dom (heap w))) "X" ONGOING 0 None None).
Proof.
  exists (replicate 9 " "). cbn. rewrite lookup_insert_eq. repeat split; auto.
Qed.

Lemma game_inv_make_move w game position r game' w' :
  game_inv w game → make_move game position w = (Ok (r, game'), w') →
  game_inv w' game'.
Proof.
  intros (b & Hl & Hlen & Hcount & Hcur & Hnine) Hmove.
  rewrite (make_move_run w game position b Hl Hlen) in Hmove.
  unfold Val.make_move in Hmove.
  destruct (Val.is_valid_move b game position) eqn:Hv; cbn [fst snd] in Hmove.
  - apply is_valid_move_true in Hv as ([H0 H8] & Hcell & Hongoing); [|done].
    unfold Val.moved in Hmove. cbn [fst snd] in Hmove.
    set (b' := Val.place b position (current_player game)) in *.
    destruct (update_game_state_board b' (Val.count_move game) WIN_PATTERNS)
      as (Hub & Hum & Huc).
    change (board (Val.count_move game)) with (board game) in Hub.
    change (moves_count (Val.count_move game)) with (moves_count game + 1)%Z in Hum.
    change (current_player (Val.count_move game)) with (current_player game) in Huc.
    set (u := Val.update_game_state_from b' (Val.count_move game) WIN_PATTERNS) in *.
    destruct (switch_player_fields u) as (Hb & Hs & Hm & _).
    injection Hmove as <- <- <-. exists b'.
    rewrite Hb, Hs, Hm, Hub, Hum. cbn [heap set_heap].
    split; [apply lookup_insert_eq|]. split; [by unfold b'; rewrite place_length|].
    split.
    { unfold b', Val.place. rewrite count_marked_insert; [lia | done |].
      by destruct Hcur as [-> | ->]. }
    split.
    { unfold Val.switch_player. destruct (bool_decide _); cbn [current_player].
      - destruct (String.eqb (current_player u) "X"); auto.
      - by rewrite Huc. }
    intros Hu. by apply update_game_state_ongoing in Hu.
  - injection Hmove as <- <- <-. exists b. cbn [heap set_heap].
    by rewrite lookup_insert_eq.
Qed.

Lemma reachable_inv w game : reachable w game → game_inv w game.
Proof.
  induction 1 as [w game w' Hinit | w game game' w' _ _ Hreset
                  | w game position r game' w' _ IH Hmove | w game w' _ IH Hsame].
  - rewrite TicTacToe_init_run in Hinit. injection Hinit as <- <-.
    apply game_inv_fresh.
  - unfold reset, bind, list_new, ret in Hreset. injection Hreset as <- <-.
    apply game_inv_fresh.
  - by eapply game_inv_make_move.
  - destruct IH as (b & Hl & Hrest). exists b. by rewrite Hsame.
Qed.

(** C4.  In every state of a game instance reached from [TicTacToe()] by
    calls of [make_move] and [reset], the move count is 9 minus the number
    of empty cells of the board, which is the number of cells that hold a
    mark. *)
Theorem moves_count_invariant w game :
  reachable w game →
  ∃ b : list string,
    heap w !! board game = Some b
    ∧ length b = 9%nat
    ∧ moves_count game = (9 - Z.of_nat (count_empty b))%Z
    ∧ moves_count game = Z.of_nat (count_marked b).
Proof.
  intros (b & Hl & Hlen & Hcount & _)%reachable_inv. exists b.
  pose proof (count_empty_marked b). repeat split; [done..|lia|done].
Qed.

Lemma reachable_make_moves positions : ∀ w game game' w',
  reachable w game → make_moves game positions w = (Ok game', w') →
  reachable w' game'.
Proof.
  unfold make_moves.
  induction positions as [|p rest IH]; intros w game game' w' Hreach; cbn.
  - by intros [= <- <-].
  - destruct (reachable_inv w game Hreach) as (b & Hl & Hlen & _).
    pose proof (make_move_run w game p b Hl Hlen) as Hrun.
    erewrite bind_run by (by run Hrun). cbn [snd].
    apply IH. by eapply reachable_make_move.
Qed.

Lemma reachable_world0 : reachable world0 game0.
Proof. apply (reachable_init world_empty). reflexivity. Qed.

Lemma reachable_won : reachable world_won game_won.
Proof.
  apply (reachable_make_moves [0; 4; 1; 7; 2]%Z world0 game0);
    [apply reachable_world0 | by vm_compute].
Qed.

Lemma reachable_again : reachable world_again game_again.
Proof.
  apply (reachable_make_moves [8; 4; 0; 4]%Z
           (World {[1%positive := ["X"; " "; " "; " "; "O"; " "; " "; " "; " "];
                    2%positive := replicate 9 " "]} [] [] (λ _, 0%Z))
           (mkTicTacToe 2%positive "X" ONGOING 0 None None)); [|by vm_compute].
  apply (reachable_reset
           (World {[1%positive := ["X"; " "; " "; " "; "O"; " "; " "; " "; " "]]}
              [] [] (λ _, 0%Z))
           (mkTicTacToe 1%positive "X" ONGOING 2 None None)); [|by vm_compute].
  apply (reachable_make_moves [0; 4]%Z world0 game0);
    [apply reachable_world0 | by vm_compute].
Qed.

Lemma moves_count_invariant_witness :
  reachable world_again game_again
  ∧ ∃ b : list string,
      heap world_again !! board game_again = Some b
      ∧ length b = 9%nat
      ∧ moves_count game_again = (9 - Z.of_nat (count_empty b))%Z
      ∧ moves_count game_again = Z.of_nat (count_marked b).
Proof.
  split; [exact reachable_again|].
  exact (moves_count_invariant world_again game_again reachable_again).
Defined.

(** On the board of [world_again] six cells are empty and three hold a
    mark. *)
Example count_on_board_again :
  heap world_again !! board game_again = Some board_again
  ∧ count_empty board_again = 6%nat ∧ count_marked board_again = 3%nat
  ∧ moves_count game_again = 3%Z.
Proof. by vm_compute. Qed.

(** ** The search computes its value form *)

Lemma evaluate_board_from_run w l (b : list string) self patterns :
  heap w !! l = Some b → length b = 9%nat → Forall pattern_ok patterns →
  SmartAI._evaluate_board_from self l patterns w
  = (Ok (Search.evaluate_from self b patterns), w).
Proof.
  intros Hl Hlen Hok. induction Hok as [|pattern rest Hp _ IH]; cbn; [done|].
  run (three_in_line_run w l b Hl Hlen pattern).
  destruct (Val.line b pattern); [|by apply IH].
  destruct Hp as (p0 & p1 & p2 & -> & H0 & H1 & H2).
  run (seq_item_run w [p0; p1; p2] 0%Z p0). run (get_cell w l b Hl Hlen p0).
  cbn [Val.head_cell].
  by destruct (String.eqb (Val.cell b p0) (SmartAI.symbol self)).
Qed.

Lemma evaluate_board_run w l (b : list string) self :
  heap w !! l = Some b → length b = 9%nat →
  SmartAI._evaluate_board self l w = (Ok (Search.evaluate self b), w).
Proof.
  intros Hl Hlen. apply evaluate_board_from_run; auto using WIN_PATTERNS_ok.
Qed.

(** A cell filled and emptied again leaves the world as it was. *)
Lemma undo_move w l (b : list string) i player :
  heap w !! l = Some b → (0 ≤ i < Z.of_nat (length b))%Z → Val.cell b i = " " →
  set_heap
    (<[l := Val.place (Val.place b i player) i " "]>
       (heap (set_heap (<[l := Val.place b i player]> (heap w)) w)))
    (set_heap (<[l := Val.place b i player]> (heap w)) w)
  = w.
Proof.
  intros Hl Hi Hc. apply cell_lookup in Hc; [|done].
  cbn [heap set_heap]. unfold Val.place.
  rewrite list_insert_insert_eq, (list_insert_id b _ _ Hc), insert_insert_eq.
  rewrite insert_id by done. unfold set_heap. cbn. by destruct w.
Qed.

(** The loop of [_minimax] runs as the scan of the value form, when each
    turn does. *)
Lemma for_each_scan w child is_max (b : list string)
    (body : Z → number * option Z → M (number * option Z)) cells :
  (∀ i best, i ∈ cells → runs_as (body i best) w (Search.step child is_max b i best)) →
  ∀ best, runs_as (for_each cells body best) w (Search.scan child is_max b cells best).
Proof.
  induction cells as [|i rest IH]; intros Hbody best; cbn; [done|].
  pose proof (Hbody i best (list_elem_of_here _ _)) as Hi.
  destruct (Search.step child is_max b i best) as [best'|]; cbn in Hi.
  - assert (∀ best, runs_as (for_each rest body best) w
                      (Search.scan child is_max b rest best)) as IH'.
    { apply IH. intros j bj Hj. apply Hbody. by apply list_elem_of_further. }
    specialize (IH' best').
    destruct (Search.scan child is_max b rest best') as [r|]; cbn in IH' |- *.
    + by rewrite (bind_run _ _ _ _ _ Hi).
    + destruct IH' as [w' Hw']. exists w'. by rewrite (bind_run _ _ _ _ _ Hi).
  - destruct Hi as [w' Hw']. exists w'. by rewrite (bind_raise _ _ _ _ _ Hw').
Qed.

Lemma runs_as_bind {A B} (m : M A) (k : A → M B) w a v :
  m w = (Ok a, w) → runs_as (k a) w v → runs_as (bind m k) w v.
Proof.
  intros Hm Hk. destruct v as [r|]; cbn in Hk |- *.
  - by rewrite (bind_run _ _ _ _ _ Hm).
  - destruct Hk as [w' Hw']. exists w'. by rewrite (bind_run _ _ _ _ _ Hm).
Qed.

Lemma elem_of_range_9 i : i ∈ range 9 → (0 ≤ i < 9)%Z.
Proof. intros Hi. by apply (proj1 (Forall_forall _ _) range_9_ok). Qed.

(** One turn of either loop of [_minimax]: the cell is read; if it is empty
    the player's mark is written, the position searched, and the cell
    emptied again. *)
Lemma minimax_turn w l (b : list string) player i is_max best
    (search : M (number * option Z)) (found : option (number * option Z)) :
  heap w !! l = Some b → length b = 9%nat → (0 ≤ i < 9)%Z →
  (∀ w1, heap w1 !! l = Some (Val.place b i player) → runs_as search w1 found) →
  runs_as
    (c <- list_get l i ;;
     if String.eqb c " " then
       list_set l i player ;;
       r <- search ;;
       let current_score := r.1 in
       list_set l i " " ;;
       if Search.better is_max current_score best.1
       then ret (current_score, Some i)
       else ret best
     else ret best)
    w (Search.step (λ _, fst <$> found) is_max b i best).
Proof.
  intros Hl Hlen Hi Hsearch.
  apply (runs_as_bind _ _ _ _ _ (get_cell w l b Hl Hlen i Hi)).
  unfold Search.step. destruct (String.eqb (Val.cell b i) " ") eqn:Hc; [|done].
  apply String.eqb_eq in Hc.
  set (b1 := Val.place b i player).
  set (w1 := set_heap (<[l := b1]> (heap w)) w).
  assert (heap w1 !! l = Some b1) as Hl1 by apply lookup_insert_eq.
  assert (length b1 = 9%nat) as Hlen1 by (unfold b1; by rewrite place_length).
  specialize (Hsearch w1 Hl1).
  destruct found as [r1|]; cbn in Hsearch |- *.
  - run (list_set_run w l b i player Hl). fold b1 w1.
    run Hsearch.
    run (list_set_run w1 l b1 i " " Hl1).
    unfold w1 at 1 2, b1. rewrite (undo_move w l b i player Hl) by (done || lia).
    by destruct (Search.better is_max r1.1 best.1).
  - destruct Hsearch as [w' Hw']. exists w'.
    run (list_set_run w l b i player Hl). fold b1 w1.
    by rewrite (bind_raise _ _ _ _ _ Hw').
Qed.

Lemma minimax_run fuel : ∀ self w l (b : list string) player is_max,
  heap w !! l = Some b → length b = 9%nat →
  runs_as (SmartAI._minimax fuel self l player is_max) w
    (Search.minimax fuel self b player is_max).
Proof.
  induction fuel as [|fuel IH]; intros self w l b player is_max Hl Hlen.
  - by exists w.
  - cbn [SmartAI._minimax Search.minimax].
    apply (runs_as_bind _ _ _ _ _ (evaluate_board_run w l b self Hl Hlen)).
    apply (runs_as_bind _ _ _ (Search.terminal self b)).
    { unfold Search.terminal.
      destruct (Search.evaluate self b =? 0)%Z; cbn [negb orb]; [|done].
      by run (list_read_run w l b Hl). }
    destruct (Search.terminal self b); [done|].
    destruct is_max; cbn [negb].
    + apply for_each_scan. intros i [best_score best_move] Hi%elem_of_range_9.
      apply (minimax_turn w l b player i true (best_score, best_move)); [done..|].
      intros w1 Hl1. apply IH; [done | by rewrite place_length].
    + apply for_each_scan. intros i [best_score best_move] Hi%elem_of_range_9.
      apply (minimax_turn w l b player i false (best_score, best_move)); [done..|].
      intros w1 Hl1. apply IH; [done | by rewrite place_length].
Qed.

(** ** Enough budget *)

Lemma minimax_S fuel self (b : list string) player is_max :
  Search.minimax (S fuel) self b player is_max
  = if Search.terminal self b then Some (Int (Search.evaluate self b), None)
    else Search.scan (Search.child_score fuel self b player is_max)
           is_max b (range 9) (Search.worst is_max, None).
Proof. done. Qed.

Arguments Search.minimax : simpl never.
Arguments SmartAI._minimax : simpl never.

Lemma count_empty_insert (b : list string) (i : nat) (mark : string) :
  b !! i = Some " " → mark ≠ " " →
  S (count_empty (<[i := mark]> b)) = count_empty b.
Proof.
  intros Hi Hm. pose proof (count_empty_marked b) as H1.
  pose proof (count_empty_marked (<[i := mark]> b)) as H2.
  rewrite length_insert, count_marked_insert in H2 by done. lia.
Qed.

Lemma other_not_empty self player :
  SmartAI.marks_ok self → Search.other self player ≠ " ".
Proof.
  intros [Hs Ho]. unfold Search.other.
  by destruct (String.eqb player (SmartAI.symbol self)).
Qed.

Lemma scan_total child is_max (b : list string) cells :
  (∀ i, i ∈ cells → Val.cell b i = " " → is_Some (child i)) →
  ∀ best, is_Some (Search.scan child is_max b cells best).
Proof.
  induction cells as [|i rest IH]; intros Hchild best; cbn; [done|].
  unfold Search.step. destruct (String.eqb_spec (Val.cell b i) " ") as [Hc|Hc].
  - destruct (Hchild i (list_elem_of_here _ _) Hc) as [s ->].
    apply IH. intros j Hj. apply Hchild. by apply list_elem_of_further.
  - apply IH. intros j Hj. apply Hchild. by apply list_elem_of_further.
Qed.

(** With marks that are not the empty cell, every nested call fills a cell:
    a budget above the number of empty cells is never used up. *)
Lemma minimax_enough_fuel fuel : ∀ self (b : list string) player is_max,
  SmartAI.marks_ok self → player ≠ " " → length b = 9%nat →
  (count_empty b < fuel)%nat →
  is_Some (Search.minimax fuel self b player is_max).
Proof.
  induction fuel as [|fuel IH]; intros self b player is_max Hok Hp Hlen Hfuel; [lia|].
  rewrite minimax_S. destruct (Search.terminal self b); [done|].
  apply scan_total. intros i Hi%elem_of_range_9 Hc. unfold Search.child_score.
  apply cell_lookup in Hc; [|lia].
  destruct (IH self (Val.place b i player) (Search.other self player)
              (negb is_max)) as [r Hr]; [done | by apply other_not_empty | | | ].
  - by rewrite place_length.
  - unfold Val.place. pose proof (count_empty_insert b _ player Hc Hp). lia.
  - rewrite Hr. done.
Qed.

Lemma count_empty_le (b : list string) : (count_empty b ≤ length b)%nat.
Proof. pose proof (count_empty_marked b). lia. Qed.

Lemma minimax_depth_enough self (b : list string) player is_max :
  SmartAI.marks_ok self → player ≠ " " → length b = 9%nat →
  is_Some (Search.minimax SmartAI.depth self b player is_max).
Proof.
  intros Hok Hp Hlen. apply minimax_enough_fuel; [done..|].
  pose proof (count_empty_le b). unfold SmartAI.depth. lia.
Qed.

(** ** get_move *)

Lemma get_board_copy_run w game (b : list string) :
  heap w !! board game = Some b →
  get_board_copy game w
  = (Ok (fresh (dom (heap w))),
     set_heap (<[fresh (dom (heap w)) := b]> (heap w)) w).
Proof.
  intros Hl. unfold get_board_copy. by run (list_read_run w (board game) b Hl).
Qed.

Lemma fresh_lookup (h : gmap loc (list string)) : h !! fresh (dom h) = None.
Proof. apply not_elem_of_dom. apply is_fresh. Qed.

Lemma lookup_copied (h : gmap loc (list string)) (b : list string) l :
  is_Some (h !! l) → <[fresh (dom h) := b]> h !! l = h !! l.
Proof.
  intros [x Hx]. apply lookup_insert_ne. intros <-.
  by rewrite fresh_lookup in Hx.
Qed.

(** The part of [SmartAI.get_move] after the choice of a random move: the
    copy, the search on it, and the fallback. *)
Lemma smart_search_run self game w (b : list string) :
  heap w !! board game = Some b → length b = 9%nat →
  let w1 := set_heap (<[fresh (dom (heap w)) := b]> (heap w)) w in
  let rest :=
    (copy <- get_board_copy game ;;
     r <- SmartAI._minimax SmartAI.depth self copy (SmartAI.symbol self) true ;;
     match r.2 with
     | Some best_move => ret best_move
     | None => available_moves <- get_available_moves game ;;
               seq_item available_moves 0
     end) in
  match Search.minimax SmartAI.depth self b (SmartAI.symbol self) true with
  | Some (_, Some best_move) => rest w = (Ok best_move, w1)
  | Some (_, None) => rest w = (index (Val.get_available_moves b) 0, w1)
  | None => ∃ w', rest w = (Raise OutOfFuel, w')
  end.
Proof.
  intros Hl Hlen w1 rest. unfold rest.
  set (l1 := fresh (dom (heap w))) in *.
  assert (heap w1 !! l1 = Some b) as Hl1 by apply lookup_insert_eq.
  assert (heap w1 !! board game = Some b) as Hlg.
  { unfold w1, l1. cbn [heap set_heap]. by rewrite lookup_copied. }
  pose proof (minimax_run SmartAI.depth self w1 l1 b (SmartAI.symbol self) true
                Hl1 Hlen) as Hrun.
  destruct (Search.minimax SmartAI.depth self b (SmartAI.symbol self) true)
    as [[s [m|]]|]; unfold runs_as in Hrun.
  - run (get_board_copy_run w game b Hl). fold l1 w1. by run Hrun.
  - run (get_board_copy_run w game b Hl). fold l1 w1. run Hrun. cbn [snd].
    by run (get_available_moves_run w1 (board game) b Hlg Hlen game).
  - destruct Hrun as [w' Hw']. exists w'.
    run (get_board_copy_run w game b Hl). fold l1 w1.
    by rewrite (bind_raise _ _ _ _ _ Hw').
Qed.

Lemma bind_assoc {A B C} (m : M A) (k1 : A → M B) (k2 : B → M C) w :
  bind (bind m k1) k2 w = bind m (λ a, bind (k1 a) k2) w.
Proof. unfold bind. by destruct (m w) as [[a|e] w']. Qed.

Lemma random_random_run w :
  ∃ r, random_random w = (Ok r, set_entropy (λ n, entropy w (S n)) w).
Proof. by eexists. Qed.

Lemma index_elem_of {A} (xs : list A) i x : index xs i = Ok x → x ∈ xs.
Proof.
  unfold index. destruct (_ <? 0)%Z; [done|].
  destruct (xs !! _) as [y|] eqn:Hy; [|done].
  intros [= <-]. by eapply list_elem_of_lookup_2.
Qed.

Lemma random_choice_elem_of {A} (xs : list A) w x w' :
  random_choice xs w = (Ok x, w') →
  x ∈ xs ∧ heap w' = heap w ∧ stdin w' = stdin w ∧ stdout w' = stdout w.
Proof.
  destruct xs as [|y ys]; [done|]. unfold random_choice, bind, next_draw, seq_item.
  destruct (index _ _) as [z|] eqn:Hz; [|done].
  intros [= <- <-]. split; [by eapply index_elem_of|done].
Qed.

(** What [SmartAI.get_move] returns and what it leaves behind: the move is
    an available one picked at random or as the fallback, or the move of the
    search; the store is as before, or as before with the copy added. *)
Lemma smart_get_move_cases self game w (b : list string) m w' :
  heap w !! board game = Some b → length b = 9%nat →
  SmartAI.get_move self game w = (Ok m, w') →
  (heap w' = heap w ∨ heap w' = <[fresh (dom (heap w)) := b]> (heap w))
  ∧ stdin w' = stdin w ∧ stdout w' = stdout w
  ∧ (m ∈ Val.get_available_moves b
     ∨ ∃ s, Search.minimax SmartAI.depth self b (SmartAI.symbol self) true
            = Some (s, Some m)).
Proof.
  intros Hl Hlen. unfold SmartAI.get_move.
  assert (∀ w0, heap w0 = heap w → stdin w0 = stdin w → stdout w0 = stdout w →
    (copy <- get_board_copy game ;;
     r <- SmartAI._minimax SmartAI.depth self copy (SmartAI.symbol self) true ;;
     match r.2 with
     | Some best_move => ret best_move
     | None => available_moves <- get_available_moves game ;;
               seq_item available_moves 0
     end) w0 = (Ok m, w') →
    (heap w' = heap w ∨ heap w' = <[fresh (dom (heap w)) := b]> (heap w))
    ∧ stdin w' = stdin w ∧ stdout w' = stdout w
    ∧ (m ∈ Val.get_available_moves b
       ∨ ∃ s, Search.minimax SmartAI.depth self b (SmartAI.symbol self) true
              = Some (s, Some m))) as Hsearch.
  { intros w0 Hh Hi Ho Hrest.
    assert (heap w0 !! board game = Some b) as Hl0 by (by rewrite Hh).
    pose proof (smart_search_run self game w0 b Hl0 Hlen) as Hrun. cbv zeta in Hrun.
    destruct (Search.minimax SmartAI.depth self b (SmartAI.symbol self) true)
      as [[s [best|]]|].
    - rewrite Hrun in Hrest. injection Hrest as <- <-. cbn [heap set_heap stdin stdout].
      rewrite Hh. eauto 10.
    - rewrite Hrun in Hrest. injection Hrest as Hidx <-.
      cbn [heap set_heap stdin stdout]. rewrite Hh.
      apply index_elem_of in Hidx. eauto 10.
    - destruct Hrun as [w'' Hrun]. by rewrite Hrun in Hrest. }
  destruct (String.eqb (SmartAI.difficulty self) "easy").
  - rewrite bind_assoc. destruct (random_random_run w) as [r Hr]. run Hr.
    set (we := set_entropy _ w).
    assert (heap we !! board game = Some b) as Hle by done.
    destruct (r <? _)%float.
    + rewrite bind_assoc.
      run (get_available_moves_run we (board game) b Hle Hlen game).
      rewrite bind_assoc. unfold bind, ret.
      destruct (random_choice (Val.get_available_moves b) we) as [[x|e] wr] eqn:Hc;
        [|done].
      intros [= <- <-]. apply random_choice_elem_of in Hc as (Hx & -> & -> & ->).
      auto.
    + unfold bind at 1. unfold ret at 1. by apply Hsearch.
  - unfold bind at 1. unfold ret at 1. by apply Hsearch.
Qed.

(** ** C7: the search leaves the boards as they were *)

(** C7.  [_minimax] returns with the world as it was at the call, so
    the list it was given holds what it held: every cell filled during the
    exploration has been emptied again.  [get_board_copy] makes a list
    object that did not exist before, with the cells of the board, and
    leaves the board alone.  And [SmartAI.get_move] returns with the board of
    the game instance, and every other list object that existed at the call,
    holding what they held; the console is untouched. *)
Theorem search_leaves_boards_unchanged :
  (∀ fuel self l player is_max w r w' (b : list string),
     heap w !! l = Some b → length b = 9%nat →
     SmartAI._minimax fuel self l player is_max w = (Ok r, w') →
     w' = w)
  ∧ (∀ game w l w' (b : list string),
       heap w !! board game = Some b →
       get_board_copy game w = (Ok l, w') →
       heap w !! l = None ∧ l ≠ board game
       ∧ heap w' !! l = Some b ∧ heap w' !! board game = Some b)
  ∧ (∀ self game w m w' (b : list string),
       heap w !! board game = Some b → length b = 9%nat →
       SmartAI.get_move self game w = (Ok m, w') →
       heap w' !! board game = Some b
       ∧ (∀ l, is_Some (heap w !! l) → heap w' !! l = heap w !! l)
       ∧ stdin w' = stdin w ∧ stdout w' = stdout w).
Proof.
  split; [|split].
  - intros fuel self l player is_max w r w' b Hl Hlen Hrun.
    pose proof (minimax_run fuel self w l b player is_max Hl Hlen) as Hval.
    destruct (Search.minimax fuel self b player is_max) as [r0|];
      unfold runs_as in Hval.
    + rewrite Hval in Hrun. by injection Hrun.
    + destruct Hval as [w'' Hval]. by rewrite Hval in Hrun.
  - intros game w l w' b Hl Hcopy.
    rewrite (get_board_copy_run w game b Hl) in Hcopy. injection Hcopy as <- <-.
    cbn [heap set_heap]. split; [apply fresh_lookup|].
    split; [intros E; pose proof (fresh_lookup (heap w)) as Hf; by rewrite E, Hl in Hf|].
    split; [apply lookup_insert_eq|]. by rewrite lookup_copied.
  - intros self game w m w' b Hl Hlen Hmove.
    destruct (smart_get_move_cases self game w b m w' Hl Hlen Hmove)
      as ([-> | ->] & Hin & Hout & _); (split; [|split; [|done]]).
    + done.
    + done.
    + by rewrite lookup_copied.
    + intros l Hsome. by apply lookup_copied.
Qed.

Lemma search_leaves_boards_unchanged_witness :
  heap world1 !! board game1 = Some board1
  ∧ length board1 = 9%nat
  ∧ SmartAI.get_move (SmartAI.init "X" "" "hard") game1 world1
    = (Ok 8%Z, set_heap (<[2%positive := board1]> (heap world1)) world1)
  ∧ heap (set_heap (<[2%positive := board1]> (heap world1)) world1) !! board game1
    = Some board1
  ∧ (∀ l, is_Some (heap world1 !! l) →
          heap (set_heap (<[2%positive := board1]> (heap world1)) world1) !! l
          = heap world1 !! l)
  ∧ stdin (set_heap (<[2%positive := board1]> (heap world1)) world1) = stdin world1
  ∧ stdout (set_heap (<[2%positive := board1]> (heap world1)) world1) = stdout world1.
Proof.
  assert (SmartAI.get_move (SmartAI.init "X" "" "hard") game1 world1
          = (Ok 8%Z, set_heap (<[2%positive := board1]> (heap world1)) world1))
    as Hmove by (by vm_compute).
  split; [reflexivity|]. split; [reflexivity|]. split; [exact Hmove|].
  exact (proj2 (proj2 search_leaves_boards_unchanged)
           (SmartAI.init "X" "" "hard") game1 world1 8%Z _ board1
           eq_refl eq_refl Hmove).
Defined.

(** ** C6: the automated players return legal moves *)

Lemma scan_move child is_max (b : list string) cells : ∀ best s m,
  Search.scan child is_max b cells best = Some (s, Some m) →
  best.2 = Some m ∨ (m ∈ cells ∧ Val.cell b m = " ").
Proof.
  induction cells as [|i rest IH]; intros best s m; cbn.
  - intros [= ->]. by left.
  - unfold Search.step.
    destruct (String.eqb_spec (Val.cell b i) " ") as [Hc|Hc].
    + destruct (child i) as [cs|]; [|done]. intros Hscan.
      apply IH in Hscan as [Hbest | [Hin Hcell]].
      * destruct (Search.better is_max cs best.1); cbn in Hbest.
        -- injection Hbest as <-. right. split; [apply list_elem_of_here|done].
        -- by left.
      * right. split; [by apply list_elem_of_further|done].
    + intros Hscan. apply IH in Hscan as [Hbest | [Hin Hcell]]; [by left|].
      right. split; [by apply list_elem_of_further|done].
Qed.

Lemma minimax_move fuel self (b : list string) player is_max s m :
  Search.minimax fuel self b player is_max = Some (s, Some m) →
  m ∈ Val.get_available_moves b.
Proof.
  destruct fuel as [|fuel]; [done|]. rewrite minimax_S.
  destruct (Search.terminal self b); [done|].
  intros [Hbest | [Hin Hcell]]%scan_move; [done|].
  by apply list_elem_of_filter.
Qed.

Lemma available_legal (b : list string) game m w :
  heap w !! board game = Some b → length b = 9%nat →
  game_state game = ONGOING → m ∈ Val.get_available_moves b →
  (0 ≤ m ≤ 8)%Z ∧ b !! Z.to_nat m = Some " "
  ∧ is_valid_move game m w = (Ok true, w).
Proof.
  intros Hl Hlen Hongoing [Hcell Hm%elem_of_range_9]%list_elem_of_filter.
  apply cell_lookup in Hcell; [|lia].
  split; [lia|]. split; [done|].
  rewrite (is_valid_move_run w (board game) b Hl Hlen game m eq_refl).
  by rewrite (proj2 (is_valid_move_true b game m Hlen)) by (repeat split; (done || lia)).
Qed.

Lemma available_not_nil (b : list string) :
  length b = 9%nat → " " ∈ b → Val.get_available_moves b ≠ [].
Proof.
  intros Hlen [i Hi]%list_elem_of_lookup_1 Hnil.
  assert (Z.of_nat i ∈ Val.get_available_moves b) as Hin.
  { apply list_elem_of_filter. split.
    - apply cell_lookup; [|by rewrite Nat2Z.id].
      apply lookup_lt_Some in Hi. lia.
    - unfold range. apply list_elem_of_fmap. exists i. split; [done|].
      apply elem_of_seq. apply lookup_lt_Some in Hi. lia. }
  rewrite Hnil in Hin. by apply not_elem_of_nil in Hin.
Qed.

Lemma index_first {A} (xs : list A) : xs ≠ [] → ∃ x, index xs 0 = Ok x.
Proof. destruct xs as [|x xs]; [done|]. by exists x. Qed.

Lemma random_choice_total {A} (xs : list A) w :
  xs ≠ [] → ∃ x w', random_choice xs w = (Ok x, w').
Proof.
  intros Hne. destruct xs as [|y ys]; [done|].
  unfold random_choice, bind, next_draw, seq_item.
  set (r := (entropy w 0 `mod` Z.of_nat (length (y :: ys)))%Z).
  destruct (index_in_range (y :: ys) r) as (x & _ & ->); [|by eexists _, _].
  apply Z.mod_pos_bound. cbn [length]. lia.
Qed.

Lemma random_get_move_total game w (b : list string) :
  heap w !! board game = Some b → length b = 9%nat → " " ∈ b →
  ∃ m w', RandomAI.get_move game w = (Ok m, w').
Proof.
  intros Hl Hlen Hin. unfold RandomAI.get_move.
  run (get_available_moves_run w (board game) b Hl Hlen game).
  apply random_choice_total. by apply available_not_nil.
Qed.

Lemma random_get_move_cases game w (b : list string) m w' :
  heap w !! board game = Some b → length b = 9%nat →
  RandomAI.get_move game w = (Ok m, w') →
  m ∈ Val.get_available_moves b ∧ heap w' = heap w.
Proof.
  intros Hl Hlen. unfold RandomAI.get_move.
  run (get_available_moves_run w (board game) b Hl Hlen game).
  intros (Hm & Hh & _)%random_choice_elem_of. done.
Qed.

Lemma smart_get_move_total self game w (b : list string) :
  heap w !! board game = Some b → length b = 9%nat → " " ∈ b →
  SmartAI.marks_ok self →
  ∃ m w', SmartAI.get_move self game w = (Ok m, w').
Proof.
  intros Hl Hlen Hin Hok. unfold SmartAI.get_move.
  assert (∀ w0, heap w0 = heap w →
    ∃ m w',
      (copy <- get_board_copy game ;;
       r <- SmartAI._minimax SmartAI.depth self copy (SmartAI.symbol self) true ;;
       match r.2 with
       | Some best_move => ret best_move
       | None => available_moves <- get_available_moves game ;;
                 seq_item available_moves 0
       end) w0 = (Ok m, w')) as Hsearch.
  { intros w0 Hh.
    assert (heap w0 !! board game = Some b) as Hl0 by (by rewrite Hh).
    pose proof (smart_search_run self game w0 b Hl0 Hlen) as Hrun. cbv zeta in Hrun.
    destruct (minimax_depth_enough self b (SmartAI.symbol self) true Hok
                (proj1 Hok) Hlen) as [[s [best|]] Hr]; rewrite Hr in Hrun.
    - by eexists _, _.
    - destruct (index_first (Val.get_available_moves b)) as [x Hx];
        [by apply available_not_nil|].
      rewrite Hx in Hrun. by eexists _, _. }
  destruct (String.eqb (SmartAI.difficulty self) "easy").
  - rewrite bind_assoc. destruct (random_random_run w) as [r Hr]. run Hr.
    set (we := set_entropy _ w).
    assert (heap we !! board game = Some b) as Hle by done.
    destruct (r <? _)%float.
    + rewrite bind_assoc.
      run (get_available_moves_run we (board game) b Hle Hlen game).
      rewrite bind_assoc.
      destruct (random_choice_total (Val.get_available_moves b) we)
        as (x & wx & Hx); [by apply available_not_nil|].
      run Hx. by eexists _, _.
    + unfold bind at 1. unfold ret at 1. by apply Hsearch.
  - unfold bind at 1. unfold ret at 1. by apply Hsearch.
Qed.

Lemma reachable_ongoing_has_empty w game :
  reachable w game → game_state game = ONGOING →
  ∃ b : list string, heap w !! board game = Some b ∧ length b = 9%nat ∧ " " ∈ b.
Proof.
  intros (b & Hl & Hlen & Hcount & _ & Hnine)%reachable_inv Hongoing.
  exists b. split; [done|]. split; [done|].
  specialize (Hnine Hongoing). pose proof (count_empty_marked b) as Hsum.
  assert (count_empty b ≠ 0%nat) as Hne by lia.
  unfold count_empty in Hne.
  destruct (filter (λ c, c = " ") b) as [|c cs] eqn:Hf; [done|].
  assert (c ∈ filter (λ c, c = " ") b) as Hc by (rewrite Hf; apply list_elem_of_here).
  by apply list_elem_of_filter in Hc as [-> Hc].
Qed.

(** C6.  In every state of a game reached from [TicTacToe()] by calls of
    [make_move] and [reset] whose outcome is ONGOING, the board has an empty
    cell, and every index that [RandomAI.get_move] or [SmartAI.get_move]
    (at any difficulty, with any random draws) returns lies in 0..8, names an
    empty cell, and is accepted by [is_valid_move]; the board is as it was.
    Both do return: the random player always, the search when its two marks
    are marks. *)
Theorem automated_players_return_legal_moves w game :
  reachable w game → game_state game = ONGOING →
  ∃ b : list string,
    heap w !! board game = Some b ∧ " " ∈ b
    ∧ let legal (m : Z) (w' : world) :=
        (0 ≤ m ≤ 8)%Z ∧ b !! Z.to_nat m = Some " "
        ∧ heap w' !! board game = Some b
        ∧ is_valid_move game m w' = (Ok true, w') in
      (∀ m w', RandomAI.get_move game w = (Ok m, w') → legal m w')
      ∧ (∀ self m w', SmartAI.get_move self game w = (Ok m, w') → legal m w')
      ∧ (∃ m w', RandomAI.get_move game w = (Ok m, w'))
      ∧ (∀ self, SmartAI.marks_ok self →
                 ∃ m w', SmartAI.get_move self game w = (Ok m, w')).
Proof.
  intros Hreach Hongoing.
  destruct (reachable_ongoing_has_empty w game Hreach Hongoing)
    as (b & Hl & Hlen & Hin).
  exists b. split; [done|]. split; [done|]. cbv zeta.
  split; [|split; [|split]].
  - intros m w' Hmove.
    destruct (random_get_move_cases game w b m w' Hl Hlen Hmove) as [Hm Hh].
    assert (heap w' !! board game = Some b) as Hl' by (by rewrite Hh).
    destruct (available_legal b game m w' Hl' Hlen Hongoing Hm) as (? & ? & ?).
    done.
  - intros self m w' Hmove.
    destruct (smart_get_move_cases self game w b m w' Hl Hlen Hmove)
      as (Hh & _ & _ & Hm).
    assert (heap w' !! board game = Some b) as Hl'.
    { destruct Hh as [-> | ->]; [done|]. by rewrite lookup_copied. }
    assert (m ∈ Val.get_available_moves b) as Hm'.
    { destruct Hm as [Hm | [s Hs]]; [done|]. by eapply minimax_move. }
    destruct (available_legal b game m w' Hl' Hlen Hongoing Hm') as (? & ? & ?).
    done.
  - by apply (random_get_move_total game w b).
  - intros self Hok. by apply (smart_get_move_total self game w b).
Qed.

Lemma reachable_world3 : reachable world3 game3.
Proof.
  apply (reachable_make_moves [0; 4; 1; 7]%Z world0 game0);
    [apply reachable_world0 | by vm_compute].
Qed.

Lemma automated_players_return_legal_moves_witness :
  reachable world3 game3
  ∧ game_state game3 = ONGOING
  ∧ RandomAI.get_move game3 (set_entropy (λ _, 3%Z) world3)
    = (Ok 6%Z, set_entropy (λ _, 3%Z) world3)
  ∧ SmartAI.get_move (SmartAI.init "X" "" "hard") game3 world3
    = (Ok 2%Z, set_heap (<[2%positive := board3]> (heap world3)) world3)
  ∧ ∃ b : list string,
      heap world3 !! board game3 = Some b ∧ " " ∈ b
      ∧ let legal (m : Z) (w' : world) :=
          (0 ≤ m ≤ 8)%Z ∧ b !! Z.to_nat m = Some " "
          ∧ heap w' !! board game3 = Some b
          ∧ is_valid_move game3 m w' = (Ok true, w') in
        (∀ m w', RandomAI.get_move game3 world3 = (Ok m, w') → legal m w')
        ∧ (∀ self m w', SmartAI.get_move self game3 world3 = (Ok m, w') → legal m w')
        ∧ (∃ m w', RandomAI.get_move game3 world3 = (Ok m, w'))
        ∧ (∀ self, SmartAI.marks_ok self →
                   ∃ m w', SmartAI.get_move self game3 world3 = (Ok m, w')).
Proof.
  split; [exact reachable_world3|]. split; [reflexivity|].
  split; [by vm_compute|]. split; [by vm_compute|].
  exact (automated_players_return_legal_moves world3 game3 reachable_world3 eq_refl).
Defined.

(** ** The scan keeps the first of the best candidates *)

Lemma better_trans is_max x y z :
  Search.better is_max x y = true → Search.better is_max y z = true →
  Search.better is_max x z = true.
Proof.
  unfold Search.better, number_gt.
  destruct is_max, x, y, z; cbn; rewrite ?Z.ltb_lt; (done || lia).
Qed.

Lemma better_le_trans is_max x y z :
  Search.better is_max x y = true → Search.better is_max z y = false →
  Search.better is_max x z = true.
Proof.
  unfold Search.better, number_gt.
  destruct is_max, x, y, z; cbn; rewrite ?Z.ltb_lt, ?Z.ltb_ge; (done || lia).
Qed.

Lemma better_irrefl is_max x : Search.better is_max x x = false.
Proof.
  unfold Search.better, number_gt.
  destruct is_max, x; cbn; rewrite ?Z.ltb_ge; (done || lia).
Qed.

Lemma better_than_worst is_max z :
  Search.better is_max (Int z) (Search.worst is_max) = true.
Proof. by destruct is_max. Qed.

(** The scan keeps its starting value when no candidate is better; otherwise
    it ends on a candidate [m] whose score is better than every score
    before it and not worse than any score after it. *)
Lemma scan_spec child is_max (b : list string) cells : ∀ best r,
  Search.scan child is_max b cells best = Some r →
  (r = best
   ∧ ∀ i, i ∈ cells → Val.cell b i = " " →
          ∃ s, child i = Some s ∧ Search.better is_max s best.1 = false)
  ∨ (∃ pre m post,
       cells = pre ++ m :: post
       ∧ r.2 = Some m ∧ Val.cell b m = " " ∧ child m = Some r.1
       ∧ Search.better is_max r.1 best.1 = true
       ∧ (∀ i, i ∈ pre → Val.cell b i = " " →
               ∃ s, child i = Some s ∧ Search.better is_max r.1 s = true)
       ∧ (∀ i, i ∈ post → Val.cell b i = " " →
               ∃ s, child i = Some s ∧ Search.better is_max s r.1 = false)).
Proof.
  induction cells as [|i rest IH]; intros best r; cbn.
  - intros [= <-]. left. split; [done|]. by intros i Hi%not_elem_of_nil.
  - unfold Search.step.
    destruct (String.eqb_spec (Val.cell b i) " ") as [Hc|Hc].
    + destruct (child i) as [cs|] eqn:Hchild; [|done].
      destruct (Search.better is_max cs best.1) eqn:Hbetter; intros Hscan;
        apply IH in Hscan as [[-> Hrest] | (pre & m & post & -> & Hm & Hcm & Hsm
                                            & Hb & Hpre & Hpost)];
        cbn [fst snd] in *.
      * right. exists [], i, rest. repeat split; try done.
        by intros j Hj%not_elem_of_nil.
      * right. exists (i :: pre), m, post. repeat split; try done.
        -- by eapply better_trans.
        -- intros j [-> | Hj]%elem_of_cons Hcj; [by exists cs | by apply Hpre].
      * left. split; [done|].
        intros j [-> | Hj]%elem_of_cons Hcj; [by exists cs | by apply Hrest].
      * right. exists (i :: pre), m, post. repeat split; try done.
        intros j [-> | Hj]%elem_of_cons Hcj; [|by apply Hpre].
        exists cs. split; [done|]. by eapply better_le_trans.
    + intros Hscan.
      apply IH in Hscan as [[-> Hrest] | (pre & m & post & -> & Hm & Hcm & Hsm
                                          & Hb & Hpre & Hpost)].
      * left. split; [done|].
        intros j [-> | Hj]%elem_of_cons Hcj; [done | by apply Hrest].
      * right. exists (i :: pre), m, post. repeat split; try done.
        intros j [-> | Hj]%elem_of_cons Hcj; [done | by apply Hpre].
Qed.

Lemma range_lookup n k i : range n !! k = Some i → i = Z.of_nat k.
Proof.
  unfold range. rewrite list_lookup_fmap.
  destruct (seq 0 n !! k) as [j|] eqn:Hj; [|done].
  apply lookup_seq in Hj as [-> _]. by intros [= <-].
Qed.

(** [range(n)] is ascending. *)
Lemma range_split n pre m post :
  range n = pre ++ m :: post →
  (∀ i, i ∈ pre → (i < m)%Z) ∧ (∀ i, i ∈ post → (m < i)%Z).
Proof.
  intros Hsplit.
  assert (m = Z.of_nat (length pre)) as ->.
  { apply (range_lookup n). rewrite Hsplit. by apply list_lookup_middle. }
  split.
  - intros i [k Hk]%list_elem_of_lookup_1.
    pose proof (lookup_lt_Some _ _ _ Hk) as Hlt.
    assert (i = Z.of_nat k) as ->; [|lia].
    apply (range_lookup n). rewrite Hsplit. by rewrite lookup_app_l.
  - intros i [k Hk]%list_elem_of_lookup_1.
    assert (i = Z.of_nat (length pre + S k)) as ->; [|lia].
    apply (range_lookup n). rewrite Hsplit.
    rewrite lookup_app_r by lia.
    by replace (length pre + S k - length pre)%nat with (S k) by lia.
Qed.

Lemma contains_elem_of v (xs : list string) : contains v xs = true ↔ v ∈ xs.
Proof.
  unfold contains. rewrite existsb_exists. split.
  - intros (x & Hx%list_elem_of_In & ->%String.eqb_eq). done.
  - intros Hv. exists v. split; [by apply list_elem_of_In | apply String.eqb_refl].
Qed.

Lemma empty_cell_in_range (b : list string) :
  length b = 9%nat → " " ∈ b → ∃ i, i ∈ range 9 ∧ Val.cell b i = " ".
Proof.
  intros Hlen Hin. pose proof (available_not_nil b Hlen Hin) as Hne.
  destruct (Val.get_available_moves b) as [|i rest] eqn:Hav; [done|].
  assert (i ∈ Val.get_available_moves b) as Hi by (rewrite Hav; apply list_elem_of_here).
  apply list_elem_of_filter in Hi as [Hc Hr]. by exists i.
Qed.

(** The search returns an int, never one of the two infinities. *)
Lemma minimax_score_int fuel : ∀ self (b : list string) player is_max s mv,
  length b = 9%nat →
  Search.minimax fuel self b player is_max = Some (s, mv) → ∃ z, s = Int z.
Proof.
  induction fuel as [|fuel IH]; intros self b player is_max s mv Hlen; [done|].
  rewrite minimax_S. destruct (Search.terminal self b) eqn:Hterm.
  - intros [= <- <-]. by eexists.
  - assert (∀ i cs, Search.child_score fuel self b player is_max i = Some cs →
                    ∃ z, cs = Int z) as Hint.
    { unfold Search.child_score. intros i cs Hcs.
      destruct (Search.minimax fuel self (Val.place b i player) _ _)
        as [[s' mv']|] eqn:Hm; [|done].
      injection Hcs as <-. eapply IH; [|done]. by rewrite place_length. }
    intros [[[= -> ->] Hnone] | (pre & m & post & _ & _ & _ & Hsm & _)]%scan_spec.
    + unfold Search.terminal in Hterm. apply orb_false_iff in Hterm as [_ Hc].
      apply negb_false_iff, contains_elem_of in Hc.
      destruct (empty_cell_in_range b Hlen Hc) as (i & Hi & Hcell).
      destruct (Hnone i Hi Hcell) as (cs & Hcs & Hworse).
      destruct (Hint i cs Hcs) as [z ->]. cbn [fst] in Hworse.
      by rewrite better_than_worst in Hworse.
    + by eapply Hint.
Qed.

Lemma better_asym is_max x y :
  Search.better is_max x y = true → Search.better is_max y x = false.
Proof.
  unfold Search.better, number_gt.
  destruct is_max, x, y; cbn; rewrite ?Z.ltb_lt, ?Z.ltb_ge; (done || lia).
Qed.

Lemma in_range_9 i : (0 ≤ i < 9)%Z → i ∈ range 9.
Proof.
  intros Hi. unfold range. apply list_elem_of_fmap. exists (Z.to_nat i).
  split; [lia|]. apply elem_of_seq. lia.
Qed.

(** The score of a candidate, on the code and on the value form. *)
Lemma candidate_score_child fuel self (b : list string) player is_max i s :
  length b = 9%nat →
  candidate_score fuel self b player is_max i s ↔
  (0 ≤ i < 9)%Z ∧ Val.cell b i = " "
  ∧ Search.child_score fuel self b player is_max i = Some s.
Proof.
  intros Hlen. unfold candidate_score, Search.child_score.
  split; intros (Hi & Hc & Hs);
    (split; [done|]; split; [by apply cell_lookup; [lia|]|]).
  - set (w0 := World {[1%positive := Val.place b i player]} [] [] (λ _, 0%Z)).
    destruct (Hs w0 1%positive) as [mv Hmv]; [apply lookup_singleton_eq|].
    pose proof (minimax_run fuel self w0 1%positive (Val.place b i player)
                  (Search.other self player) (negb is_max)
                  (lookup_singleton_eq _ _) ltac:(by rewrite place_length)) as Hrun.
    destruct (Search.minimax fuel self (Val.place b i player) _ _) as [r|];
      unfold runs_as in Hrun.
    + rewrite Hrun in Hmv. by injection Hmv as ->.
    + destruct Hrun as [w' Hrun]. by rewrite Hrun in Hmv.
  - intros w l Hl.
    pose proof (minimax_run fuel self w l (Val.place b i player)
                  (Search.other self player) (negb is_max)
                  Hl ltac:(by rewrite place_length)) as Hrun.
    destruct (Search.minimax fuel self (Val.place b i player) _ _) as [[s' mv]|];
      [|done].
    injection Hs as <-. by exists mv.
Qed.

(** On [board2] the moves 3, 4 and 6 all score 10: the search returns 3. *)
Example minimax_tie_on_board2 :
  SmartAI._minimax 8 (SmartAI.init "X" "" "hard") 1%positive "X" true world2
  = (Ok (Int 10, Some 3%Z), world2)
  ∧ Search.child_score 7 (SmartAI.init "X" "" "hard") board2 "X" true
    <$> [2; 3; 4; 5; 6; 7; 8]%Z
    = Some <$> [Int 0; Int 10; Int 10; Int 0; Int 10; Int 0; Int 0].
Proof. by vm_compute. Qed.

(** ** The search on marks is the search *)

Lemma eqb_dec a b : String.eqb (Fast.dec a) (Fast.dec b) = Fast.mark_eqb a b.
Proof. by destruct a, b. Qed.

Lemma eqb_dec_empty a : String.eqb (Fast.dec a) " " = Fast.is_empty a.
Proof. by destruct a. Qed.

Lemma contains_dec marks :
  contains " " (Fast.dec <$> marks) = existsb Fast.is_empty marks.
Proof.
  unfold contains. induction marks as [|c marks IH]; [done|]. cbn. rewrite <- IH.
  by destruct c.
Qed.

Lemma enc_dec c m : Fast.enc c = Some m → c = Fast.dec m.
Proof.
  unfold Fast.enc.
  destruct (String.eqb_spec c " ") as [->|_]; [by intros [= <-]|].
  destruct (String.eqb_spec c "X") as [->|_]; [by intros [= <-]|].
  destruct (String.eqb_spec c "O") as [->|_]; [by intros [= <-]|done].
Qed.

Lemma board_of_dec (b : list string) : ∀ marks,
  Fast.board_of b = Some marks → b = Fast.dec <$> marks.
Proof.
  induction b as [|c b IH]; intros marks; cbn.
  - by intros [= <-].
  - destruct (Fast.enc c) as [m|] eqn:Hm; [|done].
    destruct (Fast.board_of b) as [rest|]; [|done].
    intros [= <-]. cbn. by rewrite (enc_dec c m Hm), (IH rest eq_refl).
Qed.

Lemma fast_evaluate self me (marks : list Fast.mark) :
  SmartAI.symbol self = Fast.dec me → length marks = 9%nat →
  Search.evaluate self (Fast.dec <$> marks) = Fast.evaluate me marks.
Proof.
  intros Hsym Hlen.
  destruct marks as [|c0 [|c1 [|c2 [|c3 [|c4 [|c5 [|c6 [|c7 [|c8 [|]]]]]]]]]];
    try done.
  unfold Search.evaluate, WIN_PATTERNS, Fast.evaluate, Fast.line3, Fast.score.
  cbn [Search.evaluate_from Val.line Val.head_cell]. rewrite Hsym.
  set (b := Fast.dec <$> [c0; c1; c2; c3; c4; c5; c6; c7; c8]).
  change (Val.cell b 0) with (Fast.dec c0). change (Val.cell b 1) with (Fast.dec c1).
  change (Val.cell b 2) with (Fast.dec c2). change (Val.cell b 3) with (Fast.dec c3).
  change (Val.cell b 4) with (Fast.dec c4). change (Val.cell b 5) with (Fast.dec c5).
  change (Val.cell b 6) with (Fast.dec c6). change (Val.cell b 7) with (Fast.dec c7).
  change (Val.cell b 8) with (Fast.dec c8).
  by rewrite !eqb_dec_empty, !eqb_dec.
Qed.

Lemma fast_scan child child' is_max (b : list string) cells ps :
  Forall2 (same_turn child child' b) cells ps →
  ∀ best, Search.scan child is_max b cells best = Fast.scan child' is_max ps best.
Proof.
  induction 1 as [|i [[i' c] b'] cells ps (Hi & Hc & Hchild) _ IH]; intros best;
    [done|].
  cbn in Hi, Hc, Hchild. subst i'. cbn [Search.scan Fast.scan]. unfold Search.step.
  rewrite Hc, Hchild. destruct (Fast.is_empty c); [|apply IH].
  destruct (child' b'); [apply IH | done].
Qed.

Lemma fast_minimax fuel : ∀ self me opp (marks : list Fast.mark) p is_max,
  SmartAI.symbol self = Fast.dec me → SmartAI.opponent_symbol self = Fast.dec opp →
  length marks = 9%nat →
  Search.minimax fuel self (Fast.dec <$> marks) (Fast.dec p) is_max
  = Fast.minimax fuel me opp marks p is_max.
Proof.
  induction fuel as [|fuel IH]; intros self me opp marks p is_max Hsym Hopp Hlen;
    [done|].
  rewrite minimax_S. cbn [Fast.minimax]. unfold Search.terminal.
  rewrite (fast_evaluate self me marks Hsym Hlen), contains_dec.
  destruct (negb (Fast.evaluate me marks =? 0)%Z
            || negb (existsb Fast.is_empty marks)); [done|].
  assert (Search.other self (Fast.dec p) = Fast.dec (Fast.other me opp p)) as Hother.
  { unfold Search.other, Fast.other. rewrite Hsym, Hopp, eqb_dec.
    by destruct (Fast.mark_eqb p me). }
  destruct marks as [|c0 [|c1 [|c2 [|c3 [|c4 [|c5 [|c6 [|c7 [|c8 [|]]]]]]]]]];
    try done.
  apply fast_scan. unfold Search.child_score. rewrite Hother.
  change (range 9) with [0; 1; 2; 3; 4; 5; 6; 7; 8]%Z. cbn [Fast.plays].
  repeat (constructor;
          [unfold same_turn; cbn [fst snd];
           split; [reflexivity|]; split; [apply eqb_dec_empty|];
           rewrite <- (IH self me opp _ _ _ Hsym Hopp) by reflexivity;
           reflexivity |]).
  constructor.
Qed.

Lemma fast_get_move self (b : list string) :
  length b = 9%nat → Fast.get_move self b = Search.get_move self b.
Proof.
  intros Hlen. unfold Fast.get_move, Search.get_move.
  destruct (Fast.enc (SmartAI.symbol self)) as [me|] eqn:Hme; [|done].
  destruct (Fast.enc (SmartAI.opponent_symbol self)) as [opp|] eqn:Hopp; [|done].
  destruct (Fast.board_of b) as [marks|] eqn:Hb; [|done].
  apply enc_dec in Hme, Hopp. apply board_of_dec in Hb. subst b.
  rewrite length_fmap in Hlen.
  rewrite <- (fast_minimax SmartAI.depth self me opp marks me true Hme Hopp Hlen).
  by rewrite <- Hme.
Qed.

(** ** C3: the search does not lose when it moves first *)

Arguments Fast.never_reaches : simpl never.

Lemma never_reaches_unfold lost turns self (b : list string) game :
  Fast.never_reaches lost turns self b game
  = negb (bool_decide (game_state game = lost))
    && (is_game_over game ||
        match turns with
        | O => false
        | S turns' =>
            if String.eqb (current_player game) (SmartAI.symbol self) then
              match Fast.get_move self b with
              | Some m =>
                  Val.is_valid_move b game m
                  && (let '(game', b') := Val.moved b game m in
                      Fast.never_reaches lost turns' self b' game')
              | None => false
              end
            else
              forallb (λ p, negb (Val.is_valid_move b game p)
                            || (let '(game', b') := Val.moved b game p in
                                Fast.never_reaches lost turns' self b' game'))
                (range 9)
        end).
Proof. by destruct turns. Qed.

(** At full strength [get_move] is the search on the copy. *)
Lemma smart_get_move_hard self game w (b : list string) :
  heap w !! board game = Some b → length b = 9%nat →
  String.eqb (SmartAI.difficulty self) "easy" = false →
  match Search.get_move self b with
  | Some m =>
      SmartAI.get_move self game w
      = (Ok m, set_heap (<[fresh (dom (heap w)) := b]> (heap w)) w)
  | None => ∃ e w', SmartAI.get_move self game w = (Raise e, w')
  end.
Proof.
  intros Hl Hlen Hhard.
  pose proof (smart_search_run self game w b Hl Hlen) as Hrun. cbv zeta in Hrun.
  assert (SmartAI.get_move self game w
          = (copy <- get_board_copy game ;;
             r <- SmartAI._minimax SmartAI.depth self copy (SmartAI.symbol self) true ;;
             match r.2 with
             | Some best_move => ret best_move
             | None => available_moves <- get_available_moves game ;;
                       seq_item available_moves 0
             end) w) as ->.
  { unfold SmartAI.get_move. by rewrite Hhard. }
  unfold Search.get_move.
  destruct (Search.minimax SmartAI.depth self b (SmartAI.symbol self) true)
    as [[s [best|]]|]; [done| |].
  - rewrite Hrun. destruct (Val.get_available_moves b) as [|x xs]; [|done].
    by eexists _, _.
  - destruct Hrun as [w' Hrun]. by eexists _, _.
Qed.

Lemma checked_not_lost self w game :
  checked self w game → game_state game ≠ O_WINS.
Proof.
  intros (b & turns & _ & _ & Hnr). rewrite never_reaches_unfold in Hnr.
  apply andb_true_iff in Hnr as [Hnot _].
  by apply negb_true_iff, bool_decide_eq_false in Hnot.
Qed.

Lemma checked_elsewhere self w game w' :
  checked self w game → heap w' !! board game = heap w !! board game →
  checked self w' game.
Proof.
  intros (b & turns & Hl & Hrest) Hsame. exists b, turns. by rewrite Hsame.
Qed.

Lemma moved_checked self w game (b : list string) position turns r game' w' :
  heap w !! board game = Some b → length b = 9%nat →
  Val.is_valid_move b game position = true →
  (let '(game', b') := Val.moved b game position in
   Fast.never_reaches O_WINS turns self b' game') = true →
  make_move game position w = (Ok (r, game'), w') →
  r = true ∧ checked self w' game'.
Proof.
  intros Hl Hlen Hvalid Hnr Hmove.
  rewrite (make_move_run w game position b Hl Hlen) in Hmove.
  destruct (make_move_board b game position) as [Hboard Hlen'].
  unfold Val.make_move in *. rewrite Hvalid in *. cbn [fst snd] in *.
  destruct (Val.moved b game position) as [g1 b1]. cbn [fst snd] in *.
  injection Hmove as <- <- <-. split; [done|].
  exists b1, turns. rewrite Hboard. cbn [heap set_heap].
  split; [apply lookup_insert_eq|]. split; [congruence | done].
Qed.

(** The search's turn in a checked position: it has a move, the move is
    accepted, and the position it leads to is checked. *)
Lemma checked_search self w game :
  String.eqb (SmartAI.difficulty self) "easy" = false →
  checked self w game → game_state game = ONGOING →
  current_player game = SmartAI.symbol self →
  ∃ m w1,
    SmartAI.get_move self game w = (Ok m, w1)
    ∧ (∃ game' w2, make_move game m w1 = (Ok (true, game'), w2))
    ∧ ∀ r game' w2, make_move game m w1 = (Ok (r, game'), w2) →
        checked self w2 game'.
Proof.
  intros Hhard (b & turns & Hl & Hlen & Hnr) Hongoing Hturn.
  rewrite never_reaches_unfold in Hnr.
  apply andb_true_iff in Hnr as [_ Hnr].
  unfold is_game_over in Hnr. rewrite bool_decide_eq_true_2 in Hnr by done.
  cbn [negb orb] in Hnr. destruct turns as [|turns]; [done|].
  rewrite Hturn, String.eqb_refl, (fast_get_move self b Hlen) in Hnr.
  pose proof (smart_get_move_hard self game w b Hl Hlen Hhard) as Hmove.
  destruct (Search.get_move self b) as [m|]; [|done].
  apply andb_true_iff in Hnr as [Hvalid Hnr].
  set (w1 := set_heap _ w) in Hmove.
  assert (heap w1 !! board game = Some b) as Hl1.
  { unfold w1. cbn [heap set_heap]. by rewrite lookup_copied. }
  exists m, w1. split; [done|]. split.
  - rewrite (make_move_run w1 game m b Hl1 Hlen). unfold Val.make_move.
    rewrite Hvalid. by eexists _, _.
  - intros r game' w2 Hmade.
    by destruct (moved_checked self w1 game b m turns r game' w2 Hl1 Hlen
                   Hvalid Hnr Hmade).
Qed.

(** A reply in a checked position leads to a checked position. *)
Lemma checked_reply self w game position game' w' :
  checked self w game → current_player game ≠ SmartAI.symbol self →
  make_move game position w = (Ok (true, game'), w') →
  checked self w' game'.
Proof.
  intros (b & turns & Hl & Hlen & Hnr) Hturn Hmove.
  assert (Val.is_valid_move b game position = true) as Hvalid.
  { rewrite (make_move_run w game position b Hl Hlen) in Hmove.
    unfold Val.make_move in Hmove.
    by destruct (Val.is_valid_move b game position). }
  pose proof Hvalid as ([H0 H8] & _ & Hongoing)%is_valid_move_true; [|done].
  rewrite never_reaches_unfold in Hnr.
  apply andb_true_iff in Hnr as [_ Hnr].
  unfold is_game_over in Hnr. rewrite bool_decide_eq_true_2 in Hnr by done.
  cbn [negb orb] in Hnr. destruct turns as [|turns]; [done|].
  apply String.eqb_neq in Hturn. rewrite Hturn in Hnr.
  rewrite forallb_forall in Hnr.
  specialize (Hnr position). rewrite Hvalid in Hnr. cbn [negb orb] in Hnr.
  eapply (moved_checked self w game b position turns true game' w'); try done.
  apply Hnr. apply list_elem_of_In. apply in_range_9. lia.
Qed.

(** The exhaustive check: from the empty board, with the search as "X"
    against every sequence of replies, no game reaches O_WINS. *)
Lemma empty_board_checked name difficulty l :
  Fast.never_reaches O_WINS 9 (SmartAI.mk "X" name difficulty "O")
    (replicate 9 " ") (mkTicTacToe l "X" ONGOING 0 None None) = true.
Proof. vm_compute. reflexivity. Qed.

Lemma search_moves_first_checked self w game :
  SmartAI.symbol self = "X" → SmartAI.opponent_symbol self = "O" →
  SmartAI.difficulty self ≠ "easy" →
  search_moves_first self w game → checked self w game.
Proof.
  intros Hsym Hopp Hhard%String.eqb_neq.
  induction 1 as [w game w' Hinit
                 | w game m w1 r game' w2 _ IH Hongoing Hturn Hget Hmade
                 | w game position game' w' _ IH Hturn Hmade
                 | w game w' _ IH Hsame].
  - rewrite TicTacToe_init_run in Hinit. injection Hinit as <- <-.
    exists (replicate 9 " "), 9%nat. cbn [heap set_heap board].
    split; [apply lookup_insert_eq|]. split; [done|].
    destruct self as [sym name difficulty opp]. cbn in Hsym, Hopp. subst sym opp.
    apply empty_board_checked.
  - rewrite <- Hsym in Hturn.
    destruct (checked_search self w game Hhard IH Hongoing Hturn)
      as (m' & w1' & Hget' & _ & Hnext).
    rewrite Hget in Hget'. injection Hget' as <- <-. by eapply Hnext.
  - eapply checked_reply; [done| |done]. by rewrite Hturn, Hsym.
  - by eapply checked_elsewhere.
Qed.

(** C3.  In every game in which the search, at full strength (difficulty
    other than "easy"), plays "X" from a new board and "O" replies with any
    moves that [make_move] accepts, no state has the outcome O_WINS; and
    whenever the game is ONGOING with "X" to move, [get_move] returns a
    move and [make_move] accepts it, so the game goes on to its end. *)
Theorem search_first_never_loses self w game :
  SmartAI.symbol self = "X" → SmartAI.opponent_symbol self = "O" →
  SmartAI.difficulty self ≠ "easy" →
  search_moves_first self w game →
  game_state game ≠ O_WINS
  ∧ (game_state game = ONGOING → current_player game = "X" →
     ∃ m w1 game' w2,
       SmartAI.get_move self game w = (Ok m, w1)
       ∧ make_move game m w1 = (Ok (true, game'), w2)).
Proof.
  intros Hsym Hopp Hhard Hplay.
  pose proof (search_moves_first_checked self w game Hsym Hopp Hhard Hplay) as Hc.
  split; [by eapply checked_not_lost|].
  intros Hongoing Hturn. rewrite <- Hsym in Hturn.
  apply String.eqb_neq in Hhard.
  destruct (checked_search self w game Hhard Hc Hongoing Hturn)
    as (m & w1 & Hget & (game' & w2 & Hmade) & _).
  by exists m, w1, game', w2.
Qed.

(** One move of the search in a game where it moves first, and one reply,
    on board values. *)
Lemma search_moves_first_search self w game (b : list string) m w' :
  SmartAI.difficulty self ≠ "easy" →
  search_moves_first self w game →
  heap w !! board game = Some b → length b = 9%nat →
  game_state game = ONGOING → current_player game = "X" →
  Fast.get_move self b = Some m →
  heap w' !! board game = Some (Val.make_move b game m).2 →
  search_moves_first self w' (Val.make_move b game m).1.2.
Proof.
  intros Hhard%String.eqb_neq Hplay Hl Hlen Hongoing Hturn Hget Hl'.
  pose proof (smart_get_move_hard self game w b Hl Hlen Hhard) as Hmove.
  rewrite <- (fast_get_move self b Hlen), Hget in Hmove.
  set (w1 := set_heap _ w) in Hmove.
  assert (heap w1 !! board game = Some b) as Hl1
    by (unfold w1; cbn [heap set_heap]; by rewrite lookup_copied).
  pose proof (make_move_run w1 game m b Hl1 Hlen) as Hmade.
  destruct (make_move_board b game m) as [Hboard _].
  apply (first_elsewhere self
           (set_heap (<[board game := (Val.make_move b game m).2]> (heap w1)) w1)).
  - by eapply first_search.
  - rewrite Hboard, Hl'. cbn [heap set_heap]. by rewrite lookup_insert_eq.
Qed.

Lemma search_moves_first_reply self w game (b : list string) position w' :
  search_moves_first self w game →
  heap w !! board game = Some b → length b = 9%nat →
  current_player game = "O" → Val.is_valid_move b game position = true →
  heap w' !! board game = Some (Val.moved b game position).2 →
  search_moves_first self w' (Val.moved b game position).1.
Proof.
  intros Hplay Hl Hlen Hturn Hvalid Hl'.
  destruct (make_move_valid w game position b Hl Hlen Hvalid) as (Hmade & _ & Hboard).
  apply (first_elsewhere self
           (set_heap (<[board game := (Val.moved b game position).2]> (heap w)) w)).
  - by eapply first_reply.
  - rewrite Hboard, Hl'. cbn [heap set_heap]. by rewrite lookup_insert_eq.
Qed.

(** The game of [world_played]: the search opens at 0, "O" takes the
    centre, the search plays 1, "O" blocks at 2. *)
Lemma search_moves_first_played :
  search_moves_first (SmartAI.init "X" "" "hard") world_played game_played.
Proof.
  set (self := SmartAI.init "X" "" "hard").
  assert (SmartAI.difficulty self ≠ "easy") as Hhard by done.
  assert (search_moves_first self world0 game0) as H0
    by (apply (first_start _ world_empty); reflexivity).
  pose proof (search_moves_first_search self world0 game0 (replicate 9 " ") 0
                (World {[1%positive := ["X"; " "; " "; " "; " "; " "; " "; " "; " "]]}
                   [] [] (λ _, 0%Z))
                Hhard H0 eq_refl eq_refl eq_refl eq_refl
                ltac:(by vm_compute) eq_refl) as H1.
  pose proof (search_moves_first_reply self _ _
                ["X"; " "; " "; " "; " "; " "; " "; " "; " "] 4
                (World {[1%positive := ["X"; " "; " "; " "; "O"; " "; " "; " "; " "]]}
                   [] [] (λ _, 0%Z))
                H1 eq_refl eq_refl eq_refl eq_refl eq_refl) as H2.
  pose proof (search_moves_first_search self _ _
                ["X"; " "; " "; " "; "O"; " "; " "; " "; " "] 1
                (World {[1%positive := ["X"; "X"; " "; " "; "O"; " "; " "; " "; " "]]}
                   [] [] (λ _, 0%Z))
                Hhard H2 eq_refl eq_refl eq_refl eq_refl
                ltac:(by vm_compute) eq_refl) as H3.
  exact (search_moves_first_reply self _ _
           ["X"; "X"; " "; " "; "O"; " "; " "; " "; " "] 2 world_played
           H3 eq_refl eq_refl eq_refl eq_refl eq_refl).
Qed.

Lemma search_first_never_loses_witness :
  SmartAI.symbol (SmartAI.init "X" "" "hard") = "X"
  ∧ SmartAI.opponent_symbol (SmartAI.init "X" "" "hard") = "O"
  ∧ SmartAI.difficulty (SmartAI.init "X" "" "hard") ≠ "easy"
  ∧ search_moves_first (SmartAI.init "X" "" "hard") world_played game_played
  ∧ game_state game_played ≠ O_WINS
  ∧ (game_state game_played = ONGOING → current_player game_played = "X" →
     ∃ m w1 game' w2,
       SmartAI.get_move (SmartAI.init "X" "" "hard") game_played world_played
       = (Ok m, w1)
       ∧ make_move game_played m w1 = (Ok (true, game'), w2)).
Proof.
  assert (SmartAI.difficulty (SmartAI.init "X" "" "hard") ≠ "easy") as Hhard by done.
  split; [reflexivity|]. split; [reflexivity|]. split; [exact Hhard|].
  split; [exact search_moves_first_played|].
  exact (search_first_never_loses (SmartAI.init "X" "" "hard") world_played
           game_played eq_refl eq_refl Hhard search_moves_first_played).
Defined.

(** In that game the search, to move, blocks at 6. *)
Example search_blocks_on_board_played :
  SmartAI.get_move (SmartAI.init "X" "" "hard") game_played world_played
  = (Ok 6%Z, set_heap (<[2%positive := board_played]> (heap world_played))
               world_played).
Proof. by vm_compute. Qed.

(** ** C8 and C10: the statistics *)

(** C8.  After X wins in 5 moves, O wins in 7, a draw in 9 and X wins in 6 are
    recorded on a new instance, [get_stats] returns 4 games played, 2 wins of
    X, 1 win of O, 1 draw, and as average 27 / 4 = 6.75 rounded to one
    decimal place, which is the float 6.8 (the tie goes to the even
    digit). *)
Theorem stats_after_four_games :
  ∃ self',
    GameStats.get_stats four_games
    = Ok (Stats.mk 4 2 1 1 (round1 6.75), self')
    ∧ GameStats.total_moves four_games = 27%Z
    ∧ truediv 27 4 = Ok 6.75%float
    ∧ round1 6.75 = 0x1.b333333333333p+2%float (* 6.8 *).
Proof. eexists. by vm_compute. Qed.

(** The two operations on floats at values where rounding shows: a
    quotient of large ints is rounded once, one beyond the floats raises,
    and [round] goes by the exact value of the float (0.15 and 0.35 are
    below the decimals they are written as, 0.25 is a tie). *)
Example truediv_and_round1_values :
  truediv (3 * 2 ^ 53 + 3) 3 = Ok 0x1p+53%float
  ∧ truediv (2 ^ 63) 1 = Ok 0x1p+63%float
  ∧ truediv (10 ^ 400) 1 = Raise OverflowError
  ∧ truediv (10 ^ 400) (10 ^ 390) = Ok 0x1.2a05f2p+33%float
  ∧ truediv (-7) 2 = Ok (-0x1.cp+1)%float
  ∧ truediv 1 0 = Raise ZeroDivisionError
  ∧ round1 0x1.3333333333333p-3 = 0x1.999999999999ap-4%float
  ∧ round1 0x1p-2 = 0x1.999999999999ap-3%float
  ∧ round1 0x1.6666666666666p-2 = 0x1.3333333333333p-2%float
  ∧ round1 (-0x1.999999999999ap-5) = (-0x1.999999999999ap-4)%float
  ∧ round1 0x1.fffffffffffffp+51 = 0x1.fffffffffffffp+51%float
  ∧ round1 0x1.0f0cf064dd592p+73 = 0x1.0f0cf064dd592p+73%float.
Proof. by vm_compute. Qed.

Lemma wins_item_spec self key :
  (GameStats.wins_item self key).1 = default 0%Z (GameStats.wins self !! key)
  ∧ GameStats.games_played (GameStats.wins_item self key).2
    = GameStats.games_played self
  ∧ GameStats.draws (GameStats.wins_item self key).2 = GameStats.draws self
  ∧ GameStats.total_moves (GameStats.wins_item self key).2
    = GameStats.total_moves self
  ∧ ∀ k v, GameStats.wins (GameStats.wins_item self key).2 !! k = Some v →
           v = 0%Z ∨ GameStats.wins self !! k = Some v.
Proof.
  unfold GameStats.wins_item. destruct (GameStats.wins self !! key) eqn:Hk; cbn.
  - repeat split; auto.
  - repeat split; try done. intros k v. rewrite lookup_insert.
    case_decide; [intros [= <-]; by left | by right].
Qed.

Lemma get_stats_spec self :
  let x := (GameStats.wins_item self "X").1 in
  let self1 := (GameStats.wins_item self "X").2 in
  let o := (GameStats.wins_item self1 "O").1 in
  let self2 := (GameStats.wins_item self1 "O").2 in
  GameStats.get_stats self
  = match truediv (GameStats.total_moves self2)
            (Z.max 1 (GameStats.games_played self2)) with
    | Ok mean => Ok (Stats.mk (GameStats.games_played self) x o
                       (GameStats.draws self2) (round1 mean), self2)
    | Raise e => Raise e
    end.
Proof.
  unfold GameStats.get_stats.
  destruct (GameStats.wins_item self "X") as [x self1]. cbn [fst snd].
  by destruct (GameStats.wins_item self1 "O") as [o self2].
Qed.

Lemma truediv_cases a b :
  b ≠ 0%Z → (∃ q, truediv a b = Ok q) ∨ truediv a b = Raise OverflowError.
Proof.
  intros Hb. unfold truediv. destruct (Z.eqb_spec b 0); [done|].
  destruct (is_small a && is_small b); [by eauto|].
  destruct (nearest_quotient a b); eauto.
Qed.

Lemma truediv_small a b :
  b ≠ 0%Z → (Z.abs a < 2 ^ 53)%Z → (Z.abs b < 2 ^ 53)%Z →
  truediv a b = Ok (float_of_small a / float_of_small b)%float.
Proof.
  intros Hb Ha Hb'. unfold truediv, is_small. destruct (Z.eqb_spec b 0); [done|].
  destruct (Z.ltb_spec (Z.abs a) (2 ^ 53)); [|lia].
  destruct (Z.ltb_spec (Z.abs b) (2 ^ 53)); [|lia]. done.
Qed.

(** The divisor of the average is at least 1: [get_stats] raises no
    ZeroDivisionError.  It raises only when the average is too large for a
    float. *)
Lemma get_stats_no_zero_division self :
  (∃ r self', GameStats.get_stats self = Ok (r, self'))
  ∨ GameStats.get_stats self = Raise OverflowError.
Proof.
  rewrite get_stats_spec. cbv zeta.
  destruct (truediv_cases
              (GameStats.total_moves
                 (GameStats.wins_item (GameStats.wins_item self "X").2 "O").2)
              (Z.max 1 (GameStats.games_played
                 (GameStats.wins_item (GameStats.wins_item self "X").2 "O").2)))
    as [[q ->] | ->]; [lia | by left; eexists _, _ | by right].
Qed.

(** Before any game is recorded the counters are 0 and [wins] holds nothing
    but zeros. *)
Lemma no_games_zero self :
  GameStats.no_games self →
  GameStats.games_played self = 0%Z ∧ GameStats.draws self = 0%Z
  ∧ GameStats.total_moves self = 0%Z
  ∧ ∀ key v, GameStats.wins self !! key = Some v → v = 0%Z.
Proof.
  induction 1 as [| self | self r self' _ IH Hget].
  - by repeat split.
  - by repeat split.
  - destruct IH as (Hg & Hd & Ht & Hw).
    rewrite get_stats_spec in Hget. cbv zeta in Hget.
    destruct (wins_item_spec self "X") as (_ & Hg1 & Hd1 & Ht1 & Hw1).
    destruct (wins_item_spec (GameStats.wins_item self "X").2 "O")
      as (_ & Hg2 & Hd2 & Ht2 & Hw2).
    destruct (truediv _ _); [|done]. injection Hget as <- <-.
    rewrite Hg2, Hg1, Hd2, Hd1, Ht2, Ht1. repeat split; try done.
    intros key v [-> | [-> | Hv]%Hw1]%Hw2; [done..|]. by eapply Hw.
Qed.

(** C10.  On an instance with no game recorded (new, or reset, and read
    any number of times), [get_stats] raises no ZeroDivisionError, the
    divisor being [max(1, 0) = 1], and returns 0 for the games played, for
    the wins of X and of O, for the draws, and the float 0 for the average. *)
Theorem get_stats_no_games self :
  GameStats.no_games self →
  Z.max 1 (GameStats.games_played self) = 1%Z
  ∧ ∃ self', GameStats.get_stats self = Ok (Stats.mk 0 0 0 0 0%float, self').
Proof.
  intros (Hg & Hd & Ht & Hw)%no_games_zero. split; [lia|].
  rewrite get_stats_spec. cbv zeta.
  destruct (wins_item_spec self "X") as (Hx & Hg1 & Hd1 & Ht1 & Hw1).
  destruct (wins_item_spec (GameStats.wins_item self "X").2 "O")
    as (Ho & Hg2 & Hd2 & Ht2 & Hw2).
  rewrite Hg2, Hg1, Hd2, Hd1, Ht2, Ht1, Hg, Hd, Ht.
  assert ((GameStats.wins_item self "X").1 = 0%Z) as ->.
  { rewrite Hx. destruct (GameStats.wins self !! "X") as [v|] eqn:Hv; [|done].
    by apply Hw in Hv. }
  assert ((GameStats.wins_item (GameStats.wins_item self "X").2 "O").1 = 0%Z) as ->.
  { rewrite Ho.
    destruct (GameStats.wins (GameStats.wins_item self "X").2 !! "O") as [v|] eqn:Hv;
      [|done].
    apply Hw1 in Hv as [-> | Hv]; [done|]. by apply Hw in Hv. }
  by eexists.
Qed.

Lemma get_stats_no_games_witness :
  GameStats.no_games GameStats.init
  ∧ Z.max 1 (GameStats.games_played GameStats.init) = 1%Z
  ∧ ∃ self', GameStats.get_stats GameStats.init
             = Ok (Stats.mk 0 0 0 0 0%float, self').
Proof.
  split; [exact GameStats.no_games_init|].
  exact (get_stats_no_games GameStats.init GameStats.no_games_init).
Defined.

(** ** C9: an interrupt at the prompt *)

(** Ctrl-C at the prompt of a human player: [get_move] catches the
    KeyboardInterrupt, asks for a number, and prompts again. *)
Lemma human_get_move_interrupt name symbol game w rest :
  stdin w = Interrupt :: rest →
  HumanPlayer.get_move name symbol game w
  = HumanPlayer.get_move name symbol game
      (set_stdout (stdout w ++ [Prompt name symbol; EnterNumber])
         (set_stdin rest w)).
Proof.
  intros Hin. unfold HumanPlayer.get_move. rewrite Hin.
  cbn [stdin set_stdin set_stdout length].
  change (HumanPlayer.get_move_loop (S (S (length rest))) name symbol game)
    with (r <- try_except
                 (n <- input_int (Prompt name symbol) ;;
                  let position := (n - 1)%Z in
                  valid <- is_valid_move game position ;;
                  if valid then ret (Some position)
                  else (print InvalidMove ;; ret None))
                 (λ e, match e with
                       | ValueError | KeyboardInterrupt => true
                       | _ => false
                       end)
                 (print EnterNumber ;; ret None) ;;
          match r with
          | Some position => ret position
          | None => HumanPlayer.get_move_loop (S (length rest)) name symbol game
          end).
  unfold bind at 1, try_except, bind at 1, input_int. rewrite Hin.
  unfold bind, print, ret. cbn [stdin stdout heap entropy set_stdin set_stdout].
  by rewrite <- app_assoc.
Qed.

(** No KeyboardInterrupt comes out of a human player's [get_move]. *)
Lemma human_get_move_loop_no_interrupt fuel name symbol game : ∀ w w',
  HumanPlayer.get_move_loop fuel name symbol game w ≠ (Raise KeyboardInterrupt, w').
Proof.
  induction fuel as [|fuel IH]; intros w w'; [done|].
  cbn [HumanPlayer.get_move_loop]. unfold bind at 1, try_except.
  destruct (bind (input_int (Prompt name symbol)) _ w) as [[[p|]|e] w1].
  - done.
  - apply IH.
  - destruct e; try done; unfold bind, print, ret; apply IH.
Qed.

(** The budget of [HumanPlayer.get_move] is never used up: every turn of
    its loop consumes a console event. *)
Lemma human_get_move_loop_fuel fuel name symbol game : ∀ w w',
  (length (stdin w) < fuel)%nat →
  HumanPlayer.get_move_loop fuel name symbol game w ≠ (Raise OutOfFuel, w').
Proof.
  induction fuel as [|fuel IH]; intros w w' Hfuel; [lia|].
  cbn [HumanPlayer.get_move_loop]. unfold bind at 1, try_except, bind at 1, input_int.
  destruct (stdin w) as [|[n| |] rest] eqn:Hin; cbn [length] in Hfuel.
  - done.
  - unfold bind at 1.
    set (w1 := set_stdin rest _).
    destruct (is_valid_move game (n - 1) w1) as [[valid|e] w2] eqn:Hvalid.
    + assert (stdin w2 = rest) as Hrest.
      { unfold is_valid_move in Hvalid.
        destruct (_ && _); [|by injection Hvalid as _ <-].
        unfold bind, list_get in Hvalid.
        destruct (heap w1 !! board game); [|done].
        destruct (index _ _); [|done].
        destruct (String.eqb _ _); by injection Hvalid as _ <-. }
      destruct valid; [done|]. unfold bind, print, ret.
      apply IH. cbn [stdin set_stdout]. rewrite Hrest. lia.
    + unfold is_valid_move in Hvalid.
      destruct (_ && _); [|done]. unfold bind, list_get in Hvalid.
      destruct (heap w1 !! board game); [|by injection Hvalid as <- _].
      destruct (index _ _) as [c|e'] eqn:Hidx.
      * by destruct (String.eqb c " ").
      * injection Hvalid as <- _. unfold index in Hidx.
        destruct (_ <? 0)%Z; [by injection Hidx as <-|].
        destruct (_ !! _); [done | by injection Hidx as <-].
  - unfold bind, print, ret. apply IH. cbn [stdin set_stdout set_stdin]. lia.
  - unfold bind, print, ret. apply IH. cbn [stdin set_stdout set_stdin]. lia.
Qed.

(** The interrupt branch of [play_game]: when the [get_move] of the player
    whose turn it is raises KeyboardInterrupt, the driver reports it and
    returns, and the game instance is as it was. *)
Lemma play_game_returns_on_interrupt fuel game player_x player_o current w w1 w2 :
  is_game_over game = false →
  ConsoleInterface.display_board game w = (Ok (), w1) →
  ConsoleInterface.players_item player_x player_o (current_player game) w1
  = (Ok current, w1) →
  get_move current game
    (set_stdout (stdout w1 ++ [TurnOf (name current) (current_player game)]) w1)
  = (Raise KeyboardInterrupt, w2) →
  ConsoleInterface.play_game_loop (S fuel) game player_x player_o w
  = (Ok (None, game), set_stdout (stdout w2 ++ [Interrupted]) w2).
Proof.
  intros Hover Hshow Hitem Hget. cbn [ConsoleInterface.play_game_loop].
  rewrite Hover. run Hshow. run Hitem.
  unfold bind at 1. unfold print at 1.
  unfold bind at 1, try_except. by rewrite (bind_raise _ _ _ _ _ Hget).
Qed.

(** C9 (the code differs).  A KeyboardInterrupt raised while a human player's
    move is collected never reaches the session driver: [HumanPlayer.get_move]
    catches it with the ValueError of a bad entry and prompts again.  So in
    the session of two human players with Ctrl-C at the first prompt,
    [play_game] does not take its interrupt branch: nothing is printed about
    an interrupt, the entries that follow are played, and the call returns
    X_WINS instead of returning at the interrupt. *)
Theorem interrupt_at_prompt_does_not_end_session :
  (∀ name symbol game w w',
     HumanPlayer.get_move name symbol game w ≠ (Raise KeyboardInterrupt, w'))
  ∧ (∀ name symbol game w rest,
       stdin w = Interrupt :: rest →
       HumanPlayer.get_move name symbol game w
       = HumanPlayer.get_move name symbol game
           (set_stdout (stdout w ++ [Prompt name symbol; EnterNumber])
              (set_stdin rest w)))
  ∧ ∃ game' w',
      ConsoleInterface.play_game 10 game0 player1 player2 world_interrupted
      = (Ok (Some X_WINS, game'), w')
      ∧ existsb is_interrupted (stdout w') = false
      ∧ moves_count game' = 5%Z
      ∧ stdin w' = [].
Proof.
  split; [|split].
  - intros name symbol game w w'. apply human_get_move_loop_no_interrupt.
  - apply human_get_move_interrupt.
  - eexists _, _. split; [vm_compute; reflexivity|]. by vm_compute.
Qed.

(** * More of the code *)

(** ** The engine keeps board and fields consistent *)

Lemma count_of_insert v (b : list string) (i : nat) (old c : string) :
  b !! i = Some old →
  (count_of v (<[i := c]> b) + (if decide (old = v) then 1 else 0)
   = count_of v b + (if decide (c = v) then 1 else 0))%nat.
Proof.
  unfold count_of. revert i. induction b as [|x b IH]; intros i Hi; [done|].
  destruct i as [|i]; cbn in Hi.
  - injection Hi as ->. change (<[0%nat := c]> (old :: b)) with (c :: b).
    rewrite !filter_cons. repeat case_decide; cbn [length]; lia.
  - change (<[S i := c]> (x :: b)) with (x :: <[i := c]> b).
    rewrite !filter_cons. specialize (IH i Hi).
    destruct (decide (x = v)); cbn [length]; lia.
Qed.

Lemma first_line_or_none (b : list string) patterns :
  length b = 9%nat → Forall pattern_ok patterns →
  (∃ pre p post m,
     patterns = pre ++ p :: post
     ∧ (∀ q m', q ∈ pre → ¬ full_line b q m') ∧ full_line b p m)
  ∨ (∀ q m', q ∈ patterns → ¬ full_line b q m').
Proof.
  intros Hlen Hok. induction Hok as [|p rest Hp _ IH].
  - right. by intros q m' Hq%not_elem_of_nil.
  - destruct (Val.line b p) eqn:Hline.
    + apply line_true in Hline as [m Hm]; [|done..].
      left. exists [], p, rest, m. split; [done|]. split; [|done].
      by intros q m' Hq%not_elem_of_nil.
    + assert (∀ m', ¬ full_line b p m') as Hnot.
      { intros m' Hm'. assert (Val.line b p = true) as Ht
          by (apply line_true; [done..|by exists m']).
        by rewrite Ht in Hline. }
      destruct IH as [(pre & p' & post & m & -> & Hpre & Hfull) | Hnone].
      * left. exists (p :: pre), p', post, m. split; [done|]. split; [|done].
        intros q m' [-> | Hq]%elem_of_cons; [apply Hnot | by apply Hpre].
      * right. intros q m' [-> | Hq]%elem_of_cons; [apply Hnot | by apply Hnone].
Qed.

(** A line that a move completes holds the mark of the move. *)
Lemma new_line (b : list string) pos cur q m :
  no_line b → (0 ≤ pos)%Z → (pos < Z.of_nat (length b))%Z →
  q ∈ WIN_PATTERNS → full_line (Val.place b pos cur) q m → m = cur.
Proof.
  intros Hno Hpos Hlt Hq [Hm Hall].
  destruct (decide (Exists (λ i, Z.to_nat i = Z.to_nat pos) q)) as [Hex|Hnex].
  - apply Exists_exists in Hex as (i & Hi & Heq). specialize (Hall i Hi).
    unfold Val.place in Hall. rewrite Heq, list_lookup_insert_eq in Hall by lia.
    by injection Hall.
  - destruct (Hno q m Hq). split; [done|]. intros i Hi.
    specialize (Hall i Hi). unfold Val.place in Hall.
    rewrite list_lookup_insert_ne in Hall; [done|].
    intros Heq. apply Hnex. apply Exists_exists. by exists i.
Qed.

Lemma no_line_empty : no_line (replicate 9 " ").
Proof.
  intros q m Hq [Hm Hall].
  pose proof (proj1 (Forall_forall _ _) WIN_PATTERNS_ok q Hq)
    as (p0 & p1 & p2 & -> & H0 & _).
  specialize (Hall p0 (list_elem_of_here _ _)).
  rewrite lookup_replicate_2 in Hall by lia. by injection Hall as <-.
Qed.

Lemma consistent_empty l :
  consistent (replicate 9 " ") (mkTicTacToe l "X" ONGOING 0 None None).
Proof.
  split; [|split]; [by repeat constructor | done |]. cbn.
  split; [apply no_line_empty|]. repeat split; auto.
Qed.

(** The two sides of [count_of_insert], once the cell contents are known. *)
Ltac settle_counts H :=
  repeat first [ rewrite decide_True in H by done
               | rewrite decide_False in H by done ].

Lemma consistent_moved (b : list string) game position :
  length b = 9%nat → consistent b game →
  Val.is_valid_move b game position = true →
  consistent (Val.moved b game position).2 (Val.moved b game position).1.
Proof.
  intros Hlen (Hcells & Hcount & Hstate) Hvalid.
  apply is_valid_move_true in Hvalid as ([H0 H8] & Hcell & Hongoing); [|done].
  rewrite Hongoing in Hstate.
  destruct Hstate as (Hno & Hlt & Hwin & Hpat & Hturn).
  unfold Val.moved. cbn [fst snd].
  set (cur := current_player game) in *.
  set (b' := Val.place b position cur).
  assert (length b' = 9%nat) as Hlen' by (unfold b'; by rewrite place_length).
  assert (cur = "X" ∨ cur = "O") as Hcur by (destruct Hturn as [[? _] | [? _]]; auto).
  assert (Forall (λ c, c = " " ∨ c = "X" ∨ c = "O") b') as Hcells'.
  { unfold b', Val.place. apply Forall_insert; [done|]. destruct Hcur; auto. }
  pose proof (count_of_insert "X" b (Z.to_nat position) " " cur Hcell) as HX.
  pose proof (count_of_insert "O" b (Z.to_nat position) " " cur Hcell) as HO.
  fold (Val.place b position cur) in HX, HO. fold b' in HX, HO.
  assert (∀ q m, q ∈ WIN_PATTERNS → full_line b' q m → m = cur) as Hnew.
  { intros q m Hq Hfull. eapply (new_line b position cur q m); try done; lia. }
  split; [done|].
  destruct (first_line_or_none b' WIN_PATTERNS Hlen' WIN_PATTERNS_ok)
    as [(pre & p & post & m & Hsplit & Hpre & Hfull) | Hnone].
  - assert (m = cur) as -> by
      (apply (Hnew p); [rewrite Hsplit, elem_of_app, elem_of_cons; auto | done]).
    rewrite Hsplit.
    rewrite (update_game_state_first b' _ pre p post cur Hlen');
      [| rewrite <- Hsplit; apply WIN_PATTERNS_ok | done | done].
    rewrite <- Hsplit. unfold Val.switch_player, Val.count_move.
    cbn [board current_player game_state moves_count winner winning_pattern].
    fold cur.
    destruct Hturn as [[Hc Heq] | [Hc Heq]]; rewrite Hc in *;
      settle_counts HX; settle_counts HO;
      change (String.eqb "X" "X") with true; change (String.eqb "O" "X") with false;
      cbn iota; rewrite bool_decide_eq_false_2 by done;
      cbn [board current_player game_state moves_count winner winning_pattern].
    + split; [lia|]. split; [done|]. split; [done|]. split; [lia|].
      split; [done|]. by exists pre, p, post.
    + split; [lia|]. split; [done|]. split; [done|]. split; [lia|].
      split; [done|]. by exists pre, p, post.
  - rewrite (update_game_state_none b' _ WIN_PATTERNS Hlen' WIN_PATTERNS_ok Hnone).
    unfold Val.switch_player, Val.count_move.
    cbn [board current_player game_state moves_count winner winning_pattern].
    fold cur.
    destruct (Z.eqb_spec (moves_count game + 1) 9) as [Hnine|Hnine];
      cbn [board current_player game_state moves_count winner winning_pattern].
    + rewrite bool_decide_eq_false_2 by done.
      cbn [board current_player game_state moves_count winner winning_pattern].
      fold cur.
      destruct Hturn as [[Hc Heq] | [Hc Heq]]; rewrite Hc in *;
        settle_counts HX; settle_counts HO; [|lia].
      split; [lia|]. repeat split; try done. lia.
    + rewrite Hongoing. rewrite bool_decide_eq_true_2 by done.
      cbn [board current_player game_state moves_count winner winning_pattern].
      fold cur.
      destruct Hturn as [[Hc Heq] | [Hc Heq]]; rewrite Hc in *;
        settle_counts HX; settle_counts HO;
        change (String.eqb "X" "X") with true;
        change (String.eqb "O" "X") with false; cbn iota.
      * split; [lia|]. split; [done|]. split; [lia|]. split; [done|].
        split; [done|]. right. split; [done|lia].
      * split; [lia|]. split; [done|]. split; [lia|]. split; [done|].
        split; [done|]. left. split; [done|lia].
Qed.

Lemma reachable_consistent w game :
  reachable w game →
  ∃ b : list string,
    heap w !! board game = Some b ∧ length b = 9%nat ∧ consistent b game.
Proof.
  induction 1 as [w game w' Hinit | w game game' w' _ _ Hreset
                  | w game position r game' w' _ IH Hmove | w game w' _ IH Hsame].
  - rewrite TicTacToe_init_run in Hinit. injection Hinit as <- <-.
    exists (replicate 9 " "). cbn [heap set_heap board].
    split; [apply lookup_insert_eq|]. split; [done | apply consistent_empty].
  - unfold reset, bind, list_new, ret in Hreset. injection Hreset as <- <-.
    exists (replicate 9 " "). cbn [heap set_heap board].
    split; [apply lookup_insert_eq|]. split; [done | apply consistent_empty].
  - destruct IH as (b & Hl & Hlen & Hcons).
    rewrite (make_move_run w game position b Hl Hlen) in Hmove.
    destruct (make_move_board b game position) as [Hboard Hlen'].
    pose proof (consistent_moved b game position Hlen Hcons) as Hmoved.
    unfold Val.make_move in *.
    destruct (Val.is_valid_move b game position) eqn:Hvalid.
    + specialize (Hmoved eq_refl).
      destruct (Val.moved b game position) as [g1 b1]. cbn [fst snd] in *.
      injection Hmove as <- <- <-. exists b1. rewrite Hboard. cbn [heap set_heap].
      split; [apply lookup_insert_eq|]. split; [congruence | done].
    + cbn [fst snd] in *. injection Hmove as <- <- <-. exists b.
      cbn [heap set_heap]. by rewrite lookup_insert_eq.
  - destruct IH as (b & Hl & Hrest). exists b. by rewrite Hsame.
Qed.

Lemma reachable_mid : reachable world_mid game_mid.
Proof.
  apply (reachable_make_moves [0; 4; 1]%Z world0 game0);
    [apply reachable_world0 | by vm_compute].
Qed.

(** The first full pattern of a list is one pattern. *)
Lemma first_full_unique (b : list string) (l : list (list Z)) pre p post pre' p' post'
    m m' :
  l = pre ++ p :: post → l = pre' ++ p' :: post' →
  (∀ q m0, q ∈ pre → ¬ full_line b q m0) → full_line b p m →
  (∀ q m0, q ∈ pre' → ¬ full_line b q m0) → full_line b p' m' →
  p = p'.
Proof.
  intros Hl Hl' Hpre Hfull Hpre' Hfull'.
  assert (l !! length pre = Some p) as Hp by (rewrite Hl; apply list_lookup_middle; done).
  assert (l !! length pre' = Some p') as Hp'
    by (rewrite Hl'; apply list_lookup_middle; done).
  destruct (Nat.lt_trichotomy (length pre) (length pre')) as [Hlt | [Heq | Hgt]].
  - rewrite Hl', lookup_app_l in Hp by done.
    destruct (Hpre' p m); [by eapply list_elem_of_lookup_2 | done].
  - rewrite Heq in Hp. congruence.
  - rewrite Hl, lookup_app_l in Hp' by done.
    destruct (Hpre p' m'); [by eapply list_elem_of_lookup_2 | done].
Qed.

(** X1.  In every state of a game reached from [TicTacToe()] by calls of
    [make_move] and [reset], the outcome is the one the board shows: ONGOING
    exactly when no pattern is full and fewer than 9 moves were made, DRAW
    exactly when no pattern is full and 9 moves were made, X_WINS (O_WINS)
    exactly when some pattern is full of "X" (of "O").  The winner is
    recorded exactly when a pattern is full of that mark.  The winning line
    is the first full pattern in the order of WIN_PATTERNS: it is recorded
    as [p] exactly when [p] is full and no pattern before it is, and none
    is recorded exactly when no pattern is full. *)
Theorem outcome_matches_board w game :
  reachable w game →
  ∃ b : list string,
    heap w !! board game = Some b ∧ length b = 9%nat
    ∧ (game_state game = ONGOING ↔ no_line b ∧ (moves_count game < 9)%Z)
    ∧ (game_state game = DRAW ↔ no_line b ∧ moves_count game = 9%Z)
    ∧ (game_state game = X_WINS ↔ ∃ q, q ∈ WIN_PATTERNS ∧ full_line b q "X")
    ∧ (game_state game = O_WINS ↔ ∃ q, q ∈ WIN_PATTERNS ∧ full_line b q "O")
    ∧ (∀ m, winner game = Some m ↔ ∃ q, q ∈ WIN_PATTERNS ∧ full_line b q m)
    ∧ (∀ p, winning_pattern game = Some p ↔
         ∃ pre post m,
           WIN_PATTERNS = pre ++ p :: post
           ∧ full_line b p m ∧ ∀ q m', q ∈ pre → ¬ full_line b q m')
    ∧ (∀ p m, winning_pattern game = Some p → winner game = Some m → full_line b p m)
    ∧ (winning_pattern game = None ↔ no_line b).
Proof.
  intros (b & Hl & Hlen & Hcells & Hcount & Hstate)%reachable_consistent.
  exists b. split; [done|]. split; [done|].
  assert (∀ pre (p : list Z) post, WIN_PATTERNS = pre ++ p :: post → p ∈ WIN_PATTERNS)
    as Hin by (intros pre p post ->; rewrite elem_of_app, elem_of_cons; auto).
  destruct (game_state game) eqn:Hs.
  - destruct Hstate as (Hno & Hlt & Hwin & Hpat & _).
    split; [done|]. split; [split; [done | intros [_ ?]; lia]|].
    split; [split; [done | intros (q & Hq & Hfull); destruct (Hno q _ Hq Hfull)]|].
    split; [split; [done | intros (q & Hq & Hfull); destruct (Hno q _ Hq Hfull)]|].
    split.
    { intros m. rewrite Hwin.
      split; [done | intros (q & Hq & Hfull); destruct (Hno q m Hq Hfull)]. }
    rewrite Hpat. split; [|split; [done|done]].
    intros p. split; [done|].
    intros (pre & post & m & Hsplit & Hfull & _).
    destruct (Hno p m); [by eapply Hin | done].
  - destruct Hstate as (Hwin & _ & _ & Hall & pre & p & post & Hsplit & Hpat
                        & Hfull & Hpre).
    pose proof (Hin _ _ _ Hsplit) as Hp.
    split; [split; [done | intros [Hno _]; destruct (Hno p "X" Hp Hfull)]|].
    split; [split; [done | intros [Hno _]; destruct (Hno p "X" Hp Hfull)]|].
    split; [split; [intros _; by exists p | done]|].
    split; [split; [done | intros (q & Hq & Hq'); by apply Hall in Hq']|].
    split.
    { intros m. rewrite Hwin. split; [intros [= <-]; by exists p|].
      by intros (q & Hq & ->%Hall). }
    rewrite Hpat, Hwin. split; [|split].
    + intros p'. split.
      * intros [= <-]. by exists pre, post, "X".
      * intros (pre' & post' & m' & Hsplit' & Hfull' & Hpre'). f_equal.
        by eapply (first_full_unique b WIN_PATTERNS pre p post pre' p' post').
    + by intros p' m [= <-] [= <-].
    + split; [done | intros Hno; destruct (Hno p "X" Hp Hfull)].
  - destruct Hstate as (Hwin & _ & _ & Hall & pre & p & post & Hsplit & Hpat
                        & Hfull & Hpre).
    pose proof (Hin _ _ _ Hsplit) as Hp.
    split; [split; [done | intros [Hno _]; destruct (Hno p "O" Hp Hfull)]|].
    split; [split; [done | intros [Hno _]; destruct (Hno p "O" Hp Hfull)]|].
    split; [split; [done | intros (q & Hq & Hq'); by apply Hall in Hq']|].
    split; [split; [intros _; by exists p | done]|].
    split.
    { intros m. rewrite Hwin. split; [intros [= <-]; by exists p|].
      by intros (q & Hq & ->%Hall). }
    rewrite Hpat, Hwin. split; [|split].
    + intros p'. split.
      * intros [= <-]. by exists pre, post, "O".
      * intros (pre' & post' & m' & Hsplit' & Hfull' & Hpre'). f_equal.
        by eapply (first_full_unique b WIN_PATTERNS pre p post pre' p' post').
    + by intros p' m [= <-] [= <-].
    + split; [done | intros Hno; destruct (Hno p "O" Hp Hfull)].
  - destruct Hstate as (Hno & Hnine & Hwin & Hpat & _).
    split; [split; [done | intros [_ ?]; lia]|]. split; [done|].
    split; [split; [done | intros (q & Hq & Hfull); destruct (Hno q _ Hq Hfull)]|].
    split; [split; [done | intros (q & Hq & Hfull); destruct (Hno q _ Hq Hfull)]|].
    split.
    { intros m. rewrite Hwin.
      split; [done | intros (q & Hq & Hfull); destruct (Hno q m Hq Hfull)]. }
    rewrite Hpat. split; [|split; [done|done]].
    intros p. split; [done|].
    intros (pre & post & m & Hsplit & Hfull & _).
    destruct (Hno p m); [by eapply Hin | done].
Qed.

Lemma reachable_double : reachable world_double game_double.
Proof.
  apply (reachable_make_moves [1; 4; 2; 5; 3; 7; 6; 8; 0]%Z world0 game0);
    [apply reachable_world0 | by vm_compute].
Qed.

Lemma outcome_matches_board_witness :
  reachable world_double game_double
  ∧ ∃ b : list string,
      heap world_double !! board game_double = Some b ∧ length b = 9%nat
      ∧ (game_state game_double = ONGOING
         ↔ no_line b ∧ (moves_count game_double < 9)%Z)
      ∧ (game_state game_double = DRAW ↔ no_line b ∧ moves_count game_double = 9%Z)
      ∧ (game_state game_double = X_WINS
         ↔ ∃ q, q ∈ WIN_PATTERNS ∧ full_line b q "X")
      ∧ (game_state game_double = O_WINS
         ↔ ∃ q, q ∈ WIN_PATTERNS ∧ full_line b q "O")
      ∧ (∀ m, winner game_double = Some m
              ↔ ∃ q, q ∈ WIN_PATTERNS ∧ full_line b q m)
      ∧ (∀ p, winning_pattern game_double = Some p ↔
           ∃ pre post m,
             WIN_PATTERNS = pre ++ p :: post
             ∧ full_line b p m ∧ ∀ q m', q ∈ pre → ¬ full_line b q m')
      ∧ (∀ p m, winning_pattern game_double = Some p → winner game_double = Some m →
                full_line b p m)
      ∧ (winning_pattern game_double = None ↔ no_line b).
Proof.
  split; [apply reachable_double|].
  exact (outcome_matches_board world_double game_double reachable_double).
Defined.

(** ** The marks alternate *)

(** X2.  In every state of a game reached from [TicTacToe()] by calls of
    [make_move] and [reset], the cells hold " ", "X" or "O", the move count
    is the number of marks, and "X" has as many marks as "O" or one more.
    While the game is ongoing, the current player is "X" exactly when the
    two have equally many marks; once it is over, the current player is
    still the one who moved last, so it is "X" exactly when "X" has one
    more. *)
Theorem marks_alternate w game :
  reachable w game →
  ∃ b : list string,
    heap w !! board game = Some b
    ∧ Forall (λ c, c = " " ∨ c = "X" ∨ c = "O") b
    ∧ moves_count game = Z.of_nat (count_of "X" b + count_of "O" b)
    ∧ (count_of "X" b = count_of "O" b ∨ count_of "X" b = S (count_of "O" b))
    ∧ (current_player game = "X" ∨ current_player game = "O")
    ∧ (game_state game = ONGOING →
       (current_player game = "X" ↔ count_of "X" b = count_of "O" b))
    ∧ (game_state game ≠ ONGOING →
       (current_player game = "X" ↔ count_of "X" b = S (count_of "O" b))).
Proof.
  intros (b & Hl & Hlen & Hcells & Hcount & Hstate)%reachable_consistent.
  exists b. split; [done|]. split; [done|]. split; [done|].
  destruct (game_state game) eqn:Hs.
  - destruct Hstate as (_ & _ & _ & _ & [[Hc Heq] | [Hc Heq]]); rewrite Hc.
    + split; [by left|]. split; [by left|]. split; [done|]. by intros [].
    + split; [by right|]. split; [by right|]. split; [|by intros []].
      intros _. split; [done | lia].
  - destruct Hstate as (_ & Hc & Heq & _). rewrite Hc.
    split; [by right|]. split; [by left|]. split; [done|]. done.
  - destruct Hstate as (_ & Hc & Heq & _). rewrite Hc.
    split; [by left|]. split; [by right|]. split; [done|].
    intros _. split; [done | lia].
  - destruct Hstate as (_ & _ & _ & _ & Hc & Heq). rewrite Hc.
    split; [by right|]. split; [by left|]. split; [done|]. done.
Qed.

Lemma marks_alternate_witness :
  reachable world_mid game_mid
  ∧ ∃ b : list string,
      heap world_mid !! board game_mid = Some b
      ∧ Forall (λ c, c = " " ∨ c = "X" ∨ c = "O") b
      ∧ moves_count game_mid = Z.of_nat (count_of "X" b + count_of "O" b)
      ∧ (count_of "X" b = count_of "O" b ∨ count_of "X" b = S (count_of "O" b))
      ∧ (current_player game_mid = "X" ∨ current_player game_mid = "O")
      ∧ (game_state game_mid = ONGOING →
         (current_player game_mid = "X" ↔ count_of "X" b = count_of "O" b))
      ∧ (game_state game_mid ≠ ONGOING →
         (current_player game_mid = "X" ↔ count_of "X" b = S (count_of "O" b))).
Proof.
  split; [apply reachable_mid|].
  exact (marks_alternate world_mid game_mid reachable_mid).
Defined.

(** ** Marks stay, and a finished game stays finished *)

Lemma set_heap_same w l (b : list string) :
  heap w !! l = Some b → set_heap (<[l := b]> (heap w)) w = w.
Proof. intros Hl. rewrite insert_id by done. apply set_heap_id. Qed.

Lemma make_move_over w game position (b : list string) :
  heap w !! board game = Some b → length b = 9%nat →
  game_state game ≠ ONGOING →
  is_valid_move game position w = (Ok false, w)
  ∧ make_move game position w = (Ok (false, game), w).
Proof.
  intros Hl Hlen Hover.
  assert (Val.is_valid_move b game position = false) as Hv.
  { unfold Val.is_valid_move. rewrite (bool_decide_eq_false_2 _ Hover).
    by rewrite andb_false_r. }
  split.
  - by rewrite (is_valid_move_run w (board game) b Hl Hlen), Hv.
  - rewrite (make_move_run w game position b Hl Hlen). unfold Val.make_move.
    rewrite Hv. cbn [fst snd]. by rewrite set_heap_same.
Qed.

Lemma val_make_move_keeps (b : list string) game position :
  length b = 9%nat →
  let r := Val.make_move b game position in
  (∀ i c, b !! i = Some c → c ≠ " " → r.2 !! i = Some c)
  ∧ (moves_count game ≤ moves_count r.1.2 ≤ moves_count game + 1)%Z
  ∧ (count_empty r.2 ≤ count_empty b)%nat.
Proof.
  intros Hlen. unfold Val.make_move.
  destruct (Val.is_valid_move b game position) eqn:Hv; cbn [fst snd];
    [|split; [done|]; split; lia].
  apply is_valid_move_true in Hv as (Hpos & Hcell & Hongoing); [|done].
  unfold Val.moved. cbn [fst snd].
  destruct (switch_player_fields
              (Val.update_game_state_from
                 (Val.place b position (current_player game))
                 (Val.count_move game) WIN_PATTERNS)) as (_ & _ & -> & _).
  destruct (update_game_state_board
              (Val.place b position (current_player game))
              (Val.count_move game) WIN_PATTERNS) as (_ & -> & _).
  cbn [Val.count_move moves_count]. split; [|split; [lia|]].
  - intros i c Hi Hc. unfold Val.place.
    destruct (decide (i = Z.to_nat position)) as [->|Hne].
    + rewrite Hcell in Hi. by injection Hi as <-.
    + by rewrite list_lookup_insert_ne.
  - unfold Val.place.
    destruct (decide (current_player game = " ")) as [->|Hm].
    + rewrite list_insert_id by done. lia.
    + pose proof (count_empty_insert b (Z.to_nat position) _ Hcell Hm). lia.
Qed.

Lemma val_make_moves_keeps positions : ∀ (b : list string) game,
  length b = 9%nat →
  let r := Val.make_moves b game positions in
  length r.2 = 9%nat
  ∧ board r.1 = board game
  ∧ (∀ i c, b !! i = Some c → c ≠ " " → r.2 !! i = Some c)
  ∧ (moves_count game ≤ moves_count r.1
     ≤ moves_count game + Z.of_nat (length positions))%Z
  ∧ (count_empty r.2 ≤ count_empty b)%nat.
Proof.
  induction positions as [|p rest IH]; intros b game Hlen; cbn [Val.make_moves].
  - cbn [fst snd length]. repeat split; try done; lia.
  - destruct (val_make_move_keeps b game p Hlen) as (Hkeep & Hcount & Hempty).
    destruct (make_move_board b game p) as [Hboard Hlen'].
    destruct (Val.make_move b game p) as [[r g1] b1]. cbn [fst snd] in *.
    destruct (IH b1 g1) as (Hlen2 & Hboard2 & Hkeep2 & Hcount2 & Hempty2);
      [congruence|].
    split; [done|]. split; [congruence|]. split; [|split; [|lia]].
    + intros i c Hi Hc. apply Hkeep2; [by apply Hkeep | done].
    + cbn [length]. lia.
Qed.

(** X3.  Whatever positions [make_move] is called with, one after the
    other, every mark that is on the board stays where it is; the board
    keeps its nine cells and its place in the store; the move count never
    goes down and goes up by at most one per call; no other list object,
    and nothing on the console, changes.  On a game that is over the calls
    change nothing at all. *)
Theorem make_move_never_removes_a_mark positions w game game' w' (b : list string) :
  heap w !! board game = Some b → length b = 9%nat →
  make_moves game positions w = (Ok game', w') →
  ∃ b' : list string,
    heap w' !! board game' = Some b' ∧ length b' = 9%nat
    ∧ board game' = board game
    ∧ (∀ i c, b !! i = Some c → c ≠ " " → b' !! i = Some c)
    ∧ (count_empty b' ≤ count_empty b)%nat
    ∧ (moves_count game ≤ moves_count game'
       ≤ moves_count game + Z.of_nat (length positions))%Z
    ∧ (∀ l, l ≠ board game → heap w' !! l = heap w !! l)
    ∧ stdin w' = stdin w ∧ stdout w' = stdout w
    ∧ (game_state game ≠ ONGOING → game' = game ∧ w' = w).
Proof.
  intros Hl Hlen Hrun.
  rewrite (make_moves_run positions w game b Hl Hlen) in Hrun.
  injection Hrun as <- <-.
  destruct (val_make_moves_keeps positions b game Hlen)
    as (Hlen' & Hboard & Hkeep & Hcount & Hempty).
  exists (Val.make_moves b game positions).2. rewrite Hboard.
  cbn [heap set_heap stdin stdout].
  split; [apply lookup_insert_eq|]. split; [done|]. split; [done|].
  split; [done|]. split; [done|]. split; [done|].
  split; [intros l Hne; by rewrite lookup_insert_ne|].
  split; [done|]. split; [done|].
  intros Hover.
  assert (∀ ps, Val.make_moves b game ps = (game, b)) as Hsame.
  { induction ps as [|p ps IH]; [done|]. cbn [Val.make_moves].
    unfold Val.make_move, Val.is_valid_move.
    rewrite (bool_decide_eq_false_2 _ Hover), andb_false_r. exact IH. }
  rewrite Hsame. cbn [fst snd]. split; [done|]. by apply set_heap_same.
Qed.

Lemma make_move_never_removes_a_mark_witness :
  heap world_mid !! board game_mid = Some board_mid
  ∧ length board_mid = 9%nat
  ∧ make_moves game_mid [0; 7; 2; 5]%Z world_mid
    = (Ok game_won, world_won)
  ∧ ∃ b' : list string,
      heap world_won !! board game_won = Some b' ∧ length b' = 9%nat
      ∧ board game_won = board game_mid
      ∧ (∀ i c, board_mid !! i = Some c → c ≠ " " → b' !! i = Some c)
      ∧ (count_empty b' ≤ count_empty board_mid)%nat
      ∧ (moves_count game_mid ≤ moves_count game_won
         ≤ moves_count game_mid + Z.of_nat (length [0; 7; 2; 5]%Z))%Z
      ∧ (∀ l, l ≠ board game_mid → heap world_won !! l = heap world_mid !! l)
      ∧ stdin world_won = stdin world_mid ∧ stdout world_won = stdout world_mid
      ∧ (game_state game_mid ≠ ONGOING → game_won = game_mid ∧ world_won = world_mid).
Proof.
  split; [reflexivity|]. split; [reflexivity|]. split; [by vm_compute|].
  apply (make_move_never_removes_a_mark [0; 7; 2; 5]%Z world_mid game_mid
           game_won world_won board_mid); [reflexivity | reflexivity | by vm_compute].
Defined.

(** ** get_available_moves *)

Lemma ascending_filter (P : Z → Prop) `{∀ x, Decision (P x)} (l : list Z) :
  ascending l → ascending (filter P l).
Proof.
  induction l as [|x l IH]; [done|]. intros [Hx Hl]. rewrite filter_cons.
  destruct (decide (P x)); [|by apply IH]. split; [|by apply IH].
  apply Forall_forall. intros y [_ Hy]%list_elem_of_filter.
  by apply (proj1 (Forall_forall _ _) Hx).
Qed.

Lemma ascending_range_9 : ascending (range 9).
Proof.
  change (range 9) with [0; 1; 2; 3; 4; 5; 6; 7; 8]%Z. cbn [ascending].
  repeat first [done | constructor].
Qed.

Lemma filter_agree {A} (P Q : A → Prop) `{∀ x, Decision (P x)}
    `{∀ x, Decision (Q x)} (l : list A) :
  (∀ x, x ∈ l → P x ↔ Q x) → filter P l = filter Q l.
Proof.
  induction l as [|x l IH]; [done|]. intros Hagree. rewrite !filter_cons.
  rewrite IH by (intros y Hy; apply Hagree; by right).
  pose proof (Hagree x (list_elem_of_here _ _)).
  destruct (decide (P x)), (decide (Q x)); tauto.
Qed.

Lemma available_length (b : list string) :
  length (filter (λ i, Val.cell b i = " ") (range (length b))) = count_empty b.
Proof.
  induction b as [|x b IH] using rev_ind; [done|].
  rewrite length_app. cbn [length]. unfold range.
  rewrite Nat.add_1_r, seq_S, fmap_app, filter_app, length_app. cbn [fmap list_fmap].
  unfold count_empty. rewrite filter_app, length_app.
  fold (count_empty b). rewrite <- IH. f_equal.
  - f_equal. apply filter_agree. intros i (k & -> & Hk%elem_of_seq)%list_elem_of_fmap.
    unfold Val.cell. rewrite Nat2Z.id, lookup_app_l by lia. done.
  - cbn [Nat.add]. rewrite !filter_cons, !filter_nil. unfold Val.cell.
    rewrite Nat2Z.id, list_lookup_middle by done. cbn [default].
    unfold id. destruct (decide (x = " ")); done.
Qed.

Lemma available_elem_of (b : list string) i :
  length b = 9%nat →
  i ∈ Val.get_available_moves b ↔ (0 ≤ i ≤ 8)%Z ∧ b !! Z.to_nat i = Some " ".
Proof.
  intros Hlen. unfold Val.get_available_moves. rewrite list_elem_of_filter.
  split.
  - intros [Hc Hi%elem_of_range_9]. split; [lia|]. apply cell_lookup; [lia | done].
  - intros [Hi Hc]. split; [apply cell_lookup; [lia | done] | apply in_range_9; lia].
Qed.

(** X4.  On a reachable game [get_available_moves] returns, in increasing
    order, exactly the indices 0..8 of the empty cells, and their number is
    9 minus the move count; the world is as it was.  It does not look at the
    outcome: while the game is ongoing the list is not empty and holds
    exactly the moves [is_valid_move] accepts, but once the game is over
    [is_valid_move] rejects every position, whatever the list holds; after
    a draw the list is empty. *)
Theorem get_available_moves_spec w game :
  reachable w game →
  ∃ (b : list string) moves,
    heap w !! board game = Some b
    ∧ get_available_moves game w = (Ok moves, w)
    ∧ ascending moves
    ∧ (∀ i, i ∈ moves ↔ (0 ≤ i ≤ 8)%Z ∧ b !! Z.to_nat i = Some " ")
    ∧ Z.of_nat (length moves) = (9 - moves_count game)%Z
    ∧ (game_state game = ONGOING →
       moves ≠ [] ∧ ∀ i, i ∈ moves ↔ is_valid_move game i w = (Ok true, w))
    ∧ (game_state game ≠ ONGOING →
       ∀ i, is_valid_move game i w = (Ok false, w))
    ∧ (game_state game = DRAW → moves = []).
Proof.
  intros Hreach.
  destruct (reachable_inv w game Hreach) as (b & Hl & Hlen & Hcount & _ & Hnine).
  exists b, (Val.get_available_moves b). split; [done|].
  split; [by apply (get_available_moves_run w (board game) b)|].
  split; [apply ascending_filter, ascending_range_9|].
  split; [intros i; by apply available_elem_of|].
  assert (Z.of_nat (length (Val.get_available_moves b)) = (9 - moves_count game)%Z)
    as Hlength.
  { unfold Val.get_available_moves. pose proof (available_length b) as Ha.
    rewrite Hlen in Ha. rewrite Ha. pose proof (count_empty_marked b). lia. }
  split; [done|]. split; [|split].
  - intros Hongoing. split.
    + intros Hnil. rewrite Hnil in Hlength. cbn in Hlength.
      apply (Hnine Hongoing). lia.
    + intros i. rewrite (is_valid_move_run w (board game) b Hl Hlen game i eq_refl).
      rewrite available_elem_of by done. split.
      * intros [Hi Hc]. do 2 f_equal. apply is_valid_move_true; done.
      * intros [= Hv]. apply is_valid_move_true in Hv as (? & ? & _); done.
  - intros Hover i. by apply (make_move_over w game i b).
  - intros Hdraw.
    destruct (reachable_consistent w game Hreach) as (b2 & Hl2 & _ & _ & _ & Hstate).
    rewrite Hdraw in Hstate. destruct Hstate as (_ & Hmoves & _).
    rewrite Hmoves in Hlength. by destruct (Val.get_available_moves b).
Qed.

Lemma get_available_moves_spec_witness :
  reachable world_won game_won
  ∧ ∃ (b : list string) moves,
      heap world_won !! board game_won = Some b
      ∧ get_available_moves game_won world_won = (Ok moves, world_won)
      ∧ ascending moves
      ∧ (∀ i, i ∈ moves ↔ (0 ≤ i ≤ 8)%Z ∧ b !! Z.to_nat i = Some " ")
      ∧ Z.of_nat (length moves) = (9 - moves_count game_won)%Z
      ∧ (game_state game_won = ONGOING →
         moves ≠ []
         ∧ ∀ i, i ∈ moves ↔ is_valid_move game_won i world_won = (Ok true, world_won))
      ∧ (game_state game_won ≠ ONGOING →
         ∀ i, is_valid_move game_won i world_won = (Ok false, world_won))
      ∧ (game_state game_won = DRAW → moves = []).
Proof.
  split; [apply reachable_won|].
  exact (get_available_moves_spec world_won game_won reachable_won).
Defined.

(** ** _evaluate_board and the scores of _minimax *)

Lemma evaluate_from_first (b : list string) self pre pattern post m :
  length b = 9%nat → Forall pattern_ok (pre ++ pattern :: post) →
  (∀ q m', q ∈ pre → ¬ full_line b q m') → full_line b pattern m →
  Search.evaluate_from self b (pre ++ pattern :: post)
  = if String.eqb m (SmartAI.symbol self) then 10%Z else (-10)%Z.
Proof.
  intros Hlen Hok Hpre Hfull. induction pre as [|q pre IH]; cbn.
  - apply Forall_cons in Hok as [Hp _].
    assert (Val.line b pattern = true) as -> by (apply line_true; [done..|by exists m]).
    by rewrite (full_line_head b pattern m).
  - apply Forall_cons in Hok as [Hq Hok].
    destruct (Val.line b q) eqn:Hline.
    + apply line_true in Hline as [m' Hm']; [|done..].
      destruct (Hpre q m'); [set_solver | done].
    + apply IH; [done|]. intros q' m' Hq'. apply Hpre. set_solver.
Qed.

Lemma evaluate_from_none (b : list string) self patterns :
  length b = 9%nat → Forall pattern_ok patterns →
  (∀ q m', q ∈ patterns → ¬ full_line b q m') →
  Search.evaluate_from self b patterns = 0%Z.
Proof.
  intros Hlen Hok Hnone. induction Hok as [|q rest Hq _ IH]; cbn; [done|].
  destruct (Val.line b q) eqn:Hline.
  - apply line_true in Hline as [m' Hm']; [|done..].
    destruct (Hnone q m'); [set_solver | done].
  - apply IH. intros q' m' Hq'. apply Hnone. set_solver.
Qed.

(** What [Search.evaluate] is, by the first full pattern. *)
Lemma evaluate_cases (b : list string) self :
  length b = 9%nat →
  (Search.evaluate self b = 0%Z ∧ no_line b)
  ∨ (∃ pre p post m,
       WIN_PATTERNS = pre ++ p :: post
       ∧ (∀ q m', q ∈ pre → ¬ full_line b q m') ∧ full_line b p m
       ∧ Search.evaluate self b
         = if String.eqb m (SmartAI.symbol self) then 10%Z else (-10)%Z).
Proof.
  intros Hlen. unfold Search.evaluate.
  destruct (first_line_or_none b WIN_PATTERNS Hlen WIN_PATTERNS_ok)
    as [(pre & p & post & m & Hsplit & Hpre & Hfull) | Hnone].
  - right. exists pre, p, post, m. split; [done|]. split; [done|]. split; [done|].
    rewrite Hsplit. apply evaluate_from_first; try done.
    rewrite <- Hsplit. apply WIN_PATTERNS_ok.
  - left. split; [|done]. by apply evaluate_from_none; [|apply WIN_PATTERNS_ok|].
Qed.

Lemma split_elem_of {A} (pre : list A) p post l : l = pre ++ p :: post → p ∈ l.
Proof. intros ->. rewrite elem_of_app, elem_of_cons. auto. Qed.

(** X5.  On a board of nine cells [_evaluate_board] returns -10, 0 or 10 and
    leaves the world as it was: 0 exactly when no pattern is full; 10 only
    when a pattern is full of the player's own symbol; -10 only when a
    pattern is full of another mark; and when several patterns are full,
    the first one in the order of WIN_PATTERNS decides. *)
Theorem evaluate_board_spec self w l (b : list string) :
  heap w !! l = Some b → length b = 9%nat →
  ∃ score,
    SmartAI._evaluate_board self l w = (Ok score, w)
    ∧ (score = (-10)%Z ∨ score = 0%Z ∨ score = 10%Z)
    ∧ (score = 0%Z ↔ no_line b)
    ∧ (score = 10%Z → ∃ q, q ∈ WIN_PATTERNS ∧ full_line b q (SmartAI.symbol self))
    ∧ (score = (-10)%Z →
       ∃ q m, q ∈ WIN_PATTERNS ∧ full_line b q m ∧ m ≠ SmartAI.symbol self)
    ∧ (∀ pre p post m,
         WIN_PATTERNS = pre ++ p :: post →
         (∀ q m', q ∈ pre → ¬ full_line b q m') → full_line b p m →
         score = if decide (m = SmartAI.symbol self) then 10%Z else (-10)%Z).
Proof.
  intros Hl Hlen. exists (Search.evaluate self b).
  split; [by apply evaluate_board_run|].
  assert (∀ pre p post m,
            WIN_PATTERNS = pre ++ p :: post →
            (∀ q m', q ∈ pre → ¬ full_line b q m') → full_line b p m →
            Search.evaluate self b
            = if decide (m = SmartAI.symbol self) then 10%Z else (-10)%Z) as Hfirst.
  { intros pre p post m Hsplit Hpre Hfull. unfold Search.evaluate. rewrite Hsplit.
    rewrite (evaluate_from_first b self pre p post m); try done.
    - destruct (String.eqb_spec m (SmartAI.symbol self)), (decide (m = SmartAI.symbol self));
        done.
    - rewrite <- Hsplit. apply WIN_PATTERNS_ok. }
  destruct (evaluate_cases b self Hlen)
    as [[Hzero Hno] | (pre & p & post & m & Hsplit & Hpre & Hfull & Hscore)].
  - rewrite Hzero. split; [auto|]. split; [done|]. split; [done|]. split; [done|].
    intros pre p post m Hsplit _ Hfull. destruct (Hno p m); [|done].
    by eapply split_elem_of.
  - pose proof (split_elem_of _ _ _ _ Hsplit) as Hp.
    rewrite Hscore. split; [|split; [|split; [|split]]].
    + destruct (String.eqb m (SmartAI.symbol self)); auto.
    + split; [by destruct (String.eqb m (SmartAI.symbol self))|].
      intros Hno. by destruct (Hno p m).
    + destruct (String.eqb_spec m (SmartAI.symbol self)) as [->|]; [|done].
      intros _. by exists p.
    + destruct (String.eqb_spec m (SmartAI.symbol self)) as [->|Hne]; [done|].
      intros _. by exists p, m.
    + rewrite <- Hscore. exact Hfirst.
Qed.

Lemma evaluate_board_spec_witness :
  heap world_won !! 1%positive = Some board_won
  ∧ length board_won = 9%nat
  ∧ ∃ score,
      SmartAI._evaluate_board (SmartAI.init "O" "" "hard") 1%positive world_won
      = (Ok score, world_won)
      ∧ (score = (-10)%Z ∨ score = 0%Z ∨ score = 10%Z)
      ∧ (score = 0%Z ↔ no_line board_won)
      ∧ (score = 10%Z →
         ∃ q, q ∈ WIN_PATTERNS
              ∧ full_line board_won q (SmartAI.symbol (SmartAI.init "O" "" "hard")))
      ∧ (score = (-10)%Z →
         ∃ q m, q ∈ WIN_PATTERNS ∧ full_line board_won q m
                ∧ m ≠ SmartAI.symbol (SmartAI.init "O" "" "hard"))
      ∧ (∀ pre p post m,
           WIN_PATTERNS = pre ++ p :: post →
           (∀ q m', q ∈ pre → ¬ full_line board_won q m') → full_line board_won p m →
           score = if decide (m = SmartAI.symbol (SmartAI.init "O" "" "hard"))
                   then 10%Z else (-10)%Z).
Proof.
  split; [reflexivity|]. split; [reflexivity|].
  exact (evaluate_board_spec (SmartAI.init "O" "" "hard") world_won 1%positive
           board_won eq_refl eq_refl).
Defined.

Lemma evaluate_range (b : list string) self :
  length b = 9%nat →
  Search.evaluate self b = (-10)%Z ∨ Search.evaluate self b = 0%Z
  ∨ Search.evaluate self b = 10%Z.
Proof.
  intros Hlen.
  destruct (evaluate_cases b self Hlen)
    as [[-> _] | (_ & _ & _ & m & _ & _ & _ & ->)]; [auto|].
  destruct (String.eqb m (SmartAI.symbol self)); auto.
Qed.

Lemma terminal_iff (b : list string) self :
  length b = 9%nat →
  Search.terminal self b = true
  ↔ (∃ q m, q ∈ WIN_PATTERNS ∧ full_line b q m) ∨ " " ∉ b.
Proof.
  intros Hlen. unfold Search.terminal. rewrite orb_true_iff, !negb_true_iff.
  rewrite Z.eqb_neq, <- not_true_iff_false, contains_elem_of.
  destruct (evaluate_cases b self Hlen)
    as [[Hzero Hno] | (pre & p & post & m & Hsplit & _ & Hfull & Hscore)].
  - split; [intros [? | ?]; [done | by right]|].
    intros [(q & m & Hq & Hfull) | ?]; [by destruct (Hno q m) | by right].
  - split; intros _; left.
    + exists p, m. split; [by eapply split_elem_of | done].
    + rewrite Hscore. by destruct (String.eqb m (SmartAI.symbol self)).
Qed.

Lemma minimax_value fuel : ∀ self (b : list string) player is_max s mv,
  length b = 9%nat →
  Search.minimax fuel self b player is_max = Some (s, mv) →
  (s = Int (-10) ∨ s = Int 0 ∨ s = Int 10)
  ∧ (mv = None ↔ Search.terminal self b = true)
  ∧ (mv = None → s = Int (Search.evaluate self b)).
Proof.
  induction fuel as [|fuel IH]; intros self b player is_max s mv Hlen; [done|].
  rewrite minimax_S. destruct (Search.terminal self b) eqn:Hterm.
  - intros [= <- <-]. split; [|done].
    destruct (evaluate_range b self Hlen) as [-> | [-> | ->]]; auto.
  - assert (∀ i cs, Search.child_score fuel self b player is_max i = Some cs →
                    cs = Int (-10) ∨ cs = Int 0 ∨ cs = Int 10) as Hint.
    { unfold Search.child_score. intros i cs Hcs.
      destruct (Search.minimax fuel self (Val.place b i player) _ _)
        as [[s' mv']|] eqn:Hm; [|done].
      injection Hcs as <-. eapply IH; [|done]. by rewrite place_length. }
    intros [[[= -> ->] Hnone]
           | (pre & m & post & _ & Hmv & _ & Hsm & _)]%scan_spec.
    + unfold Search.terminal in Hterm. apply orb_false_iff in Hterm as [_ Hc].
      apply negb_false_iff, contains_elem_of in Hc.
      destruct (empty_cell_in_range b Hlen Hc) as (i & Hi & Hcell).
      destruct (Hnone i Hi Hcell) as (cs & Hcs & Hworse). cbn [fst] in Hworse.
      destruct (Hint i cs Hcs) as [-> | [-> | ->]];
        by rewrite better_than_worst in Hworse.
    + cbn [fst snd] in *. subst mv. split; [by eapply Hint|]. done.
Qed.

(** X6.  Every score that [_minimax] returns on a board of nine cells is
    -10, 0 or 10 (never one of the two infinities, and the number of moves
    to the end does not enter it).  The move it returns is [None] exactly
    when the board has a full pattern or no empty cell, and then the score
    is that of [_evaluate_board]; a move that is returned is an empty cell
    of the board. *)
Theorem minimax_scores fuel self w l (b : list string) player is_max r w' :
  heap w !! l = Some b → length b = 9%nat →
  SmartAI._minimax fuel self l player is_max w = (Ok r, w') →
  (r.1 = Int (-10) ∨ r.1 = Int 0 ∨ r.1 = Int 10)
  ∧ (r.2 = None ↔ (∃ q m, q ∈ WIN_PATTERNS ∧ full_line b q m) ∨ " " ∉ b)
  ∧ (∀ m, r.2 = Some m → (0 ≤ m ≤ 8)%Z ∧ b !! Z.to_nat m = Some " ")
  ∧ ∃ score, SmartAI._evaluate_board self l w = (Ok score, w)
             ∧ (r.2 = None → r.1 = Int score).
Proof.
  intros Hl Hlen Hrun.
  pose proof (minimax_run fuel self w l b player is_max Hl Hlen) as Hval.
  destruct (Search.minimax fuel self b player is_max) as [[s mv]|] eqn:Hm;
    unfold runs_as in Hval.
  - rewrite Hval in Hrun. injection Hrun as <- <-. cbn [fst snd].
    destruct (minimax_value fuel self b player is_max s mv Hlen Hm)
      as (Hrange & Hnone & Hscore).
    split; [done|]. split; [by rewrite Hnone, terminal_iff|]. split.
    + intros m ->. by apply available_elem_of, (minimax_move fuel self b player is_max s).
    + exists (Search.evaluate self b). split; [by apply evaluate_board_run | done].
  - destruct Hval as [w1 Hval]. by rewrite Hval in Hrun.
Qed.

Lemma minimax_scores_witness :
  heap world2 !! 1%positive = Some board2
  ∧ length board2 = 9%nat
  ∧ SmartAI._minimax 8 (SmartAI.init "X" "" "hard") 1%positive "X" true world2
    = (Ok (Int 10, Some 3%Z), world2)
  ∧ (Int 10 = Int (-10) ∨ Int 10 = Int 0 ∨ Int 10 = Int 10)
  ∧ (Some 3%Z = None ↔ (∃ q m, q ∈ WIN_PATTERNS ∧ full_line board2 q m) ∨ " " ∉ board2)
  ∧ (∀ m, Some 3%Z = Some m → (0 ≤ m ≤ 8)%Z ∧ board2 !! Z.to_nat m = Some " ")
  ∧ ∃ score,
      SmartAI._evaluate_board (SmartAI.init "X" "" "hard") 1%positive world2
      = (Ok score, world2)
      ∧ (Some 3%Z = None → Int 10 = Int score).
Proof.
  split; [reflexivity|]. split; [reflexivity|].
  split; [exact (proj1 minimax_tie_on_board2)|].
  exact (minimax_scores 8 (SmartAI.init "X" "" "hard") world2 1%positive board2
           "X" true (Int 10, Some 3%Z) world2 eq_refl eq_refl
           (proj1 minimax_tie_on_board2)).
Defined.

Lemma no_line_by_lines (b : list string) :
  length b = 9%nat → forallb (λ q, negb (Val.line b q)) WIN_PATTERNS = true →
  no_line b.
Proof.
  intros Hlen Hall q m Hq Hfull. rewrite forallb_forall in Hall.
  specialize (Hall q (proj1 (list_elem_of_In _ _) Hq)).
  apply negb_true_iff in Hall.
  assert (Val.line b q = true) as Hline; [|congruence].
  apply line_true; [done | | by exists m].
  by apply (proj1 (Forall_forall _ _) WIN_PATTERNS_ok).
Qed.

(** ** C5: the lowest index among the best moves *)

Lemma has_line_iff (b : list string) m :
  Game.has_line b m = true ↔ ∃ q, q ∈ WIN_PATTERNS ∧ full_line b q m.
Proof.
  unfold Game.has_line, full_line.
  rewrite andb_true_iff, negb_true_iff, String.eqb_neq, existsb_exists.
  split.
  - intros [Hm (q & Hq%list_elem_of_In & Hall)]. exists q. split; [done|].
    split; [done|]. intros i Hi.
    rewrite forallb_forall in Hall. eapply bool_decide_eq_true_1, Hall.
    by apply list_elem_of_In.
  - intros (q & Hq & Hm & Hall). split; [done|]. exists q.
    split; [by apply list_elem_of_In|]. apply forallb_forall.
    intros i Hi%list_elem_of_In. by apply bool_decide_eq_true_2, Hall.
Qed.

Lemma decided_iff (b : list string) :
  Game.decided b = true ↔ ∃ q m, q ∈ WIN_PATTERNS ∧ full_line b q m.
Proof.
  unfold Game.decided. rewrite existsb_exists. split.
  - intros (m & _ & (q & Hq & Hfull)%has_line_iff). by exists q, m.
  - intros (q & m & Hq & Hfull). exists m. split; [|apply has_line_iff; by exists q].
    pose proof (proj1 (Forall_forall _ _) WIN_PATTERNS_ok q Hq)
      as (p0 & p1 & p2 & -> & _).
    destruct Hfull as [_ Hall]. apply list_elem_of_In.
    eapply list_elem_of_lookup_2. apply (Hall p0). apply list_elem_of_here.
Qed.

Lemma decided_false (b : list string) : Game.decided b = false ↔ no_line b.
Proof.
  rewrite <- not_true_iff_false, decided_iff. unfold no_line. split.
  - intros Hno q m Hq Hfull. apply Hno. by exists q, m.
  - intros Hno (q & m & Hq & Hfull). by apply (Hno q m).
Qed.

Lemma empty_cells_available (b : list string) :
  length b = 9%nat → Game.empty_cells b = Val.get_available_moves b.
Proof.
  intros Hlen. unfold Game.empty_cells, Val.get_available_moves.
  pose proof range_9_ok as Hok. induction Hok as [|i rest Hi _ IH]; [done|].
  rewrite !filter_cons, IH.
  destruct (decide (b !! Z.to_nat i = Some " ")) as [Hc|Hc];
    destruct (decide (Val.cell b i = " ")) as [Hc'|Hc']; try done.
  - destruct Hc'. apply cell_lookup; [lia | done].
  - destruct Hc. apply cell_lookup; [lia | done].
Qed.

Lemma elem_of_empty_cells (b : list string) i :
  i ∈ Game.empty_cells b ↔ (0 ≤ i < 9)%Z ∧ b !! Z.to_nat i = Some " ".
Proof.
  unfold Game.empty_cells. rewrite list_elem_of_filter. split.
  - intros [Hc Hi%elem_of_range_9]. done.
  - intros [Hi Hc]. split; [done | by apply in_range_9].
Qed.

Lemma empty_cells_nil (b : list string) :
  length b = 9%nat → Game.empty_cells b = [] ↔ " " ∉ b.
Proof.
  intros Hlen. rewrite empty_cells_available by done. split.
  - intros Hnil Hin. by apply (available_not_nil b Hlen Hin).
  - intros Hno. destruct (Val.get_available_moves b) as [|i rest] eqn:Hav; [done|].
    assert (i ∈ Val.get_available_moves b) as Hi
      by (rewrite Hav; apply list_elem_of_here).
    apply list_elem_of_filter in Hi as [Hc Hr%elem_of_range_9].
    apply cell_lookup in Hc; [|lia]. destruct Hno.
    by eapply list_elem_of_lookup_2.
Qed.

(** On a board whose full patterns all hold one mark, [_evaluate_board]
    gives the static score, and the check for an end is the one of the
    game. *)
Lemma evaluate_static self (b : list string) mark :
  length b = 9%nat →
  (∀ q m, q ∈ WIN_PATTERNS → full_line b q m → m = mark) →
  Search.evaluate self b = Game.static_score (SmartAI.symbol self) b.
Proof.
  intros Hlen Hone. unfold Game.static_score.
  destruct (evaluate_cases b self Hlen)
    as [[-> Hno] | (pre & p & post & m & Hsplit & _ & Hfull & ->)].
  - apply decided_false in Hno as Hdec. rewrite Hdec.
    destruct (Game.has_line b (SmartAI.symbol self)) eqn:Hown; [|done].
    apply has_line_iff in Hown as (q & Hq & Hfull). by destruct (Hno q _ Hq Hfull).
  - pose proof (split_elem_of _ _ _ _ Hsplit) as Hp.
    assert (Game.decided b = true) as -> by (apply decided_iff; by exists p, m).
    destruct (String.eqb_spec m (SmartAI.symbol self)) as [<-|Hne].
    + assert (Game.has_line b m = true) as -> by (apply has_line_iff; by exists p).
      done.
    + destruct (Game.has_line b (SmartAI.symbol self)) eqn:Hown; [|done].
      apply has_line_iff in Hown as (q & Hq & Hfull').
      destruct Hne. by rewrite (Hone p m Hp Hfull), (Hone q _ Hq Hfull').
Qed.

Lemma terminal_decided self (b : list string) :
  length b = 9%nat →
  Search.terminal self b
  = Game.decided b || bool_decide (Game.empty_cells b = []).
Proof.
  intros Hlen. apply eq_true_iff_eq.
  rewrite terminal_iff, orb_true_iff, decided_iff, bool_decide_eq_true by done.
  by rewrite empty_cells_nil.
Qed.

(** A mark placed on a board with no full pattern: every full pattern of
    the new board holds that mark. *)
Lemma placed_lines (b : list string) i player :
  length b = 9%nat → no_line b →
  ∀ q m, q ∈ WIN_PATTERNS → full_line (Val.place b i player) q m → m = player.
Proof.
  intros Hlen Hno q m Hq [Hm Hall].
  destruct (decide (Exists (λ j, Z.to_nat j = Z.to_nat i) q)) as [Hex|Hnex].
  - apply Exists_exists in Hex as (j & Hj & Heq).
    specialize (Hall j Hj). unfold Val.place in Hall. rewrite Heq in Hall.
    destruct (decide (Z.to_nat i < length b)%nat) as [Hlt|Hge].
    + rewrite list_lookup_insert_eq in Hall by done. congruence.
    + rewrite list_insert_ge in Hall by lia.
      rewrite lookup_ge_None_2 in Hall by lia. done.
  - destruct (Hno q m Hq). split; [done|]. intros j Hj.
    specialize (Hall j Hj). unfold Val.place in Hall.
    rewrite list_lookup_insert_ne in Hall; [done|].
    intros Heq. apply Hnex, Exists_exists. by exists j.
Qed.

Lemma best_extreme (maximizing : bool) (values : list Z) (x : Z) :
  x ∈ values →
  (∀ y, y ∈ values → if maximizing then (y ≤ x)%Z else (x ≤ y)%Z) →
  Game.best maximizing values = x.
Proof.
  intros Hx Hall. destruct values as [|v rest]; [by inversion Hx|].
  unfold Game.best.
  assert (foldr (if maximizing then Z.max else Z.min) v rest ∈ v :: rest
          ∧ ∀ y, y ∈ v :: rest →
              if maximizing
              then (y ≤ foldr (if maximizing then Z.max else Z.min) v rest)%Z
              else (foldr (if maximizing then Z.max else Z.min) v rest ≤ y)%Z)
    as [Hin Hbound].
  { clear Hx Hall. induction rest as [|z rest [IHin IHb]]; cbn [foldr].
    - split; [apply list_elem_of_here|].
      intros y ->%list_elem_of_singleton. destruct maximizing; lia.
    - split.
      + destruct maximizing.
        * destruct (Z.max_spec z (foldr Z.max v rest)) as [[_ ->] | [_ ->]].
          -- apply elem_of_cons in IHin as [-> | Hin];
               rewrite !elem_of_cons; auto.
          -- rewrite !elem_of_cons; auto.
        * destruct (Z.min_spec z (foldr Z.min v rest)) as [[_ ->] | [_ ->]].
          -- rewrite !elem_of_cons; auto.
          -- apply elem_of_cons in IHin as [-> | Hin];
               rewrite !elem_of_cons; auto.
      + intros y Hy. rewrite !elem_of_cons in Hy.
        destruct maximizing.
        * destruct Hy as [-> | [-> | Hy]].
          -- specialize (IHb v (list_elem_of_here _ _)). cbn in IHb. lia.
          -- lia.
          -- specialize (IHb y (list_elem_of_further _ _ _ Hy)). cbn in IHb. lia.
        * destruct Hy as [-> | [-> | Hy]].
          -- specialize (IHb v (list_elem_of_here _ _)). cbn in IHb. lia.
          -- lia.
          -- specialize (IHb y (list_elem_of_further _ _ _ Hy)). cbn in IHb. lia. }
  specialize (Hall _ Hin). specialize (Hbound _ Hx).
  destruct maximizing; lia.
Qed.

(** The scan of the cells, when every candidate has a score: it ends on
    the first candidate whose score no other betters. *)
Lemma scan_lowest_best child (is_max : bool) (b : list string) (v : Z → Z) :
  length b = 9%nat → " " ∈ b →
  (∀ i, (0 ≤ i < 9)%Z → Val.cell b i = " " → child i = Some (Int (v i))) →
  ∃ m,
    Search.scan child is_max b (range 9) (Search.worst is_max, None)
    = Some (Int (v m), Some m)
    ∧ (0 ≤ m < 9)%Z ∧ Val.cell b m = " "
    ∧ ∀ i, (0 ≤ i < 9)%Z → Val.cell b i = " " →
        (if is_max then (v i ≤ v m)%Z else (v m ≤ v i)%Z)
        ∧ (v i = v m → (m ≤ i)%Z).
Proof.
  intros Hlen Hin Hchild.
  destruct (scan_total child is_max b (range 9)) with (best := (Search.worst is_max, @None Z))
    as [r Hr].
  { intros i Hi%elem_of_range_9 Hc. rewrite (Hchild i Hi Hc). done. }
  pose proof Hr as Hscan.
  apply scan_spec in Hscan
    as [[-> Hnone] | (pre & m & post & Hsplit & Hmv & Hcm & Hsm & _ & Hpre & Hpost)].
  - destruct (empty_cell_in_range b Hlen Hin) as (i & Hi & Hcell).
    destruct (Hnone i Hi Hcell) as (cs & Hcs & Hworse).
    rewrite (Hchild i (elem_of_range_9 i Hi) Hcell) in Hcs. injection Hcs as <-.
    cbn [fst] in Hworse. by rewrite better_than_worst in Hworse.
  - assert (m ∈ range 9) as Hm by (rewrite Hsplit, elem_of_app, elem_of_cons; auto).
    apply elem_of_range_9 in Hm.
    destruct (range_split 9 pre m post Hsplit) as [Hlt Hgt].
    rewrite (Hchild m Hm Hcm) in Hsm. injection Hsm as Hsm.
    exists m. split; [rewrite Hr; destruct r as [s mv]; cbn in *; congruence|].
    split; [done|]. split; [done|].
    intros i Hi Hc. assert (i ∈ range 9) as Hir by by apply in_range_9.
    rewrite Hsplit, elem_of_app, elem_of_cons in Hir.
    destruct Hir as [Hir | [-> | Hir]].
    + destruct (Hpre i Hir Hc) as (s' & Hs' & Hb).
      rewrite (Hchild i Hi Hc) in Hs'. injection Hs' as <-. rewrite <- Hsm in Hb.
      unfold Search.better, number_gt in Hb.
      destruct is_max; cbn in Hb; apply Z.ltb_lt in Hb; lia.
    + split; [destruct is_max; lia | lia].
    + destruct (Hpost i Hir Hc) as (s' & Hs' & Hb).
      rewrite (Hchild i Hi Hc) in Hs'. injection Hs' as <-. rewrite <- Hsm in Hb.
      specialize (Hgt i Hir).
      unfold Search.better, number_gt in Hb.
      destruct is_max; cbn in Hb; apply Z.ltb_ge in Hb; lia.
Qed.

(** The score of the search is the value of the position: on every board
    whose full patterns all hold one mark, with a budget and a depth above
    the number of empty cells. *)
Lemma minimax_game_value fuel : ∀ depth self (b : list string) player is_max mark,
  SmartAI.marks_ok self → player ≠ " " → length b = 9%nat →
  (∀ q m, q ∈ WIN_PATTERNS → full_line b q m → m = mark) →
  (count_empty b < fuel)%nat → (count_empty b ≤ depth)%nat →
  ∃ mv,
    Search.minimax fuel self b player is_max
    = Some (Int (Game.value depth (SmartAI.symbol self) (SmartAI.opponent_symbol self)
                   b player is_max), mv).
Proof.
  induction fuel as [|fuel IH];
    intros depth self b player is_max mark Hok Hp Hlen Hone Hfuel Hdepth; [lia|].
  rewrite minimax_S, terminal_decided by done.
  pose proof (evaluate_static self b mark Hlen Hone) as Hstatic.
  destruct depth as [|depth].
  - assert (Game.empty_cells b = []) as Hnil.
    { apply empty_cells_nil; [done|]. intros Hin.
      assert (count_empty b ≠ 0%nat); [|lia]. unfold count_empty.
      destruct (filter (λ c, c = " ") b) as [|c cs] eqn:Hf; [|done].
      assert (" " ∈ filter (λ c : string, c = " ") b) as Hc
        by (by apply list_elem_of_filter).
      rewrite Hf in Hc. by inversion Hc. }
    rewrite Hnil, bool_decide_eq_true_2, orb_true_r by done.
    exists None. cbn [Game.value]. by rewrite Hstatic.
  - cbn [Game.value].
    destruct (Game.decided b || bool_decide (Game.empty_cells b = [])) eqn:Hend.
    { exists None. by rewrite Hstatic. }
    apply orb_false_iff in Hend as [Hdec Hcells].
    apply decided_false in Hdec.
    apply bool_decide_eq_false in Hcells.
    assert (" " ∈ b) as Hin.
    { destruct (decide (" " ∈ b)) as [|Hno]; [done|].
      destruct Hcells. by apply empty_cells_nil. }
    set (v := λ i, Game.value depth (SmartAI.symbol self) (SmartAI.opponent_symbol self)
                     (<[Z.to_nat i := player]> b)
                     (Game.next (SmartAI.symbol self) (SmartAI.opponent_symbol self)
                        player)
                     (negb is_max)).
    destruct (scan_lowest_best (Search.child_score fuel self b player is_max)
                is_max b v Hlen Hin) as (m & Hscan & Hm & Hcm & Hall).
    { intros i Hi Hc. unfold Search.child_score.
      apply cell_lookup in Hc; [|lia].
      pose proof (count_empty_insert b _ player Hc Hp) as Hcount.
      destruct (IH depth self (Val.place b i player) (Search.other self player)
                  (negb is_max) player) as [mv Hmv];
        [done | by apply other_not_empty | by rewrite place_length
        | by apply placed_lines | unfold Val.place; lia | unfold Val.place; lia |].
      rewrite Hmv. done. }
    exists (Some m). rewrite Hscan. do 3 f_equal.
    symmetry. apply best_extreme.
    + apply list_elem_of_fmap. exists m. split; [done|].
      apply elem_of_empty_cells. split; [done|]. by apply cell_lookup; [lia|].
    + intros y (i & -> & [Hi Hc]%elem_of_empty_cells)%list_elem_of_fmap.
      apply cell_lookup in Hc; [|lia].
      by destruct (Hall i Hi Hc) as [Hle _].
Qed.

(** C5.  On a board of nine cells that is not terminal (no pattern is full
    and a cell is empty), with marks that are marks and a budget of nested
    calls above the number of empty cells, [_minimax] returns a move [m] and
    the score of [m], where: the candidates are the empty cells; the score
    of a candidate, which [_minimax] computes by a nested call, is the value
    of the position that the move leads to, as the game defines it
    ([Game.value], with the other mark to move in the opposite role); no
    candidate has a score better for the mover than [m] (greater when
    maximizing, less when minimizing); and every candidate with the score
    of [m] has an index of at least [m].  That score is the value of the
    position itself, and the board is left as it was. *)
Theorem minimax_returns_lowest_best_index fuel self w l (b : list string)
    player (is_max : bool) :
  heap w !! l = Some b → length b = 9%nat →
  no_line b → " " ∈ b →
  SmartAI.marks_ok self → player ≠ " " → (count_empty b ≤ fuel)%nat →
  let value_of (i : Z) :=
    Game.value 9 (SmartAI.symbol self) (SmartAI.opponent_symbol self)
      (<[Z.to_nat i := player]> b)
      (Game.next (SmartAI.symbol self) (SmartAI.opponent_symbol self) player)
      (negb is_max) in
  let candidate (i : Z) := (0 ≤ i ≤ 8)%Z ∧ b !! Z.to_nat i = Some " " in
  ∃ m,
    SmartAI._minimax (S fuel) self l player is_max w
    = (Ok (Int (value_of m), Some m), w)
    ∧ candidate m
    ∧ value_of m
      = Game.value 9 (SmartAI.symbol self) (SmartAI.opponent_symbol self) b player
          is_max
    ∧ (∀ i, candidate i →
         candidate_score fuel self b player is_max i (Int (value_of i)))
    ∧ ∀ i, candidate i →
        (if is_max then (value_of i ≤ value_of m)%Z else (value_of m ≤ value_of i)%Z)
        ∧ (value_of i = value_of m → (m ≤ i)%Z).
Proof.
  intros Hl Hlen Hno Hin Hok Hp Hfuel value_of candidate.
  assert (∀ i, (0 ≤ i < 9)%Z → Val.cell b i = " " →
            Search.child_score fuel self b player is_max i = Some (Int (value_of i)))
    as Hchild.
  { intros i Hi Hc. unfold Search.child_score.
    apply cell_lookup in Hc; [|lia].
    pose proof (count_empty_insert b _ player Hc Hp) as Hcount.
    destruct (minimax_game_value fuel 9 self (Val.place b i player)
                (Search.other self player) (negb is_max) player) as [mv Hmv];
      [done | by apply other_not_empty | by rewrite place_length
      | by apply placed_lines | unfold Val.place; lia | |].
    - pose proof (count_empty_le (Val.place b i player)) as Hle.
      rewrite place_length in Hle. lia.
    - rewrite Hmv. done. }
  destruct (scan_lowest_best (Search.child_score fuel self b player is_max)
              is_max b value_of Hlen Hin Hchild) as (m & Hscan & Hm & Hcm & Hall).
  assert (Search.minimax (S fuel) self b player is_max
          = Some (Int (value_of m), Some m)) as Hsearch.
  { rewrite minimax_S, terminal_decided by done.
    rewrite (proj2 (decided_false b) Hno).
    rewrite bool_decide_eq_false_2; [done|].
    intros Hnil. by apply (empty_cells_nil b Hlen) in Hnil. }
  pose proof (minimax_run (S fuel) self w l b player is_max Hl Hlen) as Hrun.
  rewrite Hsearch in Hrun. unfold runs_as in Hrun.
  exists m. split; [done|].
  split; [split; [lia | by apply cell_lookup; [lia|]]|].
  split.
  { destruct (minimax_game_value (S fuel) 9 self b player is_max player)
      as [mv Hmv]; [done.. | by intros q m' Hq Hfull; destruct (Hno q m') | lia | |].
    - pose proof (count_empty_le b). lia.
    - rewrite Hsearch in Hmv. by injection Hmv. }
  split.
  - intros i [Hi Hc]. apply candidate_score_child; [done|].
    assert (Val.cell b i = " ") as Hc' by (by apply cell_lookup; [lia|]).
    split; [lia|]. split; [done|]. apply Hchild; [lia | done].
  - intros i [Hi Hc]. apply Hall; [lia|]. by apply cell_lookup; [lia|].
Qed.

Lemma no_line_board2 : no_line board2.
Proof. apply no_line_by_lines; [done | by vm_compute]. Qed.

Lemma minimax_returns_lowest_best_index_witness :
  heap world2 !! 1%positive = Some board2
  ∧ length board2 = 9%nat
  ∧ no_line board2
  ∧ " " ∈ board2
  ∧ SmartAI.marks_ok (SmartAI.init "X" "" "hard")
  ∧ "X" ≠ " "
  ∧ (count_empty board2 ≤ 7)%nat
  ∧ let self := SmartAI.init "X" "" "hard" in
    let value_of (i : Z) :=
      Game.value 9 (SmartAI.symbol self) (SmartAI.opponent_symbol self)
        (<[Z.to_nat i := "X"]> board2)
        (Game.next (SmartAI.symbol self) (SmartAI.opponent_symbol self) "X")
        (negb true) in
    let candidate (i : Z) := (0 ≤ i ≤ 8)%Z ∧ board2 !! Z.to_nat i = Some " " in
    ∃ m,
      SmartAI._minimax 8 self 1%positive "X" true world2
      = (Ok (Int (value_of m), Some m), world2)
      ∧ candidate m
      ∧ value_of m
        = Game.value 9 (SmartAI.symbol self) (SmartAI.opponent_symbol self) board2
            "X" true
      ∧ (∀ i, candidate i →
           candidate_score 7 self board2 "X" true i (Int (value_of i)))
      ∧ ∀ i, candidate i →
          (if true then (value_of i ≤ value_of m)%Z else (value_of m ≤ value_of i)%Z)
          ∧ (value_of i = value_of m → (m ≤ i)%Z).
Proof.
  assert (" " ∈ board2) as Hin
    by (apply (list_elem_of_lookup_2 _ 2%nat); reflexivity).
  assert (SmartAI.marks_ok (SmartAI.init "X" "" "hard")) as Hok by (by split).
  assert ("X" ≠ " ") as Hp by done.
  assert (count_empty board2 ≤ 7)%nat as Hfuel by (vm_compute; lia).
  split; [reflexivity|]. split; [reflexivity|]. split; [exact no_line_board2|].
  split; [exact Hin|]. split; [exact Hok|]. split; [exact Hp|].
  split; [exact Hfuel|].
  exact (minimax_returns_lowest_best_index 7 (SmartAI.init "X" "" "hard") world2
           1%positive board2 "X" true eq_refl eq_refl no_line_board2 Hin Hok Hp Hfuel).
Defined.

(** On [board2] (X O _ / _ _ _ / _ _ _, "X" to move) the values of the
    seven candidates 2, ..., 8 are 0, 10, 10, 0, 10, 0, 0: the moves 3, 4
    and 6 all win, and the search returns 3. *)
Example game_values_on_board2 :
  (λ i, Game.value 9 "X" "O" (<[Z.to_nat i := "X"]> board2) "O" false)
  <$> [2; 3; 4; 5; 6; 7; 8]%Z
  = [0; 10; 10; 0; 10; 0; 0]%Z.
Proof. vm_cast_no_check (eq_refl [0; 10; 10; 0; 10; 0; 0]%Z). Qed.

(** ** The automated players on a finished board *)

Lemma available_head (b : list string) m :
  length b = 9%nat → (0 ≤ m ≤ 8)%Z → b !! Z.to_nat m = Some " " →
  (∀ i, (0 ≤ i < m)%Z → b !! Z.to_nat i ≠ Some " ") →
  ∃ rest, Val.get_available_moves b = m :: rest.
Proof.
  intros Hlen Hm Hcell Hlow.
  assert (m ∈ Val.get_available_moves b) as Hin by by apply available_elem_of.
  pose proof (ascending_filter (λ i, Val.cell b i = " ") (range 9) ascending_range_9)
    as Hasc. fold (Val.get_available_moves b) in Hasc.
  assert (∀ i, i ∈ Val.get_available_moves b →
               (0 ≤ i ≤ 8)%Z ∧ b !! Z.to_nat i = Some " ") as Hall
    by (intros i; by apply available_elem_of).
  destruct (Val.get_available_moves b) as [|x rest]; [by apply elem_of_nil in Hin|].
  exists rest. f_equal. destruct Hasc as [Hx _].
  destruct (Hall x (list_elem_of_here _ _)) as [Hx8 Hxc].
  apply elem_of_cons in Hin as [-> | Hin]; [done|].
  pose proof (proj1 (Forall_forall _ _) Hx m Hin) as Hlt. cbv beta in Hlt.
  destruct (Hlow x); [lia | done].
Qed.

Lemma available_nil (b : list string) :
  length b = 9%nat → " " ∉ b → Val.get_available_moves b = [].
Proof.
  intros Hlen Hfull. destruct (Val.get_available_moves b) as [|x rest] eqn:Hav; [done|].
  assert (x ∈ Val.get_available_moves b) as Hx by (rewrite Hav; apply list_elem_of_here).
  apply available_elem_of in Hx as [_ Hx]; [|done].
  destruct Hfull. by eapply list_elem_of_lookup_2.
Qed.

(** X7.  The automated players do not look at the outcome of the game.
    On a full board [RandomAI.get_move] raises IndexError (the choice from
    an empty list), and so does [SmartAI.get_move] at full strength (item 0
    of an empty list), after making its copy of the board.  On a board that
    has a full pattern and an empty cell, [SmartAI.get_move] returns the
    lowest empty cell. *)
Theorem players_on_finished_board self game w (b : list string) :
  heap w !! board game = Some b → length b = 9%nat →
  SmartAI.difficulty self ≠ "easy" →
  let w1 := set_heap (<[fresh (dom (heap w)) := b]> (heap w)) w in
  (" " ∉ b →
   RandomAI.get_move game w = (Raise IndexError, w)
   ∧ SmartAI.get_move self game w = (Raise IndexError, w1))
  ∧ (∀ m, (∃ q m', q ∈ WIN_PATTERNS ∧ full_line b q m') →
          (0 ≤ m ≤ 8)%Z → b !! Z.to_nat m = Some " " →
          (∀ i, (0 ≤ i < m)%Z → b !! Z.to_nat i ≠ Some " ") →
          SmartAI.get_move self game w = (Ok m, w1)).
Proof.
  intros Hl Hlen Hhard w1.
  apply String.eqb_neq in Hhard.
  pose proof (smart_search_run self game w b Hl Hlen) as Hrun. cbv zeta in Hrun.
  assert (SmartAI.get_move self game w
          = (copy <- get_board_copy game ;;
             r <- SmartAI._minimax SmartAI.depth self copy (SmartAI.symbol self) true ;;
             match r.2 with
             | Some best_move => ret best_move
             | None => available_moves <- get_available_moves game ;;
                       seq_item available_moves 0
             end) w) as ->.
  { unfold SmartAI.get_move. by rewrite Hhard. }
  assert (Search.terminal self b = true →
          Search.minimax SmartAI.depth self b (SmartAI.symbol self) true
          = Some (Int (Search.evaluate self b), None)) as Hterm.
  { intros Ht. unfold SmartAI.depth. by rewrite minimax_S, Ht. }
  split.
  - intros Hfull. split.
    + unfold RandomAI.get_move.
      run (get_available_moves_run w (board game) b Hl Hlen game).
      by rewrite available_nil.
    + rewrite Hterm in Hrun by (apply terminal_iff; auto).
      rewrite Hrun. by rewrite available_nil.
  - intros m Hline Hm Hcell Hlow.
    rewrite Hterm in Hrun by (apply terminal_iff; auto).
    rewrite Hrun. destruct (available_head b m Hlen Hm Hcell Hlow) as [rest ->]. done.
Qed.

Lemma players_on_finished_board_witness :
  heap world_won !! board game_won = Some board_won
  ∧ length board_won = 9%nat
  ∧ SmartAI.difficulty (SmartAI.init "O" "" "hard") ≠ "easy"
  ∧ let self := SmartAI.init "O" "" "hard" in
    let w1 := set_heap (<[fresh (dom (heap world_won)) := board_won]> (heap world_won))
                world_won in
    (" " ∉ board_won →
     RandomAI.get_move game_won world_won = (Raise IndexError, world_won)
     ∧ SmartAI.get_move self game_won world_won = (Raise IndexError, w1))
    ∧ (∀ m, (∃ q m', q ∈ WIN_PATTERNS ∧ full_line board_won q m') →
            (0 ≤ m ≤ 8)%Z → board_won !! Z.to_nat m = Some " " →
            (∀ i, (0 ≤ i < m)%Z → board_won !! Z.to_nat i ≠ Some " ") →
            SmartAI.get_move self game_won world_won = (Ok m, w1)).
Proof.
  split; [reflexivity|]. split; [reflexivity|]. split; [done|].
  exact (players_on_finished_board (SmartAI.init "O" "" "hard") game_won world_won
           board_won eq_refl eq_refl ltac:(done)).
Defined.

(** ** HumanPlayer.get_move *)

Lemma human_turn fuel name symbol game w (b : list string) e rest :
  heap w !! board game = Some b → length b = 9%nat → stdin w = e :: rest →
  HumanPlayer.get_move_loop (S fuel) name symbol game w
  = if rejected b game e
    then HumanPlayer.get_move_loop fuel name symbol game
           (set_stdout (stdout w ++ answers name symbol [e]) (set_stdin rest w))
    else match e with
         | Number n => (Ok (n - 1)%Z,
                        set_stdout (stdout w ++ [Prompt name symbol]) (set_stdin rest w))
         | _ => (Raise OutOfFuel, w)
         end.
Proof.
  intros Hl Hlen Hin.
  cbn [HumanPlayer.get_move_loop]. unfold bind at 1, try_except, bind at 1, input_int.
  rewrite Hin. destruct e as [n| |]; cbn [rejected answers mbind list_bind app].
  - unfold bind at 1.
    rewrite (is_valid_move_run _ (board game) b) by done.
    destruct (Val.is_valid_move b game (n - 1)); cbn [negb].
    + unfold ret. by destruct w.
    + unfold bind, print, ret. cbn [stdin stdout heap entropy set_stdin set_stdout].
      by rewrite <- app_assoc.
  - unfold bind, print, ret. cbn [stdin stdout heap entropy set_stdin set_stdout].
    by rewrite <- app_assoc.
  - unfold bind, print, ret. cbn [stdin stdout heap entropy set_stdin set_stdout].
    by rewrite <- app_assoc.
Qed.

Lemma human_eof fuel name symbol game w :
  stdin w = [] →
  HumanPlayer.get_move_loop (S fuel) name symbol game w
  = (Raise EOFError, set_stdout (stdout w ++ [Prompt name symbol]) w).
Proof.
  intros Hin.
  cbn [HumanPlayer.get_move_loop]. unfold bind at 1, try_except, bind at 1, input_int.
  by rewrite Hin.
Qed.

Lemma human_loop_spec name symbol game (b : list string) skipped : ∀ fuel w,
  heap w !! board game = Some b → length b = 9%nat →
  forallb (rejected b game) skipped = true →
  (∀ n rest,
     stdin w = skipped ++ Number n :: rest → (length skipped < fuel)%nat →
     Val.is_valid_move b game (n - 1) = true →
     HumanPlayer.get_move_loop fuel name symbol game w
     = (Ok (n - 1)%Z,
        set_stdout (stdout w ++ answers name symbol skipped ++ [Prompt name symbol])
          (set_stdin rest w)))
  ∧ (stdin w = skipped → (length skipped < fuel)%nat →
     HumanPlayer.get_move_loop fuel name symbol game w
     = (Raise EOFError,
        set_stdout (stdout w ++ answers name symbol skipped ++ [Prompt name symbol])
          (set_stdin [] w))).
Proof.
  induction skipped as [|e skipped IH]; intros fuel w Hl Hlen Hrej.
  - split.
    + intros n rest Hin Hfuel Hvalid. destruct fuel as [|fuel]; [cbn in Hfuel; lia|].
      rewrite (human_turn fuel name symbol game w b (Number n) rest Hl Hlen Hin).
      cbn [rejected]. by rewrite Hvalid.
    + intros Hin Hfuel. destruct fuel as [|fuel]; [cbn in Hfuel; lia|].
      rewrite human_eof by done. f_equal. destruct w. cbn in Hin. by subst.
  - cbn [forallb] in Hrej. apply andb_true_iff in Hrej as [He Hrej].
    split.
    + intros n rest Hin Hfuel Hvalid. destruct fuel as [|fuel]; [cbn in Hfuel; lia|].
      rewrite (human_turn fuel name symbol game w b e (skipped ++ Number n :: rest)
                 Hl Hlen Hin), He.
      destruct (IH fuel (set_stdout (stdout w ++ answers name symbol [e])
                           (set_stdin (skipped ++ Number n :: rest) w)))
        as [Hok _]; [done..|].
      rewrite (Hok n rest); [|done | cbn in Hfuel; lia | done].
      cbn [stdin stdout heap entropy set_stdin set_stdout].
      unfold answers. cbn [mbind list_bind]. by rewrite <- !app_assoc.
    + intros Hin Hfuel. destruct fuel as [|fuel]; [cbn in Hfuel; lia|].
      rewrite (human_turn fuel name symbol game w b e skipped Hl Hlen Hin), He.
      destruct (IH fuel (set_stdout (stdout w ++ answers name symbol [e])
                           (set_stdin skipped w)))
        as [_ Heof]; [done..|].
      rewrite Heof; [|done | cbn in Hfuel; lia].
      cbn [stdin stdout heap entropy set_stdin set_stdout].
      unfold answers. cbn [mbind list_bind]. by rewrite <- !app_assoc.
Qed.

Lemma first_accepted (b : list string) game (entries : list input_event) :
  forallb (rejected b game) entries = true
  ∨ ∃ skipped n rest,
      entries = skipped ++ Number n :: rest
      ∧ forallb (rejected b game) skipped = true
      ∧ Val.is_valid_move b game (n - 1) = true.
Proof.
  induction entries as [|e entries IH]; [by left|].
  destruct (rejected b game e) eqn:He.
  - destruct IH as [Hall | (skipped & n & rest & -> & Hrej & Hvalid)].
    + left. cbn [forallb]. by rewrite He.
    + right. exists (e :: skipped), n, rest. split; [done|]. split; [|done].
      cbn [forallb]. by rewrite He.
  - right. destruct e as [n| |]; try done. exists [], n, entries.
    split; [done|]. split; [done|]. by apply negb_false_iff.
Qed.

(** X8.  [HumanPlayer.get_move] on a board of nine cells reads the console
    until an entry is a number [n] with [n - 1] a valid move, and returns
    [n - 1]; for every entry before that it writes the prompt and a message
    (the one for an invalid move after a number, the one asking for a
    number after anything else, Ctrl-C included), then the prompt again.
    When the console ends first, the EOFError of [input] comes out of it.
    Nothing else happens: the result is a valid move or EOFError, and the
    store is as it was. *)
Theorem human_get_move_spec name symbol game w (b : list string) :
  heap w !! board game = Some b → length b = 9%nat →
  (∀ skipped n rest,
     stdin w = skipped ++ Number n :: rest →
     forallb (rejected b game) skipped = true →
     Val.is_valid_move b game (n - 1) = true →
     HumanPlayer.get_move name symbol game w
     = (Ok (n - 1)%Z,
        set_stdout (stdout w ++ answers name symbol skipped ++ [Prompt name symbol])
          (set_stdin rest w)))
  ∧ (forallb (rejected b game) (stdin w) = true →
     HumanPlayer.get_move name symbol game w
     = (Raise EOFError,
        set_stdout (stdout w ++ answers name symbol (stdin w) ++ [Prompt name symbol])
          (set_stdin [] w)))
  ∧ ((∃ m w', HumanPlayer.get_move name symbol game w = (Ok m, w')
              ∧ is_valid_move game m w' = (Ok true, w')
              ∧ heap w' = heap w)
     ∨ (∃ w', HumanPlayer.get_move name symbol game w = (Raise EOFError, w')
              ∧ stdin w' = [] ∧ heap w' = heap w)).
Proof.
  intros Hl Hlen.
  assert (∀ skipped n rest,
     stdin w = skipped ++ Number n :: rest →
     forallb (rejected b game) skipped = true →
     Val.is_valid_move b game (n - 1) = true →
     HumanPlayer.get_move name symbol game w
     = (Ok (n - 1)%Z,
        set_stdout (stdout w ++ answers name symbol skipped ++ [Prompt name symbol])
          (set_stdin rest w))) as Hok.
  { intros skipped n rest Hin Hrej Hvalid. unfold HumanPlayer.get_move.
    destruct (human_loop_spec name symbol game b skipped (S (length (stdin w))) w
                Hl Hlen Hrej) as [Hgo _].
    apply Hgo; [done | | done]. rewrite Hin, length_app. lia. }
  assert (forallb (rejected b game) (stdin w) = true →
     HumanPlayer.get_move name symbol game w
     = (Raise EOFError,
        set_stdout (stdout w ++ answers name symbol (stdin w) ++ [Prompt name symbol])
          (set_stdin [] w))) as Heof.
  { intros Hrej. unfold HumanPlayer.get_move.
    destruct (human_loop_spec name symbol game b (stdin w) (S (length (stdin w))) w
                Hl Hlen Hrej) as [_ Hgo].
    apply Hgo; [done | lia]. }
  split; [done|]. split; [done|].
  destruct (first_accepted b game (stdin w))
    as [Hall | (skipped & n & rest & Hin & Hrej & Hvalid)].
  - right. eexists. split; [by apply Heof | done].
  - left. eexists _, _. split; [by apply (Hok skipped n rest)|]. split; [|done].
    rewrite (is_valid_move_run _ (board game) b) by done. by rewrite Hvalid.
Qed.

Lemma human_get_move_spec_witness :
  heap world_interrupted !! board game0 = Some (replicate 9 " ")
  ∧ length (replicate 9 " " : list string) = 9%nat
  ∧ let w := world_interrupted in
    let b := replicate 9 " " in
    (∀ skipped n rest,
       stdin w = skipped ++ Number n :: rest →
       forallb (rejected b game0) skipped = true →
       Val.is_valid_move b game0 (n - 1) = true →
       HumanPlayer.get_move "Player 1" "X" game0 w
       = (Ok (n - 1)%Z,
          set_stdout (stdout w ++ answers "Player 1" "X" skipped ++ [Prompt "Player 1" "X"])
            (set_stdin rest w)))
    ∧ (forallb (rejected b game0) (stdin w) = true →
       HumanPlayer.get_move "Player 1" "X" game0 w
       = (Raise EOFError,
          set_stdout (stdout w ++ answers "Player 1" "X" (stdin w)
                        ++ [Prompt "Player 1" "X"])
            (set_stdin [] w)))
    ∧ ((∃ m w', HumanPlayer.get_move "Player 1" "X" game0 w = (Ok m, w')
                ∧ is_valid_move game0 m w' = (Ok true, w')
                ∧ heap w' = heap w)
       ∨ (∃ w', HumanPlayer.get_move "Player 1" "X" game0 w = (Raise EOFError, w')
                ∧ stdin w' = [] ∧ heap w' = heap w)).
Proof.
  split; [reflexivity|]. split; [reflexivity|].
  exact (human_get_move_spec "Player 1" "X" game0 world_interrupted
           (replicate 9 " ") eq_refl eq_refl).
Defined.

(** ** Whole games *)

Lemma random_plays_legally symbol name : plays_legally (RandomAI.new symbol name).
Proof.
  intros w game Hreach Hongoing. cbn [get_move RandomAI.new].
  destruct (reachable_ongoing_has_empty w game Hreach Hongoing)
    as (b & Hl & Hlen & Hempty).
  destruct (random_get_move_total game w b Hl Hlen Hempty) as (m & w1 & Hget).
  destruct (random_get_move_cases game w b m w1 Hl Hlen Hget) as [Hm Hheap].
  exists m, w1. split; [done|]. rewrite Hheap. split; [done|].
  eapply available_legal; [by rewrite Hheap | done..].
Qed.

Lemma smart_plays_legally self :
  SmartAI.marks_ok self → plays_legally (SmartAI.player self).
Proof.
  intros Hmarks w game Hreach Hongoing. cbn [get_move SmartAI.player].
  destruct (reachable_ongoing_has_empty w game Hreach Hongoing)
    as (b & Hl & Hlen & Hempty).
  destruct (smart_get_move_total self game w b Hl Hlen Hempty Hmarks)
    as (m & w1 & Hget).
  destruct (smart_get_move_cases self game w b m w1 Hl Hlen Hget)
    as (Hheap & _ & _ & Hm).
  assert (heap w1 !! board game = Some b) as Hl1.
  { destruct Hheap as [-> | ->]; [done|]. by rewrite lookup_copied. }
  exists m, w1. split; [done|]. split; [by rewrite Hl1, Hl|].
  eapply available_legal; [done..|].
  destruct Hm as [Hm | [s Hm]]; [done | by eapply minimax_move].
Qed.

(** A player that plays by the rules keeps the game reachable. *)
Lemma legal_keeps_reachable p mark : plays_legally p → keeps reachable p mark.
Proof.
  intros Hlegal w game Hreach Hongoing _.
  destruct (Hlegal w game Hreach Hongoing) as (m & w1 & Hget & Hsame & Hvalid).
  destruct (reachable_inv w game Hreach) as (b & Hl & Hlen & _).
  assert (heap w1 !! board game = Some b) as Hl1 by by rewrite Hsame.
  rewrite (is_valid_move_run w1 (board game) b Hl1 Hlen game m eq_refl) in Hvalid.
  injection Hvalid as Hvalid.
  destruct (make_move_valid w1 game m b Hl1 Hlen Hvalid) as (Hmove & _).
  eexists m, w1, _, _. split; [done|]. split; [done|]. split; [done|].
  eapply reachable_make_move; [|done]. by eapply reachable_elsewhere.
Qed.

Lemma display_board_run game w (b : list string) :
  heap w !! board game = Some b →
  ConsoleInterface.display_board game w
  = (Ok (), set_stdout (stdout w ++ [BoardDisplayed b])
              (set_heap (<[fresh (dom (heap w)) := b]> (heap w)) w)).
Proof.
  intros Hl. unfold ConsoleInterface.display_board.
  run (get_board_copy_run w game b Hl).
  erewrite bind_run
    by (apply list_read_run; cbn [heap set_heap]; apply lookup_insert_eq).
  done.
Qed.

Section whole_games.
Variable Inv : world → TicTacToe → Prop.
Variables player_x player_o : Player.
Hypothesis Inv_inv : ∀ w game, Inv w game → game_inv w game.
Hypothesis Inv_elsewhere : ∀ w game w',
  Inv w game → heap w' !! board game = heap w !! board game → Inv w' game.
Hypothesis Hx : keeps Inv player_x "X".
Hypothesis Ho : keeps Inv player_o "O".

(** One turn: the player whose turn it is moves, and the move is made. *)
Lemma turn_made w game :
  Inv w game → game_state game = ONGOING →
  ∃ current m w1 game' w2,
    ConsoleInterface.players_item player_x player_o (current_player game) w
    = (Ok current, w)
    ∧ (∀ w0, heap w0 !! board game = heap w !! board game →
             ∃ m w1 game' w2,
               get_move current game w0 = (Ok m, w1)
               ∧ make_move game m w1 = (Ok (true, game'), w2)
               ∧ Inv w2 game'
               ∧ moves_count game' = (moves_count game + 1)%Z
               ∧ stdout w2 = stdout w1)
    ∧ get_move current game w = (Ok m, w1)
    ∧ make_move game m w1 = (Ok (true, game'), w2)
    ∧ Inv w2 game'
    ∧ moves_count game' = (moves_count game + 1)%Z.
Proof using Inv_inv Inv_elsewhere Hx Ho.
  intros Hinv Hongoing.
  destruct (Inv_inv w game Hinv) as (b & Hl & Hlen & _ & Hcur & _).
  assert (∀ p, keeps Inv p (current_player game) →
            ∀ w0, heap w0 !! board game = heap w !! board game →
              ∃ m w1 game' w2,
                get_move p game w0 = (Ok m, w1)
                ∧ make_move game m w1 = (Ok (true, game'), w2)
                ∧ Inv w2 game'
                ∧ moves_count game' = (moves_count game + 1)%Z
                ∧ stdout w2 = stdout w1) as Hturn.
  { intros p Hp w0 Hsame.
    destruct (Hp w0 game (Inv_elsewhere w game w0 Hinv Hsame) Hongoing eq_refl)
      as (m & w1 & game' & w2 & Hget & Hsame1 & Hmove & Hinv').
    exists m, w1, game', w2. split; [done|]. split; [done|]. split; [done|].
    assert (heap w1 !! board game = Some b) as Hl1 by by rewrite Hsame1, Hsame.
    rewrite (make_move_run w1 game m b Hl1 Hlen) in Hmove.
    unfold Val.make_move in Hmove.
    destruct (Val.is_valid_move b game m) eqn:Hv; [|done].
    destruct (make_move_valid w1 game m b Hl1 Hlen Hv) as (_ & Hcount & _).
    cbn [fst snd] in Hmove. injection Hmove as <- <-. done. }
  assert (∃ current,
            ConsoleInterface.players_item player_x player_o (current_player game) w
            = (Ok current, w)
            ∧ keeps Inv current (current_player game)) as (current & Hitem & Hkeeps).
  { unfold ConsoleInterface.players_item.
    destruct Hcur as [-> | ->]; [by exists player_x | by exists player_o]. }
  destruct (Hturn current Hkeeps w eq_refl)
    as (m & w1 & game' & w2 & Hget & Hmove & Hinv' & Hcount & _).
  exists current, m, w1, game', w2. split; [done|]. split; [by apply Hturn|]. done.
Qed.

Lemma play_silently_ends fuel : ∀ w game,
  Inv w game → (9 - moves_count game < Z.of_nat fuel)%Z →
  ∃ game' w',
    Tournament.play_silently fuel game player_x player_o w = (Ok game', w')
    ∧ Inv w' game' ∧ game_state game' ≠ ONGOING.
Proof using Inv_inv Inv_elsewhere Hx Ho.
  induction fuel as [|fuel IH]; intros w game Hinv Hfuel.
  - destruct (Inv_inv w game Hinv) as (b & _ & Hlen & Hcount & _).
    pose proof (count_empty_marked b). lia.
  - cbn [Tournament.play_silently]. unfold is_game_over.
    destruct (decide (game_state game = ONGOING)) as [Hongoing|Hover].
    + rewrite bool_decide_eq_true_2 by done. cbn [negb].
      destruct (turn_made w game Hinv Hongoing)
        as (current & m & w1 & game' & w2 & Hitem & _ & Hget & Hmove & Hinv' & Hcount).
      run Hitem. run Hget. run Hmove. cbn [snd]. apply IH; [done | lia].
    + rewrite bool_decide_eq_false_2 by done. cbn [negb]. by exists game, w.
Qed.

Lemma play_game_loop_ends fuel : ∀ w game,
  Inv w game → (9 - moves_count game < Z.of_nat fuel)%Z →
  ∃ game' w',
    ConsoleInterface.play_game_loop fuel game player_x player_o w
    = (Ok (Some (game_state game'), game'), w')
    ∧ Inv w' game' ∧ game_state game' ≠ ONGOING
    ∧ last (stdout w')
      = Some (ResultDisplayed (game_state game') (winning_pattern game')).
Proof using Inv_inv Inv_elsewhere Hx Ho.
  induction fuel as [|fuel IH]; intros w game Hinv Hfuel.
  - destruct (Inv_inv w game Hinv) as (b & _ & Hlen & Hcount & _).
    pose proof (count_empty_marked b). lia.
  - destruct (Inv_inv w game Hinv) as (b & Hl & Hlen & _).
    cbn [ConsoleInterface.play_game_loop]. unfold is_game_over.
    pose proof (display_board_run game w b Hl) as Hshow.
    set (w0 := set_stdout _ _) in Hshow.
    assert (heap w0 !! board game = heap w !! board game) as Hsame.
    { unfold w0. cbn [heap set_heap set_stdout]. by rewrite lookup_copied. }
    destruct (decide (game_state game = ONGOING)) as [Hongoing|Hover].
    + rewrite bool_decide_eq_true_2 by done. cbn [negb].
      destruct (turn_made w game Hinv Hongoing)
        as (current & _ & _ & _ & _ & Hitem & Hturn & _).
      run Hshow.
      assert (ConsoleInterface.players_item player_x player_o (current_player game) w0
              = (Ok current, w0)) as Hitem0.
      { unfold ConsoleInterface.players_item in *.
        destruct (String.eqb (current_player game) "X"); [by injection Hitem as ->|].
        destruct (String.eqb (current_player game) "O"); [by injection Hitem as ->|].
        done. }
      run Hitem0. unfold bind at 1. unfold print at 1.
      set (w0' := set_stdout _ w0).
      destruct (Hturn w0') as (m & w1 & game' & w2 & Hget & Hmove & Hinv' & Hcount & _);
        [done|].
      unfold bind at 1, try_except. rewrite (bind_run _ _ _ _ _ Hget).
      rewrite (bind_run _ _ _ _ _ Hmove). cbn [fst snd negb]. unfold ret at 1.
      apply IH; [done | lia].
    + rewrite bool_decide_eq_false_2 by done. cbn [negb].
      run Hshow. unfold ConsoleInterface.display_result, bind, print, ret.
      eexists game, _. split; [done|]. split; [|split; [done|]].
      * apply (Inv_elsewhere w); [done|]. by cbn [heap set_heap set_stdout].
      * cbn [stdout set_stdout]. by rewrite last_snoc.
Qed.

End whole_games.

(** ** The search never loses, on either side *)

Lemma safe_not_lost lost self w game :
  safe lost self w game → game_state game ≠ lost.
Proof.
  intros (b & turns & _ & _ & Hnr). rewrite never_reaches_unfold in Hnr.
  apply andb_true_iff in Hnr as [Hnot _].
  by apply negb_true_iff, bool_decide_eq_false in Hnot.
Qed.

Lemma safe_elsewhere lost self w game w' :
  safe lost self w game → heap w' !! board game = heap w !! board game →
  safe lost self w' game.
Proof.
  intros (b & turns & Hl & Hrest) Hsame. exists b, turns. by rewrite Hsame.
Qed.

Lemma moved_safe lost self w game (b : list string) position turns r game' w' :
  heap w !! board game = Some b → length b = 9%nat →
  Val.is_valid_move b game position = true →
  (let '(game', b') := Val.moved b game position in
   Fast.never_reaches lost turns self b' game') = true →
  make_move game position w = (Ok (r, game'), w') →
  r = true ∧ safe lost self w' game'.
Proof.
  intros Hl Hlen Hvalid Hnr Hmove.
  rewrite (make_move_run w game position b Hl Hlen) in Hmove.
  destruct (make_move_board b game position) as [Hboard Hlen'].
  unfold Val.make_move in *. rewrite Hvalid in *. cbn [fst snd] in *.
  destruct (Val.moved b game position) as [g1 b1]. cbn [fst snd] in *.
  injection Hmove as <- <- <-. split; [done|].
  exists b1, turns. rewrite Hboard. cbn [heap set_heap].
  split; [apply lookup_insert_eq|]. split; [congruence | done].
Qed.

(** The search's turn in a safe position: it has a move, the board list is
    as it was, the move is accepted, and the position it leads to is safe. *)
Lemma safe_search lost self w game :
  SmartAI.difficulty self ≠ "easy" →
  safe lost self w game → game_state game = ONGOING →
  current_player game = SmartAI.symbol self →
  ∃ m w1 game' w2,
    SmartAI.get_move self game w = (Ok m, w1)
    ∧ heap w1 !! board game = heap w !! board game
    ∧ make_move game m w1 = (Ok (true, game'), w2)
    ∧ safe lost self w2 game'.
Proof.
  intros Hhard%String.eqb_neq (b & turns & Hl & Hlen & Hnr) Hongoing Hturn.
  rewrite never_reaches_unfold in Hnr.
  apply andb_true_iff in Hnr as [_ Hnr].
  unfold is_game_over in Hnr. rewrite bool_decide_eq_true_2 in Hnr by done.
  cbn [negb orb] in Hnr. destruct turns as [|turns]; [done|].
  rewrite Hturn, String.eqb_refl, (fast_get_move self b Hlen) in Hnr.
  pose proof (smart_get_move_hard self game w b Hl Hlen Hhard) as Hmove.
  destruct (Search.get_move self b) as [m|]; [|done].
  apply andb_true_iff in Hnr as [Hvalid Hnr].
  set (w1 := set_heap _ w) in Hmove.
  assert (heap w1 !! board game = Some b) as Hl1.
  { unfold w1. cbn [heap set_heap]. by rewrite lookup_copied. }
  destruct (make_move_valid w1 game m b Hl1 Hlen Hvalid) as (Hmade & _).
  eexists m, w1, _, _. split; [done|]. split; [by rewrite Hl1, Hl|].
  split; [done|].
  by destruct (moved_safe lost self w1 game b m turns _ _ _ Hl1 Hlen Hvalid Hnr Hmade).
Qed.

(** A reply in a safe position leads to a safe position. *)
Lemma safe_reply lost self w game position game' w' :
  safe lost self w game → current_player game ≠ SmartAI.symbol self →
  make_move game position w = (Ok (true, game'), w') →
  safe lost self w' game'.
Proof.
  intros (b & turns & Hl & Hlen & Hnr) Hturn Hmove.
  assert (Val.is_valid_move b game position = true) as Hvalid.
  { rewrite (make_move_run w game position b Hl Hlen) in Hmove.
    unfold Val.make_move in Hmove.
    by destruct (Val.is_valid_move b game position). }
  pose proof Hvalid as ([H0 H8] & _ & Hongoing)%is_valid_move_true; [|done].
  rewrite never_reaches_unfold in Hnr.
  apply andb_true_iff in Hnr as [_ Hnr].
  unfold is_game_over in Hnr. rewrite bool_decide_eq_true_2 in Hnr by done.
  cbn [negb orb] in Hnr. destruct turns as [|turns]; [done|].
  apply String.eqb_neq in Hturn. rewrite Hturn in Hnr.
  rewrite forallb_forall in Hnr.
  specialize (Hnr position). rewrite Hvalid in Hnr. cbn [negb orb] in Hnr.
  eapply (moved_safe lost self w game b position turns true game' w'); try done.
  apply Hnr. apply list_elem_of_In. apply in_range_9. lia.
Qed.

(** The exhaustive check for the second player: from the empty board, with
    the search as "O" against every sequence of moves of "X", no game
    reaches X_WINS. *)
Lemma empty_board_safe_second name difficulty l :
  Fast.never_reaches X_WINS 9 (SmartAI.mk "O" name difficulty "X")
    (replicate 9 " ") (mkTicTacToe l "X" ONGOING 0 None None) = true.
Proof. vm_cast_no_check (eq_refl true). Qed.

Lemma guarded_inv searches w game : guarded searches w game → game_inv w game.
Proof. intros [Hreach _]. by apply reachable_inv. Qed.

Lemma guarded_elsewhere searches w game w' :
  guarded searches w game → heap w' !! board game = heap w !! board game →
  guarded searches w' game.
Proof.
  intros [Hreach Hsafe] Hsame. split; [by eapply reachable_elsewhere|].
  intros s lost Hs. eapply safe_elsewhere; [by apply Hsafe | done].
Qed.

Lemma keeps_guarded_legal searches p mark :
  plays_legally p →
  (∀ s lost, (s, lost) ∈ searches → SmartAI.symbol s ≠ mark) →
  keeps (guarded searches) p mark.
Proof.
  intros Hlegal Hothers w game [Hreach Hsafe] Hongoing Hturn.
  destruct (legal_keeps_reachable p mark Hlegal w game Hreach Hongoing Hturn)
    as (m & w1 & game' & w2 & Hget & Hsame & Hmove & Hreach').
  exists m, w1, game', w2. split; [done|]. split; [done|]. split; [done|].
  split; [done|]. intros s lost Hs.
  eapply (safe_reply lost s w1 game m);
    [|rewrite Hturn; intros Heq; by apply (Hothers s lost)|done].
  eapply safe_elsewhere; [by apply Hsafe | done].
Qed.

Lemma keeps_guarded_search searches self lost mark :
  (self, lost) ∈ searches → SmartAI.symbol self = mark →
  SmartAI.difficulty self ≠ "easy" →
  (∀ s lost', (s, lost') ∈ searches →
              (s, lost') = (self, lost) ∨ SmartAI.symbol s ≠ mark) →
  keeps (guarded searches) (SmartAI.player self) mark.
Proof.
  intros Hself Hsym Hhard Hothers w game [Hreach Hsafe] Hongoing Hturn.
  destruct (safe_search lost self w game Hhard (Hsafe self lost Hself) Hongoing)
    as (m & w1 & game' & w2 & Hget & Hsame & Hmove & Hsafe'); [congruence|].
  exists m, w1, game', w2. cbn [get_move SmartAI.player].
  split; [done|]. split; [done|]. split; [done|]. split.
  - eapply reachable_make_move; [|done]. by eapply reachable_elsewhere.
  - intros s lost' Hs. destruct (Hothers s lost' Hs) as [[= -> ->] | Hne]; [done|].
    eapply (safe_reply lost' s w1 game m);
      [|rewrite Hturn; intros Heq; by apply Hne|done].
    eapply safe_elsewhere; [by apply Hsafe | done].
Qed.

Lemma guarded_fresh searches w game w0 :
  TicTacToe_init w = (Ok game, w0) →
  (∀ s lost, (s, lost) ∈ searches →
             full_strength s "X" "O" ∧ lost = O_WINS
             ∨ full_strength s "O" "X" ∧ lost = X_WINS) →
  guarded searches w0 game ∧ moves_count game = 0%Z.
Proof.
  intros Hinit Hsearches. split; [split|]; [by eapply reachable_init | |].
  - rewrite TicTacToe_init_run in Hinit. injection Hinit as <- <-.
    intros s lost Hs. exists (replicate 9 " "), 9%nat. cbn [heap set_heap board].
    split; [apply lookup_insert_eq|]. split; [done|].
    destruct s as [sym name difficulty opp].
    destruct (Hsearches _ _ Hs) as [[(Hsym & Hopp & _) ->] | [(Hsym & Hopp & _) ->]];
      cbn in Hsym, Hopp; subst sym opp.
    + apply empty_board_checked.
    + apply empty_board_safe_second.
  - rewrite TicTacToe_init_run in Hinit. by injection Hinit as <- <-.
Qed.

(** X9.  A game between two players that play by the rules comes to its
    end: from any reachable state, with a budget of more turns than there
    are moves left (10 from a new board), [play_game] returns the outcome of
    the game, which is not ONGOING, after writing the result as its last
    line; and the silent loop of the tournament ends in such a state as
    well.  [RandomAI] and [SmartAI] are such players. *)
Theorem play_game_completes player_x player_o w game fuel :
  plays_legally player_x → plays_legally player_o →
  reachable w game → (9 - moves_count game < Z.of_nat fuel)%Z →
  (∃ game' w',
     ConsoleInterface.play_game fuel game player_x player_o w
     = (Ok (Some (game_state game'), game'), w')
     ∧ game_state game' ≠ ONGOING ∧ reachable w' game'
     ∧ last (stdout w')
       = Some (ResultDisplayed (game_state game') (winning_pattern game')))
  ∧ (∃ game' w',
       Tournament.play_silently fuel game player_x player_o w = (Ok game', w')
       ∧ game_state game' ≠ ONGOING ∧ reachable w' game').
Proof.
  intros Hx Ho Hreach Hfuel. split.
  - unfold ConsoleInterface.play_game, bind at 1, print at 1.
    destruct (play_game_loop_ends reachable player_x player_o reachable_inv
                (λ w game w', reachable_elsewhere w game w')
                (legal_keeps_reachable _ _ Hx) (legal_keeps_reachable _ _ Ho) fuel
                (set_stdout (stdout w ++ [StartingGame (name player_x) (name player_o)]) w)
                game) as (game' & w' & Hrun & Hreach' & Hover & Hlast);
      [by eapply reachable_elsewhere | done |].
    by exists game', w'.
  - destruct (play_silently_ends reachable player_x player_o reachable_inv
                (λ w game w', reachable_elsewhere w game w')
                (legal_keeps_reachable _ _ Hx) (legal_keeps_reachable _ _ Ho) fuel
                w game Hreach Hfuel) as (game' & w' & Hrun & Hreach' & Hover).
    by exists game', w'.
Qed.

Lemma play_game_completes_witness :
  plays_legally Tournament.random_ai
  ∧ plays_legally (SmartAI.player Tournament.smart_ai)
  ∧ reachable world0 game0
  ∧ (9 - moves_count game0 < Z.of_nat 10)%Z
  ∧ (∃ game' w',
       ConsoleInterface.play_game 10 game0 Tournament.random_ai
         (SmartAI.player Tournament.smart_ai) world0
       = (Ok (Some (game_state game'), game'), w')
       ∧ game_state game' ≠ ONGOING ∧ reachable w' game'
       ∧ last (stdout w')
         = Some (ResultDisplayed (game_state game') (winning_pattern game')))
  ∧ (∃ game' w',
       Tournament.play_silently 10 game0 Tournament.random_ai
         (SmartAI.player Tournament.smart_ai) world0 = (Ok game', w')
       ∧ game_state game' ≠ ONGOING ∧ reachable w' game').
Proof.
  assert (SmartAI.marks_ok Tournament.smart_ai) as Hmarks by done.
  split; [apply random_plays_legally|]. split; [by apply smart_plays_legally|].
  split; [apply reachable_world0|]. split; [done|].
  exact (play_game_completes Tournament.random_ai (SmartAI.player Tournament.smart_ai)
           world0 game0 10 (random_plays_legally "X" "Random AI")
           (smart_plays_legally Tournament.smart_ai Hmarks) reachable_world0
           ltac:(done)).
Defined.

(** A game from a new board between players that keep the game guarded. *)
Lemma guarded_game searches player_x player_o w game w0 :
  TicTacToe_init w = (Ok game, w0) →
  (∀ s lost, (s, lost) ∈ searches →
             full_strength s "X" "O" ∧ lost = O_WINS
             ∨ full_strength s "O" "X" ∧ lost = X_WINS) →
  keeps (guarded searches) player_x "X" → keeps (guarded searches) player_o "O" →
  (∃ game' w',
     ConsoleInterface.play_game 10 game player_x player_o w0
     = (Ok (Some (game_state game'), game'), w')
     ∧ reachable w' game' ∧ game_state game' ≠ ONGOING
     ∧ ∀ s lost, (s, lost) ∈ searches → game_state game' ≠ lost)
  ∧ (∃ game' w',
       Tournament.play_silently 10 game player_x player_o w0 = (Ok game', w')
       ∧ reachable w' game' ∧ game_state game' ≠ ONGOING
       ∧ ∀ s lost, (s, lost) ∈ searches → game_state game' ≠ lost).
Proof.
  intros Hinit Hsearches Hx Ho.
  destruct (guarded_fresh searches w game w0 Hinit Hsearches) as [Hguard Hcount].
  split.
  - unfold ConsoleInterface.play_game, bind at 1, print at 1.
    destruct (play_game_loop_ends (guarded searches) player_x player_o
                (guarded_inv searches) (guarded_elsewhere searches) Hx Ho 10
                (set_stdout (stdout w0 ++ [StartingGame (name player_x) (name player_o)]) w0)
                game) as (game' & w' & Hrun & [Hreach' Hsafe] & Hover & _);
      [by eapply guarded_elsewhere | rewrite Hcount; lia |].
    exists game', w'. split; [done|]. split; [done|]. split; [done|].
    intros s lost Hs. by eapply safe_not_lost, Hsafe.
  - destruct (play_silently_ends (guarded searches) player_x player_o
                (guarded_inv searches) (guarded_elsewhere searches) Hx Ho 10
                w0 game Hguard) as (game' & w' & Hrun & [Hreach' Hsafe] & Hover);
      [rewrite Hcount; lia|].
    exists game', w'. split; [done|]. split; [done|]. split; [done|].
    intros s lost Hs. by eapply safe_not_lost, Hsafe.
Qed.

Lemma record_game_x_wins stats st moves :
  st ≠ X_WINS →
  GameStats.wins (GameStats.record_game stats st moves) !! "X"
  = GameStats.wins stats !! "X".
Proof.
  intros Hst. destruct st; try done; cbn [GameStats.record_game GameStats.wins].
  unfold GameStats.wins_incr, GameStats.wins_item. cbn [GameStats.wins].
  destruct (GameStats.wins stats !! "O"); cbn [GameStats.wins];
    by rewrite ?lookup_insert_ne.
Qed.

(** X10.  The games of the tournament: on a new board, whatever player
    plays "X" by the rules (the tournament's [RandomAI] with any random
    source, say) against the search playing "O" at full strength, the loop
    ends within its 10 turns, and the outcome is O_WINS or DRAW, never
    X_WINS; so recording it leaves the count of wins of "X" as it was. *)
Theorem tournament_never_won_by_x player_x self w game w0 :
  plays_legally player_x → full_strength self "O" "X" →
  TicTacToe_init w = (Ok game, w0) →
  ∃ game' w',
    Tournament.play_silently 10 game player_x (SmartAI.player self) w0
    = (Ok game', w')
    ∧ (game_state game' = O_WINS ∨ game_state game' = DRAW)
    ∧ reachable w' game'
    ∧ ∀ stats,
        GameStats.wins
          (GameStats.record_game stats (game_state game') (moves_count game')) !! "X"
        = GameStats.wins stats !! "X".
Proof.
  intros Hx Hself Hinit. pose proof Hself as (Hsym & Hopp & Hhard).
  destruct (guarded_game [(self, X_WINS)] player_x (SmartAI.player self) w game w0)
    as [_ (game' & w' & Hrun & Hreach & Hover & Hsafe)]; [done | | | |].
  - intros s lost [= -> ->]%list_elem_of_singleton. by right.
  - apply keeps_guarded_legal; [done|].
    intros s lost [= -> ->]%list_elem_of_singleton. by rewrite Hsym.
  - apply (keeps_guarded_search _ self X_WINS); [by apply list_elem_of_singleton|done..|].
    intros s lost Hs%list_elem_of_singleton. by left.
  - exists game', w'. split; [done|].
    pose proof (Hsafe self X_WINS ltac:(by apply list_elem_of_singleton)) as Hnot.
    split; [by destruct (game_state game'); auto|]. split; [done|].
    intros stats. by apply record_game_x_wins.
Qed.

Lemma tournament_never_won_by_x_witness :
  plays_legally Tournament.random_ai
  ∧ full_strength Tournament.smart_ai "O" "X"
  ∧ TicTacToe_init world_empty = (Ok game0, world0)
  ∧ ∃ game' w',
      Tournament.play_silently 10 game0 Tournament.random_ai
        (SmartAI.player Tournament.smart_ai) world0
      = (Ok game', w')
      ∧ (game_state game' = O_WINS ∨ game_state game' = DRAW)
      ∧ reachable w' game'
      ∧ ∀ stats,
          GameStats.wins
            (GameStats.record_game stats (game_state game') (moves_count game')) !! "X"
          = GameStats.wins stats !! "X".
Proof.
  assert (full_strength Tournament.smart_ai "O" "X") as Hfull by done.
  split; [apply random_plays_legally|]. split; [done|]. split; [reflexivity|].
  exact (tournament_never_won_by_x Tournament.random_ai Tournament.smart_ai
           world_empty game0 world0 (random_plays_legally "X" "Random AI") Hfull
           eq_refl).
Defined.

(** X11.  [play_game] on a new board with the search at full strength:
    playing "X" against any player that plays by the rules, the outcome is
    X_WINS or DRAW; playing "O", it is O_WINS or DRAW; and when the search
    plays both marks the game is a draw after 9 moves. *)
Theorem search_never_loses_play_game search_x search_o w game w0 :
  full_strength search_x "X" "O" → full_strength search_o "O" "X" →
  TicTacToe_init w = (Ok game, w0) →
  (∀ player_o, plays_legally player_o →
     ∃ game' w',
       ConsoleInterface.play_game 10 game (SmartAI.player search_x) player_o w0
       = (Ok (Some (game_state game'), game'), w')
       ∧ (game_state game' = X_WINS ∨ game_state game' = DRAW))
  ∧ (∀ player_x, plays_legally player_x →
       ∃ game' w',
         ConsoleInterface.play_game 10 game player_x (SmartAI.player search_o) w0
         = (Ok (Some (game_state game'), game'), w')
         ∧ (game_state game' = O_WINS ∨ game_state game' = DRAW))
  ∧ (∃ game' w',
       ConsoleInterface.play_game 10 game (SmartAI.player search_x)
         (SmartAI.player search_o) w0
       = (Ok (Some DRAW, game'), w')
       ∧ game_state game' = DRAW ∧ moves_count game' = 9%Z).
Proof.
  intros Hsx Hso Hinit.
  pose proof Hsx as (Hxsym & Hxopp & Hxhard).
  pose proof Hso as (Hosym & Hoopp & Hohard).
  split; [|split].
  - intros player_o Ho.
    destruct (guarded_game [(search_x, O_WINS)] (SmartAI.player search_x) player_o
                w game w0)
      as [(game' & w' & Hrun & Hreach & Hover & Hsafe) _]; [done | | | |].
    + intros s lost [= -> ->]%list_elem_of_singleton. by left.
    + apply (keeps_guarded_search _ search_x O_WINS);
        [by apply list_elem_of_singleton|done..|].
      intros s lost Hs%list_elem_of_singleton. by left.
    + apply keeps_guarded_legal; [done|].
      intros s lost [= -> ->]%list_elem_of_singleton. by rewrite Hxsym.
    + exists game', w'. split; [done|].
      pose proof (Hsafe search_x O_WINS ltac:(by apply list_elem_of_singleton)).
      by destruct (game_state game'); auto.
  - intros player_x Hx.
    destruct (guarded_game [(search_o, X_WINS)] player_x (SmartAI.player search_o)
                w game w0)
      as [(game' & w' & Hrun & Hreach & Hover & Hsafe) _]; [done | | | |].
    + intros s lost [= -> ->]%list_elem_of_singleton. by right.
    + apply keeps_guarded_legal; [done|].
      intros s lost [= -> ->]%list_elem_of_singleton. by rewrite Hosym.
    + apply (keeps_guarded_search _ search_o X_WINS);
        [by apply list_elem_of_singleton|done..|].
      intros s lost Hs%list_elem_of_singleton. by left.
    + exists game', w'. split; [done|].
      pose proof (Hsafe search_o X_WINS ltac:(by apply list_elem_of_singleton)).
      by destruct (game_state game'); auto.
  - destruct (guarded_game [(search_x, O_WINS); (search_o, X_WINS)]
                (SmartAI.player search_x) (SmartAI.player search_o) w game w0)
      as [(game' & w' & Hrun & Hreach & Hover & Hsafe) _]; [done | | | |].
    + intros s lost [[= -> ->] | [= -> ->]%list_elem_of_singleton]%elem_of_cons;
        [by left | by right].
    + apply (keeps_guarded_search _ search_x O_WINS); [by left | done..|].
      intros s lost [[= -> ->] | [= -> ->]%list_elem_of_singleton]%elem_of_cons;
        [by left | right; by rewrite Hosym].
    + apply (keeps_guarded_search _ search_o X_WINS);
        [right; by apply list_elem_of_singleton | done..|].
      intros s lost [[= -> ->] | [= -> ->]%list_elem_of_singleton]%elem_of_cons;
        [right; by rewrite Hxsym | by left].
    + pose proof (Hsafe search_x O_WINS ltac:(by left)).
      pose proof (Hsafe search_o X_WINS
                    ltac:(right; by apply list_elem_of_singleton)).
      assert (game_state game' = DRAW) as Hdraw by by destruct (game_state game').
      exists game', w'. rewrite Hdraw in Hrun. split; [done|]. split; [done|].
      destruct (reachable_consistent w' game' Hreach) as (b & _ & _ & _ & _ & Hstate).
      rewrite Hdraw in Hstate. by destruct Hstate as (_ & ? & _).
Qed.

Lemma search_never_loses_play_game_witness :
  full_strength (SmartAI.init "X" "" "hard") "X" "O"
  ∧ full_strength Tournament.smart_ai "O" "X"
  ∧ TicTacToe_init world_empty = (Ok game0, world0)
  ∧ (∀ player_o, plays_legally player_o →
       ∃ game' w',
         ConsoleInterface.play_game 10 game0 (SmartAI.player (SmartAI.init "X" "" "hard"))
           player_o world0
         = (Ok (Some (game_state game'), game'), w')
         ∧ (game_state game' = X_WINS ∨ game_state game' = DRAW))
  ∧ (∀ player_x, plays_legally player_x →
       ∃ game' w',
         ConsoleInterface.play_game 10 game0 player_x
           (SmartAI.player Tournament.smart_ai) world0
         = (Ok (Some (game_state game'), game'), w')
         ∧ (game_state game' = O_WINS ∨ game_state game' = DRAW))
  ∧ (∃ game' w',
       ConsoleInterface.play_game 10 game0 (SmartAI.player (SmartAI.init "X" "" "hard"))
         (SmartAI.player Tournament.smart_ai) world0
       = (Ok (Some DRAW, game'), w')
       ∧ game_state game' = DRAW ∧ moves_count game' = 9%Z).
Proof.
  assert (full_strength (SmartAI.init "X" "" "hard") "X" "O") as Hx by done.
  assert (full_strength Tournament.smart_ai "O" "X") as Ho by done.
  split; [done|]. split; [done|]. split; [reflexivity|].
  exact (search_never_loses_play_game (SmartAI.init "X" "" "hard") Tournament.smart_ai
           world_empty game0 world0 Hx Ho eq_refl).
Defined.

(** ** The statistics count the games *)

Lemma wins_item_default self key k :
  default 0%Z (GameStats.wins (GameStats.wins_item self key).2 !! k)
  = default 0%Z (GameStats.wins self !! k).
Proof.
  unfold GameStats.wins_item.
  destruct (GameStats.wins self !! key) eqn:Hkey; cbn [snd GameStats.wins]; [done|].
  destruct (decide (key = k)) as [->|Hne].
  - by rewrite lookup_insert_eq, Hkey.
  - by rewrite lookup_insert_ne.
Qed.

Lemma wins_incr_spec self key :
  GameStats.games_played (GameStats.wins_incr self key) = GameStats.games_played self
  ∧ GameStats.draws (GameStats.wins_incr self key) = GameStats.draws self
  ∧ GameStats.total_moves (GameStats.wins_incr self key) = GameStats.total_moves self
  ∧ ∀ k, default 0%Z (GameStats.wins (GameStats.wins_incr self key) !! k)
         = (default 0%Z (GameStats.wins self !! k)
            + if decide (key = k) then 1 else 0)%Z.
Proof.
  unfold GameStats.wins_incr.
  pose proof (wins_item_spec self key) as (Hv & Hg & Hd & Ht & _).
  pose proof (wins_item_default self key) as Hw.
  destruct (GameStats.wins_item self key) as [v self1]. cbn [fst snd] in *.
  cbn [GameStats.games_played GameStats.draws GameStats.total_moves GameStats.wins].
  split; [done|]. split; [done|]. split; [done|].
  intros k. destruct (decide (key = k)) as [->|Hne].
  - by rewrite lookup_insert_eq, Hv.
  - rewrite lookup_insert_ne by done. rewrite Hw. lia.
Qed.

Lemma recorded_counters games self :
  recorded games self →
  GameStats.games_played self = Z.of_nat (length games)
  ∧ default 0%Z (GameStats.wins self !! "X") = count_outcome X_WINS games
  ∧ default 0%Z (GameStats.wins self !! "O") = count_outcome O_WINS games
  ∧ GameStats.draws self = count_outcome DRAW games
  ∧ GameStats.total_moves self = moves_of games.
Proof.
  induction 1 as [|self|games self st moves _ IH|games self r self' _ IH Hread].
  - done.
  - done.
  - destruct IH as (Hg & Hx & Ho & Hd & Ht).
    unfold count_outcome in *.
    change (moves_of ((st, moves) :: games)) with (moves + moves_of games)%Z.
    cbn [length].
    rewrite !filter_cons. cbn [fst].
    unfold GameStats.record_game.
    set (self1 := GameStats.mk _ _ _ _).
    destruct st; cbn [GameStats.games_played GameStats.draws GameStats.total_moves
                        GameStats.wins self1].
    + repeat case_decide; try done. cbn [length]. repeat split; try done; lia.
    + destruct (wins_incr_spec self1 "X") as (-> & -> & -> & Hw). rewrite !Hw.
      unfold self1.
      cbn [GameStats.games_played GameStats.draws GameStats.total_moves GameStats.wins].
      repeat case_decide; try done. cbn [length]. repeat split; try done; lia.
    + destruct (wins_incr_spec self1 "O") as (-> & -> & -> & Hw). rewrite !Hw.
      unfold self1.
      cbn [GameStats.games_played GameStats.draws GameStats.total_moves GameStats.wins].
      repeat case_decide; try done. cbn [length]. repeat split; try done; lia.
    + repeat case_decide; try done. cbn [length]. repeat split; try done; lia.
  - rewrite get_stats_spec in Hread. cbv zeta in Hread.
    destruct (truediv _ _); [|done]. injection Hread as _ <-.
    destruct IH as (Hg & Hx & Ho & Hd & Ht).
    destruct (wins_item_spec self "X") as (_ & Hg1 & Hd1 & Ht1 & _).
    destruct (wins_item_spec (GameStats.wins_item self "X").2 "O")
      as (_ & Hg2 & Hd2 & Ht2 & _).
    rewrite Hg2, Hg1, Hd2, Hd1, Ht2, Ht1, !wins_item_default. done.
Qed.

Lemma count_outcome_total games :
  (count_outcome X_WINS games + count_outcome O_WINS games
   + count_outcome DRAW games + count_outcome ONGOING games
   = Z.of_nat (length games))%Z.
Proof.
  unfold count_outcome. induction games as [|[st moves] games IH]; [done|].
  rewrite !filter_cons. cbn [fst length].
  destruct st; repeat case_decide; try done; cbn [length]; lia.
Qed.

(** X12.  The statistics count the games: after any calls of [record_game]
    on a new or reset instance, with reads by [get_stats] anywhere in
    between, what [get_stats] returns holds the number of games recorded and
    the numbers of those with the outcomes X_WINS, O_WINS and DRAW, and the
    read changes none of them.  A game recorded as ONGOING counts as played
    but under none of the three outcomes.  [get_stats] raises no
    ZeroDivisionError, also with no game recorded; it raises OverflowError or
    nothing, and nothing when the sum of the moves and the number of games
    are below 2^53. *)
Theorem stats_count_the_games games self :
  recorded games self →
  (∀ r self',
     GameStats.get_stats self = Ok (r, self') →
     Stats.games_played r = Z.of_nat (length games)
     ∧ Stats.x_wins r = count_outcome X_WINS games
     ∧ Stats.o_wins r = count_outcome O_WINS games
     ∧ Stats.draws r = count_outcome DRAW games
     ∧ recorded games self')
  ∧ (∀ e, GameStats.get_stats self = Raise e → e = OverflowError)
  ∧ ((Z.abs (moves_of games) < 2 ^ 53)%Z → (Z.of_nat (length games) < 2 ^ 53)%Z →
     ∃ r self', GameStats.get_stats self = Ok (r, self'))
  ∧ (count_outcome X_WINS games + count_outcome O_WINS games
     + count_outcome DRAW games
     = Z.of_nat (length games) - count_outcome ONGOING games)%Z.
Proof.
  intros Hrec. destruct (recorded_counters games self Hrec) as (Hg & Hx & Ho & Hd & Ht).
  pose proof (get_stats_spec self) as Hspec. cbv zeta in Hspec.
  destruct (wins_item_spec self "X") as (Hx1 & Hg1 & Hd1 & Ht1 & _).
  destruct (wins_item_spec (GameStats.wins_item self "X").2 "O")
    as (Ho2 & Hg2 & Hd2 & Ht2 & _).
  rewrite Hg2, Hg1, Hd2, Hd1, Ht2, Ht1, Hx1, Ho2, wins_item_default in Hspec.
  rewrite Hg, Hx, Ho, Hd, Ht in Hspec.
  assert (Z.max 1 (Z.of_nat (length games)) ≠ 0%Z) as Hdiv by lia.
  split; [|split; [|split]].
  - intros r self' Hget. rewrite Hget in Hspec.
    destruct (truediv (moves_of games) (Z.max 1 (Z.of_nat (length games))));
      [|done].
    injection Hspec as -> ->. cbn. repeat split; try done.
    by eapply recorded_read.
  - intros e Hget. rewrite Hget in Hspec.
    destruct (truediv_cases (moves_of games) (Z.max 1 (Z.of_nat (length games))) Hdiv)
      as [[q Hq] | Hq]; rewrite Hq in Hspec; congruence.
  - intros Hmoves Hgames. rewrite Hspec.
    rewrite truediv_small by lia. by eexists _, _.
  - pose proof (count_outcome_total games). lia.
Qed.

Lemma recorded_four_games :
  recorded [(X_WINS, 6); (DRAW, 9); (O_WINS, 7); (X_WINS, 5)]%Z four_games.
Proof. unfold four_games. repeat apply recorded_game. apply recorded_init. Qed.

Lemma stats_count_the_games_witness :
  recorded [(X_WINS, 6); (DRAW, 9); (O_WINS, 7); (X_WINS, 5)]%Z four_games
  ∧ let games := [(X_WINS, 6); (DRAW, 9); (O_WINS, 7); (X_WINS, 5)]%Z in
    (∀ r self',
       GameStats.get_stats four_games = Ok (r, self') →
       Stats.games_played r = Z.of_nat (length games)
       ∧ Stats.x_wins r = count_outcome X_WINS games
       ∧ Stats.o_wins r = count_outcome O_WINS games
       ∧ Stats.draws r = count_outcome DRAW games
       ∧ recorded games self')
    ∧ (∀ e, GameStats.get_stats four_games = Raise e → e = OverflowError)
    ∧ ((Z.abs (moves_of games) < 2 ^ 53)%Z → (Z.of_nat (length games) < 2 ^ 53)%Z →
       ∃ r self', GameStats.get_stats four_games = Ok (r, self'))
    ∧ (count_outcome X_WINS games + count_outcome O_WINS games
       + count_outcome DRAW games
       = Z.of_nat (length games) - count_outcome ONGOING games)%Z.
Proof.
  split; [apply recorded_four_games|].
  exact (stats_count_the_games _ four_games recorded_four_games).
Defined.

(** An average that no float holds: one game of 10^400 moves makes
    [get_stats] raise OverflowError, and one of 2^63 moves does not. *)
Example get_stats_overflow :
  GameStats.get_stats (GameStats.record_game GameStats.init DRAW (10 ^ 400))
  = Raise OverflowError
  ∧ ∃ self',
      GameStats.get_stats (GameStats.record_game GameStats.init DRAW (2 ^ 63))
      = Ok (Stats.mk 1 0 0 1 0x1p+63%float, self').
Proof. split; [by vm_compute | eexists; by vm_compute]. Qed.

(** ** analyze_board *)




Lemma weight_bounds c : (0 ≤ weight c ≤ 1)%Z.
Proof. unfold weight. destruct (String.eqb c " "); lia. Qed.

Lemma count_marked_cons c (l : list string) :
  Z.of_nat (count_marked (c :: l)) = (weight c + Z.of_nat (count_marked l))%Z.
Proof.
  unfold count_marked, weight. rewrite filter_cons.
  destruct (String.eqb_spec c " "), (decide (c ≠ " ")); try done; cbn [length]; lia.
Qed.




(** ** get_board_hash *)



Lemma one_char (c : string) :
  String.length c = 1%nat → ∃ a, c = String a "".
Proof. destruct c as [|a [|]]; try done. by exists a. Qed.






(** ** __str__ *)

(** X15.  [__str__] raises nothing, whatever the length of the board (its
    slices stop where the list does).  On a board of nine cells of one
    character each the text has 50 characters: the cell [i] stands at
    offset 20 * (i / 3) + 4 * (i mod 3), and each of the five lines, the
    three rows and the two rules between them, ends in a newline. *)
Theorem str_spec w game (b : list string) :
  heap w !! board game = Some b →
  ∃ s, __str__ game w = (Ok s, w)
    ∧ (length b = 9%nat → Forall (λ c, String.length c = 1%nat) b →
       String.length s = 50%nat
       ∧ (∀ i c, b !! i = Some c →
                 String.get (20 * (i / 3) + 4 * (i mod 3)) s = String.get 0 c)
       ∧ (∀ k, (k < 5)%nat →
               String.get (10 * k + 9) s = Some (Ascii.ascii_of_nat 10))).
Proof.
  intros Hl. eexists. split.
  { unfold __str__. cbn [for_each].
    do 3 (erewrite bind_run by (by run (list_read_run w (board game) b Hl))).
    reflexivity. }
  intros Hlen Hone.
  do 9 (destruct b as [|? b]; [done|]). destruct b; [|done].
  repeat match goal with
         | H : Forall _ (_ :: _) |- _ => apply Forall_cons in H as [[? ->]%one_char H]
         end.
  split; [reflexivity|]. split.
  - intros i c Hi.
    do 9 (destruct i as [|i]; [injection Hi as <-; reflexivity|]). done.
  - intros k Hk. do 5 (destruct k as [|k]; [reflexivity|]). lia.
Qed.

Lemma str_spec_witness :
  heap world_won !! board game_won = Some board_won
  ∧ ∃ s, __str__ game_won world_won = (Ok s, world_won)
      ∧ (length board_won = 9%nat →
         Forall (λ c, String.length c = 1%nat) board_won →
         String.length s = 50%nat
         ∧ (∀ i c, board_won !! i = Some c →
                   String.get (20 * (i / 3) + 4 * (i mod 3)) s = String.get 0 c)
         ∧ (∀ k, (k < 5)%nat →
                 String.get (10 * k + 9) s = Some (Ascii.ascii_of_nat 10))).
Proof.
  split; [reflexivity|].
  exact (str_spec world_won game_won board_won eq_refl).
Defined.

(** ** The custom players of the examples *)

Lemma first_available_some candidates available_moves p :
  first_available candidates available_moves = Some p →
  p ∈ candidates ∧ p ∈ available_moves.
Proof.
  intros [Hin Hp]%find_some. split; [by apply list_elem_of_In|].
  by apply bool_decide_eq_true in Hp.
Qed.

Lemma first_available_none candidates available_moves p :
  first_available candidates available_moves = None →
  p ∈ candidates → p ∉ available_moves.
Proof.
  intros Hnone Hp%list_elem_of_In.
  pose proof (find_none _ _ Hnone p Hp) as Hf. cbv beta in Hf.
  by apply bool_decide_eq_false in Hf.
Qed.

(** The first candidate that is available, in the order of the candidates. *)
Lemma first_available_first candidates available_moves p :
  first_available candidates available_moves = Some p →
  ∃ pre post, candidates = pre ++ p :: post ∧ ∀ q, q ∈ pre → q ∉ available_moves.
Proof.
  unfold first_available.
  induction candidates as [|c candidates IH]; [done|]. cbn [find].
  destruct (bool_decide (c ∈ available_moves)) eqn:Hc.
  - intros [= ->]. exists [], candidates. split; [done|]. by intros q Hq%elem_of_nil.
  - intros (pre & post & -> & Hpre)%IH. exists (c :: pre), post. split; [done|].
    intros q [-> | Hq]%elem_of_cons; [by apply bool_decide_eq_false in Hc | by apply Hpre].
Qed.

Lemma nine_cells i :
  (0 ≤ i ≤ 8)%Z →
  i = 0%Z ∨ i = 1%Z ∨ i = 2%Z ∨ i = 3%Z ∨ i = 4%Z ∨ i = 5%Z ∨ i = 6%Z
  ∨ i = 7%Z ∨ i = 8%Z.
Proof. lia. Qed.

Lemma corner_not_edge p :
  p ∈ [0; 2; 6; 8]%Z ∨ p = 4%Z → p ∉ [1; 3; 5; 7]%Z.
Proof. rewrite !elem_of_cons, !elem_of_nil. lia. Qed.

Lemma centre_not_corner : 4%Z ∉ [0; 2; 6; 8]%Z.
Proof. rewrite !elem_of_cons, !elem_of_nil. lia. Qed.

Lemma corner_first_run w game (b : list string) :
  heap w !! board game = Some b → length b = 9%nat →
  ∃ r, CornerFirstAI.get_move game w = (r, w)
    ∧ match Val.get_available_moves b with
      | [] => r = Raise IndexError
      | _ => ∃ m, r = Ok m ∧ m ∈ Val.get_available_moves b
               ∧ (m ∈ [1; 3; 5; 7]%Z →
                  ∀ p, p ∈ [0; 2; 6; 8; 4]%Z → p ∉ Val.get_available_moves b)
               ∧ (m = 4%Z →
                  ∀ p, p ∈ [0; 2; 6; 8]%Z → p ∉ Val.get_available_moves b)
      end.
Proof.
  intros Hl Hlen. unfold CornerFirstAI.get_move.
  run (get_available_moves_run w (board game) b Hl Hlen game).
  pose proof (available_elem_of b) as Hav.
  destruct (Val.get_available_moves b) as [|x av] eqn:Heq.
  { by exists (Raise IndexError). }
  assert (∃ i, i ∈ Val.get_available_moves b) as [i Hi]
    by (exists x; rewrite Heq; by left).
  rewrite <- Heq in *. clear Heq.
  destruct (first_available [0; 2; 6; 8]%Z _) as [p|] eqn:Hcorner.
  { destruct (first_available_some _ _ _ Hcorner) as [Hp Hin].
    exists (Ok p). split; [done|]. destruct (Val.get_available_moves b); [by inversion Hin|].
    exists p. split; [done|]. split; [done|].
    split; [intros Hedge; by destruct (corner_not_edge p (or_introl Hp))|].
    intros ->. by destruct centre_not_corner. }
  destruct (first_available [4]%Z _) as [p|] eqn:Hcenter.
  { destruct (first_available_some _ _ _ Hcenter) as [Hp Hin].
    exists (Ok p). split; [done|]. destruct (Val.get_available_moves b) eqn:Heq;
      [by inversion Hin|]. rewrite <- Heq in *.
    exists p. split; [done|]. split; [done|].
    apply list_elem_of_singleton in Hp as ->.
    split; [intros Hedge; by destruct (corner_not_edge 4%Z (or_intror eq_refl))|].
    intros _ q Hq. by apply (first_available_none _ _ q Hcorner). }
  destruct (first_available [1; 3; 5; 7]%Z _) as [p|] eqn:Hedge.
  { destruct (first_available_some _ _ _ Hedge) as [Hp Hin].
    exists (Ok p). split; [done|]. destruct (Val.get_available_moves b) eqn:Heq;
      [by inversion Hin|]. rewrite <- Heq in *.
    exists p. split; [done|]. split; [done|]. split.
    - intros _ q [Hq | ->%list_elem_of_singleton]%(elem_of_app [0; 2; 6; 8]%Z [4]%Z).
      + by apply (first_available_none _ _ q Hcorner).
      + apply (first_available_none _ _ 4%Z Hcenter). by left.
    - intros ->. by destruct (corner_not_edge 4%Z (or_intror eq_refl)). }
  exfalso. pose proof Hi as [Hrange _]%Hav; [|done].
  destruct (nine_cells i Hrange) as [-> | [-> | [-> | [-> | [-> | [-> | [-> | [-> | ->]]]]]]]];
    first [ by (eapply (first_available_none _ _ _ Hcorner); [|exact Hi];
                rewrite !elem_of_cons; auto 10)
          | by (eapply (first_available_none _ _ _ Hcenter); [|exact Hi];
                rewrite !elem_of_cons; auto 10)
          | by (eapply (first_available_none _ _ _ Hedge); [|exact Hi];
                rewrite !elem_of_cons; auto 10) ].
Qed.

Lemma all_hold_run w l (b : list string) symbol pattern :
  heap w !! l = Some b → Forall (λ i, 0 ≤ i < Z.of_nat (length b))%Z pattern →
  DefensiveAI.all_hold l symbol pattern w
  = (Ok (forallb (λ pos, String.eqb (Val.cell b pos) symbol) pattern), w).
Proof.
  intros Hl Hp. induction Hp as [|pos rest Hpos _ IH]; [done|].
  cbn [DefensiveAI.all_hold forallb]. run (list_get_run w l b pos Hl Hpos).
  by destruct (String.eqb (Val.cell b pos) symbol).
Qed.

Lemma pattern_in_range (b : list string) pattern :
  length b = 9%nat → pattern_ok pattern →
  Forall (λ i, 0 ≤ i < Z.of_nat (length b))%Z pattern.
Proof.
  intros Hlen (p0 & p1 & p2 & -> & H0 & H1 & H2). rewrite Hlen.
  repeat constructor; lia.
Qed.

Lemma check_winner_from_run w l (b : list string) symbol patterns :
  heap w !! l = Some b → length b = 9%nat → Forall pattern_ok patterns →
  DefensiveAI._check_winner_from l symbol patterns w
  = (Ok (existsb (λ pattern,
                    forallb (λ pos, String.eqb (Val.cell b pos) symbol) pattern)
           patterns), w).
Proof.
  intros Hl Hlen Hok. induction Hok as [|pattern rest Hp _ IH]; [done|].
  cbn [DefensiveAI._check_winner_from existsb].
  run (all_hold_run w l b symbol pattern Hl (pattern_in_range b pattern Hlen Hp)).
  by destruct (forallb _ pattern).
Qed.

Lemma winning_move_run symbol moves : ∀ w l (b : list string),
  heap w !! l = Some b → length b = 9%nat →
  Forall (λ m, (0 ≤ m < 9)%Z ∧ Val.cell b m = " ") moves →
  DefensiveAI.winning_move l symbol moves w
  = match find (wins_with b symbol) moves with
    | Some m => (Ok (Some m), set_heap (<[l := Val.place b m symbol]> (heap w)) w)
    | None => (Ok None, w)
    end.
Proof.
  induction moves as [|move rest IH]; intros w l b Hl Hlen Hmoves; [done|].
  apply Forall_cons in Hmoves as [[Hmove Hcell] Hrest].
  cbn [DefensiveAI.winning_move find].
  erewrite bind_run by (apply (list_set_run w l b move symbol Hl); lia).
  set (w1 := set_heap _ w).
  assert (heap w1 !! l = Some (Val.place b move symbol)) as Hl1
    by (unfold w1; cbn [heap set_heap]; apply lookup_insert_eq).
  unfold DefensiveAI._check_winner.
  erewrite bind_run
    by (apply (check_winner_from_run w1 l _ symbol WIN_PATTERNS Hl1);
        [by rewrite place_length | apply WIN_PATTERNS_ok]).
  fold (wins_with b symbol move).
  destruct (wins_with b symbol move); [done|].
  erewrite bind_run
    by (apply (list_set_run w1 l _ move " " Hl1); rewrite place_length; lia).
  unfold w1. rewrite (undo_move w l b move symbol Hl) by (done || lia).
  by apply IH.
Qed.

Lemma available_cells (b : list string) :
  length b = 9%nat →
  Forall (λ m, (0 ≤ m < 9)%Z ∧ Val.cell b m = " ") (Val.get_available_moves b).
Proof.
  intros Hlen. apply Forall_forall. intros m [Hc Hm%elem_of_range_9]%list_elem_of_filter.
  done.
Qed.

(** What [DefensiveAI.get_move] returns on the board [b]: a move that wins
    at once, else a move that keeps the opponent from winning at once,
    else the first of its preferences that is available. *)
Lemma defensive_run self game w (b : list string) :
  heap w !! board game = Some b → length b = 9%nat →
  let moves := Val.get_available_moves b in
  ∃ r w',
    DefensiveAI.get_move self game w = (r, w')
    ∧ heap w' !! board game = Some b
    ∧ stdin w' = stdin w ∧ stdout w' = stdout w
    ∧ r = match find (wins_with b (DefensiveAI.symbol self)) moves with
          | Some m => Ok m
          | None =>
              match find (wins_with b (DefensiveAI.opponent_symbol self)) moves with
              | Some m => Ok m
              | None =>
                  match first_available [4; 0; 2; 6; 8; 1; 3; 5; 7]%Z moves with
                  | Some m => Ok m
                  | None => index moves 0
                  end
              end
          end.
Proof.
  intros Hl Hlen moves. unfold DefensiveAI.get_move.
  run (get_board_copy_run w game b Hl).
  set (l := fresh (dom (heap w))). set (w1 := set_heap _ w).
  assert (heap w1 !! board game = Some b) as Hl1
    by (unfold w1, l; cbn [heap set_heap]; by rewrite lookup_copied).
  assert (heap w1 !! l = Some b) as Hcopy
    by (unfold w1; cbn [heap set_heap]; apply lookup_insert_eq).
  assert (l ≠ board game) as Hne.
  { intros Heq. pose proof (fresh_lookup (heap w)) as Hfresh. fold l in Hfresh.
    rewrite Heq, Hl in Hfresh. done. }
  run (get_available_moves_run w1 (board game) b Hl1 Hlen game). fold moves.
  unfold bind at 1.
  rewrite (winning_move_run _ moves w1 l b Hcopy Hlen (available_cells b Hlen)).
  destruct (find (wins_with b (DefensiveAI.symbol self)) moves) as [m|].
  { eexists _, _. split; [done|]. cbn [heap set_heap stdin stdout].
    by rewrite lookup_insert_ne. }
  unfold bind at 1.
  rewrite (winning_move_run _ moves w1 l b Hcopy Hlen (available_cells b Hlen)).
  destruct (find (wins_with b (DefensiveAI.opponent_symbol self)) moves) as [m|].
  { eexists _, _. split; [done|]. cbn [heap set_heap stdin stdout].
    by rewrite lookup_insert_ne. }
  destruct (first_available _ moves) as [m|]; by eexists _, _.
Qed.

Lemma first_available_covers candidates available_moves :
  available_moves ≠ [] → (∀ i, i ∈ available_moves → i ∈ candidates) →
  ∃ p, first_available candidates available_moves = Some p.
Proof.
  intros Hne Hcover.
  destruct (first_available candidates available_moves) as [p|] eqn:Hfirst;
    [by exists p|].
  destruct available_moves as [|i rest]; [done|].
  destruct (first_available_none _ _ i Hfirst); [apply Hcover|]; by left.
Qed.

Lemma available_in_nine (b : list string) (candidates : list Z) :
  length b = 9%nat → Forall (λ i, i ∈ candidates) (range 9) →
  ∀ i, i ∈ Val.get_available_moves b → i ∈ candidates.
Proof.
  intros Hlen Hall i [_ Hi]%list_elem_of_filter.
  by apply (proj1 (Forall_forall _ _) Hall).
Qed.

Lemma all_nine_preferences :
  Forall (λ i, i ∈ [4; 0; 2; 6; 8; 1; 3; 5; 7]%Z) (range 9)
  ∧ Forall (λ i, i ∈ [0; 2; 6; 8; 4; 1; 3; 5; 7]%Z) (range 9).
Proof.
  change (range 9) with [0; 1; 2; 3; 4; 5; 6; 7; 8]%Z.
  split; repeat constructor; rewrite !elem_of_cons; auto 10.
Qed.

Lemma defensive_move_run game w (b : list string) :
  heap w !! board game = Some b → length b = 9%nat →
  ∃ m, PatternAI._get_defensive_move game w = (Ok m, w)
    ∧ match Val.get_available_moves b with
      | [] => m = 0%Z
      | _ => first_available [0; 2; 6; 8; 4; 1; 3; 5; 7]%Z (Val.get_available_moves b)
             = Some m
      end.
Proof.
  intros Hl Hlen. unfold PatternAI._get_defensive_move.
  run (get_available_moves_run w (board game) b Hl Hlen game).
  pose proof (available_in_nine b _ Hlen (proj2 all_nine_preferences)) as Hcover.
  destruct (Val.get_available_moves b) as [|x av] eqn:Heq; [by exists 0%Z|].
  destruct (first_available_covers [0; 2; 6; 8; 4; 1; 3; 5; 7]%Z (x :: av))
    as [p Hp]; [done | done |].
  rewrite Hp. by exists p.
Qed.

(** Five marked cells are more than two marks. *)
Lemma five_marked (b : list string) :
  length b = 9%nat →
  (∀ i, i ∈ [0; 2; 6; 8; 4]%Z → Val.cell b i ≠ " ") →
  (5 ≤ count_marked b)%nat.
Proof.
  intros Hlen Hmarked.
  do 9 (destruct b as [|? b]; [done|]). destruct b; [|done].
  assert (∀ c, c ≠ " " → weight c = 1%Z) as Hw.
  { intros c Hc. unfold weight. by destruct (String.eqb_spec c " "). }
  assert (∀ i, i ∈ [0; 2; 6; 8; 4]%Z → weight (Val.cell [s; s0; s1; s2; s3; s4; s5; s6; s7] i) = 1%Z)
    as Hone by (intros i Hi; by apply Hw, Hmarked).
  pose proof (Hone 0%Z ltac:(rewrite !elem_of_cons; auto 10)) as H0.
  pose proof (Hone 2%Z ltac:(rewrite !elem_of_cons; auto 10)) as H2.
  pose proof (Hone 6%Z ltac:(rewrite !elem_of_cons; auto 10)) as H6.
  pose proof (Hone 8%Z ltac:(rewrite !elem_of_cons; auto 10)) as H8.
  pose proof (Hone 4%Z ltac:(rewrite !elem_of_cons; auto 10)) as H4.
  change (weight s = 1%Z) in H0. change (weight s1 = 1%Z) in H2.
  change (weight s5 = 1%Z) in H6. change (weight s7 = 1%Z) in H8.
  change (weight s3 = 1%Z) in H4.
  apply Nat2Z.inj_le. rewrite !count_marked_cons.
  change (Z.of_nat (count_marked [])) with 0%Z.
  pose proof (weight_bounds s0). pose proof (weight_bounds s2).
  pose proof (weight_bounds s4). pose proof (weight_bounds s6). lia.
Qed.

Lemma pattern_run game w (b : list string) :
  heap w !! board game = Some b → length b = 9%nat →
  let moves := Val.get_available_moves b in
  ∃ m w',
    PatternAI.get_move game w = (Ok m, w')
    ∧ heap w' !! board game = Some b
    ∧ stdin w' = stdin w ∧ stdout w' = stdout w
    ∧ (moves = [] → m = 0%Z)
    ∧ (moves ≠ [] → m ∈ moves)
    ∧ (count_empty b = 9%nat → m = 4%Z)
    ∧ (count_empty b = 7%nat → b !! 4%nat = Some " " → m = 4%Z)
    ∧ (count_empty b = 7%nat → b !! 4%nat ≠ Some " " →
       first_available [0; 2; 6; 8]%Z moves = Some m)
    ∧ (count_empty b ≠ 9%nat → count_empty b ≠ 7%nat → moves ≠ [] →
       first_available [0; 2; 6; 8; 4; 1; 3; 5; 7]%Z moves = Some m).
Proof.
  intros Hl Hlen moves. unfold PatternAI.get_move.
  run (get_board_copy_run w game b Hl).
  set (l := fresh (dom (heap w))). set (w1 := set_heap _ w).
  assert (heap w1 !! board game = Some b) as Hl1
    by (unfold w1, l; cbn [heap set_heap]; by rewrite lookup_copied).
  assert (heap w1 !! l = Some b) as Hcopy
    by (unfold w1; cbn [heap set_heap]; apply lookup_insert_eq).
  run (get_available_moves_run w1 (board game) b Hl1 Hlen game). fold moves.
  assert (length moves = count_empty b) as Hcount.
  { pose proof (available_length b) as Ha. by rewrite Hlen in Ha. }
  pose proof (count_empty_marked b) as Hsum. rewrite Hlen in Hsum.
  pose proof (available_elem_of b) as Hav. fold moves in Hav.
  destruct (defensive_move_run game w1 b Hl1 Hlen) as (md & Hdef & Hmd).
  fold moves in Hmd.
  assert (moves ≠ [] → first_available [0; 2; 6; 8; 4; 1; 3; 5; 7]%Z moves = Some md)
    as Hmd' by (destruct moves; done).
  assert (moves = [] → md = 0%Z) as Hmd0 by (intros Hnil; by rewrite Hnil in Hmd).
  rewrite Hcount.
  destruct (Z.eqb_spec (9 - Z.of_nat (count_empty b)) 0) as [Hzero|Hzero].
  { (* nothing on the board: the centre *)
    assert (count_empty b = 9%nat) as Hnine by lia.
    assert (b !! 4%nat = Some " ") as Hcentre.
    { destruct (lookup_lt_is_Some_2 b 4) as [c Hc]; [lia|].
      destruct (decide (c = " ")) as [-> | Hne]; [done|].
      pose proof (length_filter_lt (λ c, c = " ") b c
                    (list_elem_of_lookup_2 _ _ _ Hc) Hne) as Hlt.
      unfold count_empty in Hnine. lia. }
    erewrite bind_run by reflexivity.
    exists 4%Z, w1. split; [done|]. split; [done|]. split; [done|]. split; [done|].
    assert (4%Z ∈ moves) as Hin by (apply Hav; [done|]; split; [lia | done]).
    split; [intros Hnil; rewrite Hnil in Hin; by inversion Hin|]. split; [done|]. split; [done|].
    split; [done|]. split; [lia|]. intros Hne. lia. }
  destruct (Z.eqb_spec (9 - Z.of_nat (count_empty b)) 2) as [Htwo|Htwo].
  { (* two marks on the board *)
    assert (count_empty b = 7%nat) as Hseven by lia.
    assert (Val.cell b 4 = " " ↔ b !! 4%nat = Some " ") as Hcell
      by (apply (cell_lookup b 4%Z); lia).
    unfold bind at 1. unfold bind at 1.
    rewrite (list_get_run w1 l b 4%Z Hcopy) by lia.
    destruct (String.eqb_spec (Val.cell b 4) " ") as [Hc|Hc]; cbn [negb].
    - assert (4%Z ∈ moves) as Hin by (apply Hav; [done|]; split; [lia | by apply Hcell]).
      rewrite bool_decide_eq_true_2 by done. unfold ret at 1.
      exists 4%Z, w1. split; [done|]. split; [done|]. split; [done|]. split; [done|].
      split; [intros Hnil; rewrite Hnil in Hin; by inversion Hin|]. split; [done|]. split; [done|].
      split; [done|]. split; [intros _ Hno; destruct Hno; by apply Hcell|].
      intros _ Hne. lia.
    - unfold ret at 1.
      destruct (first_available [0; 2; 6; 8]%Z moves) as [p|] eqn:Hcorner.
      + destruct (first_available_some _ _ _ Hcorner) as [_ Hin].
        exists p, w1. split; [done|]. split; [done|]. split; [done|]. split; [done|].
        split; [intros Hnil; rewrite Hnil in Hin; by inversion Hin|]. split; [done|].
        split; [lia|]. split; [intros _ Hyes; destruct Hc; by apply Hcell|].
        split; [done|]. intros _ Hne. lia.
      + exfalso.
        assert (5 ≤ count_marked b)%nat; [|lia].
        apply five_marked; [done|].
        intros i [Hi | ->%list_elem_of_singleton]%(elem_of_app [0; 2; 6; 8]%Z [4]%Z);
          [|done].
        intros Hempty. apply (first_available_none _ _ i Hcorner Hi).
        assert (0 ≤ i ≤ 8)%Z as Hrange
          by (rewrite !elem_of_cons, elem_of_nil in Hi; lia).
        apply Hav; [done|]. split; [done|].
        apply cell_lookup; [|done]. rewrite Hlen. lia. }
  erewrite bind_run by reflexivity.
  exists md, w1. split; [done|]. split; [done|]. split; [done|]. split; [done|].
  split; [done|].
  split; [intros Hne; by destruct (first_available_some _ _ _ (Hmd' Hne))|].
  split; [lia|]. split; [lia|]. split; [lia|]. intros _ _. done.
Qed.

Lemma wins_with_completes (b : list string) symbol move :
  length b = 9%nat → symbol ≠ " " →
  wins_with b symbol move = true ↔ completes b symbol move.
Proof.
  intros Hlen Hsym. unfold wins_with, completes. rewrite existsb_exists.
  assert (∀ q, q ∈ WIN_PATTERNS →
            forallb (λ pos, String.eqb (Val.cell (Val.place b move symbol) pos) symbol) q
            = true
            ↔ full_line (Val.place b move symbol) q symbol) as Hq.
  { intros q Hq. rewrite forallb_forall. unfold full_line.
    pose proof (proj1 (Forall_forall _ _) WIN_PATTERNS_ok q Hq)
      as (p0 & p1 & p2 & -> & H0 & H1 & H2).
    assert (∀ i, i ∈ [p0; p1; p2] →
              (0 ≤ i < Z.of_nat (length (Val.place b move symbol)))%Z) as Hrange
      by (intros i Hi; rewrite place_length, Hlen;
          rewrite !elem_of_cons, elem_of_nil in Hi; lia).
    split.
    - intros Hall. split; [done|]. intros i Hi.
      apply cell_lookup; [by apply Hrange|].
      apply String.eqb_eq, Hall. by apply list_elem_of_In.
    - intros [_ Hall] i Hi%list_elem_of_In. apply String.eqb_eq.
      apply cell_lookup; [by apply Hrange | by apply Hall]. }
  split.
  - intros (q & Hin%list_elem_of_In & Hall). exists q. split; [done | by apply Hq].
  - intros (q & Hin & Hfull). exists q. split; [by apply list_elem_of_In | by apply Hq].
Qed.

Lemma find_ascending (f : Z → bool) (l : list Z) m :
  ascending l → find f l = Some m →
  m ∈ l ∧ f m = true ∧ ∀ x, x ∈ l → f x = true → (m ≤ x)%Z.
Proof.
  induction l as [|y l IH]; [done|]. intros [Hy Hl]. cbn [find].
  destruct (f y) eqn:Hfy.
  - intros [= ->]. split; [by left|]. split; [done|].
    intros x [-> | Hx]%elem_of_cons _; [lia|].
    pose proof (proj1 (Forall_forall _ _) Hy x Hx) as Hlt. cbv beta in Hlt. lia.
  - intros (Hm & Hfm & Hlow)%IH; [|done]. split; [by right|]. split; [done|].
    intros x [-> | Hx]%elem_of_cons Hfx; [congruence | by apply Hlow].
Qed.

Lemma find_none_elem_of (f : Z → bool) (l : list Z) x :
  find f l = None → x ∈ l → f x = false.
Proof. intros Hnone Hx%list_elem_of_In. by apply (find_none _ _ Hnone). Qed.

Lemma available_ascending (b : list string) : ascending (Val.get_available_moves b).
Proof. apply ascending_filter, ascending_range_9. Qed.

(** A player whose [get_move] returns an available move, and leaves the
    board list as it is, whenever the board has an empty cell, plays by the
    rules. *)
Lemma legal_from_available p :
  (∀ w game (b : list string),
     heap w !! board game = Some b → length b = 9%nat → " " ∈ b →
     ∃ m w', get_move p game w = (Ok m, w')
       ∧ heap w' !! board game = Some b ∧ m ∈ Val.get_available_moves b) →
  plays_legally p.
Proof.
  intros Hp w game Hreach Hongoing.
  destruct (reachable_ongoing_has_empty w game Hreach Hongoing)
    as (b & Hl & Hlen & Hempty).
  destruct (Hp w game b Hl Hlen Hempty) as (m & w' & Hget & Hl' & Hm).
  exists m, w'. split; [done|]. split; [by rewrite Hl', Hl|].
  by eapply available_legal.
Qed.

Lemma corner_first_legal symbol name : plays_legally (CornerFirstAI.new symbol name).
Proof.
  apply legal_from_available. intros w game b Hl Hlen Hempty.
  cbn [get_move CornerFirstAI.new].
  destruct (corner_first_run w game b Hl Hlen) as (r & Hrun & Hr).
  pose proof (available_not_nil b Hlen Hempty) as Hne.
  destruct (Val.get_available_moves b) eqn:Heq; [done|]. rewrite <- Heq in *.
  destruct Hr as (m & -> & Hm & _). by exists m, w.
Qed.

Lemma defensive_choice self (b : list string) :
  length b = 9%nat → " " ∈ b →
  let moves := Val.get_available_moves b in
  ∃ m, m ∈ moves
    ∧ match find (wins_with b (DefensiveAI.symbol self)) moves with
      | Some m => Ok m
      | None =>
          match find (wins_with b (DefensiveAI.opponent_symbol self)) moves with
          | Some m => Ok m
          | None =>
              match first_available [4; 0; 2; 6; 8; 1; 3; 5; 7]%Z moves with
              | Some m => Ok m
              | None => index moves 0
              end
          end
      end = Ok m.
Proof.
  intros Hlen Hempty moves.
  pose proof (available_not_nil b Hlen Hempty) as Hne. fold moves in Hne.
  destruct (find (wins_with b (DefensiveAI.symbol self)) moves) as [m|] eqn:Hown.
  { exists m. split; [|done]. by apply list_elem_of_In, (find_some _ _ Hown). }
  destruct (find (wins_with b (DefensiveAI.opponent_symbol self)) moves)
    as [m|] eqn:Hopp.
  { exists m. split; [|done]. by apply list_elem_of_In, (find_some _ _ Hopp). }
  destruct (first_available_covers [4; 0; 2; 6; 8; 1; 3; 5; 7]%Z moves Hne)
    as [p Hp]; [apply (available_in_nine b _ Hlen (proj1 all_nine_preferences))|].
  rewrite Hp. exists p. split; [|done]. by destruct (first_available_some _ _ _ Hp).
Qed.

Lemma defensive_legal self : plays_legally (DefensiveAI.player self).
Proof.
  apply legal_from_available. intros w game b Hl Hlen Hempty.
  cbn [get_move DefensiveAI.player].
  destruct (defensive_run self game w b Hl Hlen) as (r & w' & Hrun & Hl' & _ & _ & ->).
  destruct (defensive_choice self b Hlen Hempty) as (m & Hm & Hchoice).
  exists m, w'. by rewrite Hrun, Hchoice.
Qed.

Lemma pattern_legal symbol name : plays_legally (PatternAI.new symbol name).
Proof.
  apply legal_from_available. intros w game b Hl Hlen Hempty.
  cbn [get_move PatternAI.new].
  destruct (pattern_run game w b Hl Hlen) as (m & w' & Hrun & Hl' & _ & _ & _ & Hm & _).
  exists m, w'. split; [done|]. split; [done|]. by apply Hm, available_not_nil.
Qed.

(** The silent game on a new board against the search playing "O". *)
Lemma silent_game_against_search player_x self w game w0 :
  plays_legally player_x → full_strength self "O" "X" →
  TicTacToe_init w = (Ok game, w0) →
  ∃ game' w',
    Tournament.play_silently 10 game player_x (SmartAI.player self) w0
    = (Ok game', w')
    ∧ (game_state game' = O_WINS ∨ game_state game' = DRAW).
Proof.
  intros Hx Hself Hinit. pose proof Hself as (Hsym & Hopp & Hhard).
  destruct (guarded_game [(self, X_WINS)] player_x (SmartAI.player self) w game w0)
    as [_ (game' & w' & Hrun & Hreach & Hover & Hsafe)]; [done | | | |].
  - intros s lost [= -> ->]%list_elem_of_singleton. by right.
  - apply keeps_guarded_legal; [done|].
    intros s lost [= -> ->]%list_elem_of_singleton. by rewrite Hsym.
  - apply (keeps_guarded_search _ self X_WINS); [by apply list_elem_of_singleton|done..|].
    intros s lost Hs%list_elem_of_singleton. by left.
  - exists game', w'. split; [done|].
    pose proof (Hsafe self X_WINS ltac:(by apply list_elem_of_singleton)) as Hnot.
    by destruct (game_state game'); auto.
Qed.

(** X16.  The three players of examples/custom_player_example.py play by the
    rules: in every reachable game that is ongoing each returns a move that
    [is_valid_move] accepts and leaves the board list as it is.  So each
    game of the demonstration, the custom player as "X" on a new board
    against [SmartAI('O', "Smart AI")], ends within the 10 turns of the
    loop, and the outcome is O_WINS or DRAW. *)
Theorem custom_players_play_by_the_rules :
  (∀ symbol name, plays_legally (CornerFirstAI.new symbol name))
  ∧ (∀ self, plays_legally (DefensiveAI.player self))
  ∧ (∀ symbol name, plays_legally (PatternAI.new symbol name))
  ∧ ∀ custom_player w game w0,
      custom_player = CornerFirstAI.new "X" ""
      ∨ custom_player = DefensiveAI.player (DefensiveAI.init "X" "")
      ∨ custom_player = PatternAI.new "X" "" →
      TicTacToe_init w = (Ok game, w0) →
      ∃ game' w',
        Tournament.play_silently 10 game custom_player
          (SmartAI.player (SmartAI.init "O" "Smart AI" "hard")) w0
        = (Ok game', w')
        ∧ (game_state game' = O_WINS ∨ game_state game' = DRAW).
Proof.
  split; [apply corner_first_legal|]. split; [apply defensive_legal|].
  split; [apply pattern_legal|].
  intros custom_player w game w0 Hcustom Hinit.
  apply (silent_game_against_search custom_player _ w); [|done|done].
  destruct Hcustom as [-> | [-> | ->]];
    [apply corner_first_legal | apply defensive_legal | apply pattern_legal].
Qed.

(** X17.  [DefensiveAI.get_move] on a board of nine cells, for marks that
    are not the empty cell: when some available move fills a pattern with
    its own symbol it returns the lowest such move; else, when some
    available move would fill a pattern with the opponent's symbol, it
    returns the lowest such move; else the first of 4, 0, 2, 6, 8, 1, 3, 5,
    7 that is available.  It works on a copy: the game's board list and the
    console are as they were.  On a full board it raises IndexError. *)
Theorem defensive_ai_wins_or_blocks self game w (b : list string) :
  heap w !! board game = Some b → length b = 9%nat →
  DefensiveAI.symbol self ≠ " " → DefensiveAI.opponent_symbol self ≠ " " →
  let moves := Val.get_available_moves b in
  let own x := x ∈ moves ∧ completes b (DefensiveAI.symbol self) x in
  let block x := x ∈ moves ∧ completes b (DefensiveAI.opponent_symbol self) x in
  ∃ r w',
    DefensiveAI.get_move self game w = (r, w')
    ∧ heap w' !! board game = Some b
    ∧ stdin w' = stdin w ∧ stdout w' = stdout w
    ∧ (" " ∉ b → r = Raise IndexError)
    ∧ (" " ∈ b →
       ∃ m, r = Ok m ∧ m ∈ moves
         ∧ ((∃ x, own x) → own m ∧ ∀ x, own x → (m ≤ x)%Z)
         ∧ (¬ (∃ x, own x) → (∃ x, block x) →
            block m ∧ ∀ x, block x → (m ≤ x)%Z)
         ∧ (¬ (∃ x, own x) → ¬ (∃ x, block x) →
            first_available [4; 0; 2; 6; 8; 1; 3; 5; 7]%Z moves = Some m)).
Proof.
  intros Hl Hlen Hsym Hopp moves own block.
  destruct (defensive_run self game w b Hl Hlen)
    as (r & w' & Hrun & Hl' & Hin & Hout & Hr).
  fold moves in Hr. exists r, w'.
  split; [done|]. split; [done|]. split; [done|]. split; [done|].
  pose proof (available_ascending b) as Hasc. fold moves in Hasc.
  split.
  - intros Hfull. pose proof (available_nil b Hlen Hfull) as Hnil. fold moves in Hnil.
    rewrite Hnil in Hr. done.
  - intros Hempty.
    destruct (defensive_choice self b Hlen Hempty) as (m & Hm & Hchoice).
    fold moves in Hm, Hchoice. rewrite Hchoice in Hr. exists m.
    split; [done|]. split; [done|].
    destruct (find (wins_with b (DefensiveAI.symbol self)) moves) as [m1|] eqn:Hown.
    { injection Hchoice as ->.
      destruct (find_ascending _ _ _ Hasc Hown) as (_ & Hwin & Hlow).
      assert (own m) as Hownm
        by (split; [done | by apply wins_with_completes]).
      split; [|split; [|intros Hno; destruct Hno; by exists m]].
      - intros _. split; [done|]. intros x [Hx Hcx]. apply Hlow; [done|].
        by apply wins_with_completes.
      - intros Hno. destruct Hno. by exists m. }
    assert (¬ ∃ x, own x) as Hnoown.
    { intros (x & Hx & Hcx). apply wins_with_completes in Hcx; [|done..].
      by rewrite (find_none_elem_of _ _ x Hown Hx) in Hcx. }
    split; [intros Hyes; by destruct Hnoown|].
    destruct (find (wins_with b (DefensiveAI.opponent_symbol self)) moves)
      as [m2|] eqn:Hblock.
    { injection Hchoice as ->.
      destruct (find_ascending _ _ _ Hasc Hblock) as (_ & Hwin & Hlow).
      assert (block m) as Hblockm
        by (split; [done | by apply wins_with_completes]).
      split; [|intros _ Hno; destruct Hno; by exists m].
      intros _ _. split; [done|]. intros x [Hx Hcx]. apply Hlow; [done|].
      by apply wins_with_completes. }
    assert (¬ ∃ x, block x) as Hnoblock.
    { intros (x & Hx & Hcx). apply wins_with_completes in Hcx; [|done..].
      by rewrite (find_none_elem_of _ _ x Hblock Hx) in Hcx. }
    split; [intros _ Hyes; by destruct Hnoblock|].
    intros _ _.
    destruct (first_available [4; 0; 2; 6; 8; 1; 3; 5; 7]%Z moves) as [p|] eqn:Hp.
    + by injection Hchoice as ->.
    + pose proof (available_not_nil b Hlen Hempty) as Hne. fold moves in Hne.
      destruct (first_available_covers [4; 0; 2; 6; 8; 1; 3; 5; 7]%Z moves Hne)
        as [p' Hp'];
        [apply (available_in_nine b _ Hlen (proj1 all_nine_preferences))|].
      congruence.
Qed.

Lemma defensive_ai_wins_or_blocks_witness :
  heap world3 !! board game3 = Some board3
  ∧ length board3 = 9%nat
  ∧ DefensiveAI.symbol (DefensiveAI.init "X" "") ≠ " "
  ∧ DefensiveAI.opponent_symbol (DefensiveAI.init "X" "") ≠ " "
  ∧ let self := DefensiveAI.init "X" "" in
    let moves := Val.get_available_moves board3 in
    let own x := x ∈ moves ∧ completes board3 (DefensiveAI.symbol self) x in
    let block x := x ∈ moves ∧ completes board3 (DefensiveAI.opponent_symbol self) x in
    ∃ r w',
      DefensiveAI.get_move self game3 world3 = (r, w')
      ∧ heap w' !! board game3 = Some board3
      ∧ stdin w' = stdin world3 ∧ stdout w' = stdout world3
      ∧ (" " ∉ board3 → r = Raise IndexError)
      ∧ (" " ∈ board3 →
         ∃ m, r = Ok m ∧ m ∈ moves
           ∧ ((∃ x, own x) → own m ∧ ∀ x, own x → (m ≤ x)%Z)
           ∧ (¬ (∃ x, own x) → (∃ x, block x) →
              block m ∧ ∀ x, block x → (m ≤ x)%Z)
           ∧ (¬ (∃ x, own x) → ¬ (∃ x, block x) →
              first_available [4; 0; 2; 6; 8; 1; 3; 5; 7]%Z moves = Some m)).
Proof.
  split; [reflexivity|]. split; [reflexivity|]. split; [done|]. split; [done|].
  exact (defensive_ai_wins_or_blocks (DefensiveAI.init "X" "") game3 world3 board3
           eq_refl eq_refl ltac:(done) ltac:(done)).
Defined.

(** X18.  [CornerFirstAI.get_move] returns an available move, an edge only
    when no corner and not the centre is available, the centre only when no
    corner is; on a full board it raises IndexError, and it changes
    nothing.  [PatternAI.get_move] never raises: on a full board it returns
    0, which is no valid move; otherwise it returns an available move: the
    centre on an empty board; with two marks on the board the centre when
    it is empty, else the first of the corners 0, 2, 6, 8 that is available;
    in every other case the first of 0, 2, 6, 8, 4, 1, 3, 5, 7 that is
    available. *)
Theorem corner_first_and_pattern_spec game w (b : list string) :
  heap w !! board game = Some b → length b = 9%nat →
  let moves := Val.get_available_moves b in
  (∃ r, CornerFirstAI.get_move game w = (r, w)
     ∧ (" " ∉ b → r = Raise IndexError)
     ∧ (" " ∈ b →
        ∃ m, r = Ok m ∧ m ∈ moves
          ∧ (m ∈ [1; 3; 5; 7]%Z → ∀ p, p ∈ [0; 2; 6; 8; 4]%Z → p ∉ moves)
          ∧ (m = 4%Z → ∀ p, p ∈ [0; 2; 6; 8]%Z → p ∉ moves)))
  ∧ (∃ m w',
       PatternAI.get_move game w = (Ok m, w')
       ∧ heap w' !! board game = Some b
       ∧ stdin w' = stdin w ∧ stdout w' = stdout w
       ∧ (" " ∉ b → m = 0%Z)
       ∧ (" " ∈ b → m ∈ moves)
       ∧ (count_empty b = 9%nat → m = 4%Z)
       ∧ (count_empty b = 7%nat → b !! 4%nat = Some " " → m = 4%Z)
       ∧ (count_empty b = 7%nat → b !! 4%nat ≠ Some " " →
          first_available [0; 2; 6; 8]%Z moves = Some m)
       ∧ (count_empty b ≠ 9%nat → count_empty b ≠ 7%nat → " " ∈ b →
          first_available [0; 2; 6; 8; 4; 1; 3; 5; 7]%Z moves = Some m)).
Proof.
  intros Hl Hlen moves. split.
  - destruct (corner_first_run w game b Hl Hlen) as (r & Hrun & Hr).
    exists r. split; [done|]. fold moves in Hr. split.
    + intros Hfull. pose proof (available_nil b Hlen Hfull) as Hnil.
      fold moves in Hnil. by rewrite Hnil in Hr.
    + intros Hempty. pose proof (available_not_nil b Hlen Hempty) as Hne.
      fold moves in Hne. by destruct moves.
  - destruct (pattern_run game w b Hl Hlen)
      as (m & w' & Hrun & Hl' & Hin & Hout & Hnil & Hsome & H9 & H7 & H7' & Hrest).
    fold moves in Hnil, Hsome, H7', Hrest.
    exists m, w'. split; [done|]. split; [done|]. split; [done|]. split; [done|].
    split; [intros Hfull; by apply Hnil, available_nil|].
    split; [intros Hempty; by apply Hsome, available_not_nil|].
    split; [done|]. split; [done|]. split; [done|].
    intros Hn9 Hn7 Hempty. by apply Hrest, available_not_nil.
Qed.

Lemma corner_first_and_pattern_spec_witness :
  heap world_mid !! board game_mid = Some board_mid
  ∧ length board_mid = 9%nat
  ∧ let moves := Val.get_available_moves board_mid in
    let game := game_mid in
    let w := world_mid in
    let b := board_mid in
    (∃ r, CornerFirstAI.get_move game w = (r, w)
       ∧ (" " ∉ b → r = Raise IndexError)
       ∧ (" " ∈ b →
          ∃ m, r = Ok m ∧ m ∈ moves
            ∧ (m ∈ [1; 3; 5; 7]%Z → ∀ p, p ∈ [0; 2; 6; 8; 4]%Z → p ∉ moves)
            ∧ (m = 4%Z → ∀ p, p ∈ [0; 2; 6; 8]%Z → p ∉ moves)))
    ∧ (∃ m w',
         PatternAI.get_move game w = (Ok m, w')
         ∧ heap w' !! board game = Some b
         ∧ stdin w' = stdin w ∧ stdout w' = stdout w
         ∧ (" " ∉ b → m = 0%Z)
         ∧ (" " ∈ b → m ∈ moves)
         ∧ (count_empty b = 9%nat → m = 4%Z)
         ∧ (count_empty b = 7%nat → b !! 4%nat = Some " " → m = 4%Z)
         ∧ (count_empty b = 7%nat → b !! 4%nat ≠ Some " " →
            first_available [0; 2; 6; 8]%Z moves = Some m)
         ∧ (count_empty b ≠ 9%nat → count_empty b ≠ 7%nat → " " ∈ b →
            first_available [0; 2; 6; 8; 4; 1; 3; 5; 7]%Z moves = Some m)).
Proof.
  split; [reflexivity|]. split; [reflexivity|].
  exact (corner_first_and_pattern_spec game_mid world_mid board_mid eq_refl eq_refl).
Defined.

(** ** Sessions with human players *)

Lemma human_get_move_cases name symbol game w (b : list string) :
  heap w !! board game = Some b → length b = 9%nat →
  (∃ m w', HumanPlayer.get_move name symbol game w = (Ok m, w')
           ∧ Val.is_valid_move b game m = true ∧ heap w' = heap w)
  ∨ (∃ w', HumanPlayer.get_move name symbol game w = (Raise EOFError, w')
           ∧ stdin w' = [] ∧ heap w' = heap w).
Proof.
  intros Hl Hlen. unfold HumanPlayer.get_move.
  destruct (first_accepted b game (stdin w))
    as [Hall | (skipped & n & rest & Hin & Hrej & Hvalid)].
  - right.
    destruct (human_loop_spec name symbol game b (stdin w) (S (length (stdin w))) w
                Hl Hlen Hall) as [_ Hgo].
    eexists. split; [apply Hgo; [done | lia]|]. done.
  - left.
    destruct (human_loop_spec name symbol game b skipped (S (length (stdin w))) w
                Hl Hlen Hrej) as [Hgo _].
    eexists _, _. split; [apply (Hgo n rest); [done | | done]|done].
    rewrite Hin, length_app. lia.
Qed.

Lemma human_keeps_or_ends searches symbol name mark :
  (∀ s lost, (s, lost) ∈ searches → SmartAI.symbol s ≠ mark) →
  keeps_or_ends (guarded searches) (HumanPlayer.new symbol name) mark.
Proof.
  intros Hothers w game [Hreach Hsafe] Hongoing Hturn.
  destruct (reachable_inv w game Hreach) as (b & Hl & Hlen & _).
  cbn [get_move HumanPlayer.new].
  destruct (human_get_move_cases (name_or name ("Player " +:+ symbol)) symbol game w b
              Hl Hlen)
    as [(m & w1 & Hget & Hvalid & Hheap) | (w1 & Hget & Hin & _)].
  - left.
    assert (heap w1 !! board game = Some b) as Hl1 by by rewrite Hheap.
    destruct (make_move_valid w1 game m b Hl1 Hlen Hvalid) as (Hmove & _).
    eexists m, w1, _, _. split; [done|]. split; [by rewrite Hheap|].
    split; [done|]. split.
    + eapply reachable_make_move; [|done].
      eapply reachable_elsewhere; [done | by rewrite Hheap].
    + intros s lost Hs.
      eapply (safe_reply lost s w1 game m);
        [|rewrite Hturn; intros Heq; by apply (Hothers s lost)|done].
      eapply safe_elsewhere; [by apply Hsafe | by rewrite Hheap].
  - right. by exists w1.
Qed.

Lemma keeps_or_ends_stops stops Inv p mark :
  keeps_or_ends Inv p mark → keeps_or_stops stops Inv p mark.
Proof.
  intros Hp w game Hinv Hongoing Hturn.
  destruct (Hp w game Hinv Hongoing Hturn) as [H | H]; auto.
Qed.

Lemma search_with_interrupts_never self : search_with_interrupts self (SmartAI.player self).
Proof. split; [done|]. intros game w. by left. Qed.

Lemma search_with_interrupts_always self :
  search_with_interrupts self (interrupted (SmartAI.player self)).
Proof.
  split; [done|]. intros game w. cbn [get_move interrupted SmartAI.player].
  destruct (stdin w) as [|[n| |] rest] eqn:Hin; try by left.
  right. by exists rest, (set_stdin rest w).
Qed.

Lemma search_keeps_or_stops searches self lost mark p :
  (self, lost) ∈ searches → SmartAI.symbol self = mark →
  SmartAI.difficulty self ≠ "easy" →
  (∀ s lost', (s, lost') ∈ searches →
              (s, lost') = (self, lost) ∨ SmartAI.symbol s ≠ mark) →
  search_with_interrupts self p →
  keeps_or_stops True (guarded searches) p mark.
Proof.
  intros Hself Hsym Hhard Hothers [_ Hp] w game Hinv Hongoing Hturn.
  destruct (Hp game w) as [Hsame | (rest & w' & _ & Hget & _ & _ & Hheap)].
  - left. rewrite Hsame.
    apply (keeps_guarded_search searches self lost mark Hself Hsym Hhard Hothers
             w game Hinv Hongoing Hturn).
  - right. right. split; [done|]. by exists w'.
Qed.

Section sessions.
Variable stops : Prop.
Variable Inv : world → TicTacToe → Prop.
Variables player_x player_o : Player.
Hypothesis Inv_inv : ∀ w game, Inv w game → game_inv w game.
Hypothesis Inv_elsewhere : ∀ w game w',
  Inv w game → heap w' !! board game = heap w !! board game → Inv w' game.
Hypothesis Hx : keeps_or_stops stops Inv player_x "X".
Hypothesis Ho : keeps_or_stops stops Inv player_o "O".

Lemma play_game_loop_ends_or_stops fuel : ∀ w game,
  Inv w game → (9 - moves_count game < Z.of_nat fuel)%Z →
  (∃ game' w',
     ConsoleInterface.play_game_loop fuel game player_x player_o w
     = (Ok (Some (game_state game'), game'), w')
     ∧ Inv w' game' ∧ game_state game' ≠ ONGOING)
  ∨ (∃ w',
       ConsoleInterface.play_game_loop fuel game player_x player_o w
       = (Raise EOFError, w')
       ∧ stdin w' = [])
  ∨ (stops
     ∧ ∃ game' w',
         ConsoleInterface.play_game_loop fuel game player_x player_o w
         = (Ok (None, game'), w')
         ∧ Inv w' game' ∧ game_state game' = ONGOING
         ∧ last (stdout w') = Some Interrupted).
Proof using Inv_inv Inv_elsewhere Hx Ho.
  induction fuel as [|fuel IH]; intros w game Hinv Hfuel.
  - destruct (Inv_inv w game Hinv) as (b & _ & Hlen & Hcount & _).
    pose proof (count_empty_marked b). lia.
  - destruct (Inv_inv w game Hinv) as (b & Hl & Hlen & _ & Hcur & _).
    pose proof (display_board_run game w b Hl) as Hshow.
    set (w0 := set_stdout _ _) in Hshow.
    assert (heap w0 !! board game = heap w !! board game) as Hsame.
    { unfold w0. cbn [heap set_heap set_stdout]. by rewrite lookup_copied. }
    destruct (decide (game_state game = ONGOING)) as [Hongoing|Hover].
    + assert (∃ current,
                ConsoleInterface.players_item player_x player_o (current_player game) w0
                = (Ok current, w0)
                ∧ keeps_or_stops stops Inv current (current_player game))
        as (current & Hitem & Hkeeps).
      { unfold ConsoleInterface.players_item.
        destruct Hcur as [-> | ->]; [by exists player_x | by exists player_o]. }
      set (w0' := set_stdout
                    (stdout w0 ++ [TurnOf (name current) (current_player game)]) w0).
      assert (Inv w0' game) as Hinv0 by (by apply (Inv_elsewhere w)).
      assert (∀ r,
                try_except
                  (move <- get_move current game ;;
                   r <- make_move game move ;;
                   if negb r.1
                   then (print InvalidMove ;; ret (ConsoleInterface.Continue r.2))
                   else ret (ConsoleInterface.Moved r.2))
                  (λ e, match e with KeyboardInterrupt => true | _ => false end)
                  (print Interrupted ;; ret ConsoleInterface.Return) w0' = r →
                ConsoleInterface.play_game_loop (S fuel) game player_x player_o w
                = match r with
                  | (Ok (ConsoleInterface.Moved game'), w')
                  | (Ok (ConsoleInterface.Continue game'), w') =>
                      ConsoleInterface.play_game_loop fuel game' player_x player_o w'
                  | (Ok ConsoleInterface.Return, w') => (Ok (None, game), w')
                  | (Raise e, w') => (Raise e, w')
                  end) as Hloop.
      { intros r Hr. cbn [ConsoleInterface.play_game_loop]. unfold is_game_over.
        rewrite bool_decide_eq_true_2 by done. cbn [negb]. run Hshow. run Hitem.
        unfold bind at 1. unfold print at 1. fold w0'. unfold bind at 1.
        rewrite Hr. by destruct r as [[[?|?|]|?] ?]. }
      destruct (Hkeeps w0' game Hinv0 Hongoing eq_refl)
        as [(m & w1 & game' & w2 & Hget & Hsame1 & Hmove & Hinv')
           | [(w1 & Hget & Hin) | (Hstops & w1 & Hget & Hsame1)]].
      * rewrite (Hloop (Ok (ConsoleInterface.Moved game'), w2)).
        { apply IH; [done|].
          assert (heap w1 !! board game = Some b) as Hl1
            by (rewrite Hsame1; unfold w0'; cbn [heap set_stdout]; by rewrite Hsame).
          assert (Val.is_valid_move b game m = true) as Hv.
          { pose proof Hmove as Hmade.
            rewrite (make_move_run w1 game m b Hl1 Hlen) in Hmade.
            unfold Val.make_move in Hmade.
            destruct (Val.is_valid_move b game m); [done|].
            cbn [fst snd] in Hmade. congruence. }
          destruct (make_move_valid w1 game m b Hl1 Hlen Hv) as (Hmade & Hcount & _).
          assert (game' = (Val.moved b game m).1) as -> by congruence. lia. }
        unfold try_except. rewrite (bind_run _ _ _ _ _ Hget).
        by rewrite (bind_run _ _ _ _ _ Hmove).
      * right. left. exists w1. split; [|done].
        rewrite (Hloop (Raise EOFError, w1)); [done|].
        unfold try_except. by rewrite (bind_raise _ _ _ _ _ Hget).
      * right. right. split; [done|].
        exists game, (set_stdout (stdout w1 ++ [Interrupted]) w1).
        split; [|split; [|split]].
        -- rewrite (Hloop (Ok ConsoleInterface.Return,
                           set_stdout (stdout w1 ++ [Interrupted]) w1)); [done|].
           unfold try_except. by rewrite (bind_raise _ _ _ _ _ Hget).
        -- apply (Inv_elsewhere w0'); [done|]. by cbn [heap set_stdout].
        -- done.
        -- cbn [stdout set_stdout]. apply last_snoc.
    + left. eexists game, _. split; [|split; [|done]].
      * cbn [ConsoleInterface.play_game_loop]. unfold is_game_over.
        rewrite bool_decide_eq_false_2 by done. cbn [negb].
        run Hshow. unfold ConsoleInterface.display_result, bind, print, ret.
        reflexivity.
      * apply (Inv_elsewhere w); [done|]. by cbn [heap set_heap set_stdout].
Qed.

End sessions.

(** X19.  Sessions with a human player on a new board, as in
    examples/basic_game.py and examples/human_vs_ai.py, for every sequence of
    console events (numbers, other lines, Ctrl-C, and the end of the
    console).  Between two human players, where every Ctrl-C meets a prompt,
    [play_game] returns an outcome that is not ONGOING, or the console ends
    first and the EOFError of [input] comes out of it.  With a human as "X"
    against the search as "O" at full strength, where Ctrl-C may fall on the
    search or wait for the next prompt, [play_game] returns O_WINS or DRAW,
    or it returns [None] after an interrupt of the search, with the game
    still ongoing and "Game interrupted by user." written last, or the
    console ends first: the human never wins. *)
Theorem human_sessions name1 name2 self opponent w game w0 :
  full_strength self "O" "X" → TicTacToe_init w = (Ok game, w0) →
  search_with_interrupts self opponent →
  let human := HumanPlayer.new "X" name1 in
  ((∃ game' w',
      ConsoleInterface.play_game 10 game human (HumanPlayer.new "O" name2) w0
      = (Ok (Some (game_state game'), game'), w')
      ∧ game_state game' ≠ ONGOING)
   ∨ (∃ w',
        ConsoleInterface.play_game 10 game human (HumanPlayer.new "O" name2) w0
        = (Raise EOFError, w')
        ∧ stdin w' = []))
  ∧ ((∃ game' w',
        ConsoleInterface.play_game 10 game human opponent w0
        = (Ok (Some (game_state game'), game'), w')
        ∧ (game_state game' = O_WINS ∨ game_state game' = DRAW))
     ∨ (∃ game' w',
          ConsoleInterface.play_game 10 game human opponent w0
          = (Ok (None, game'), w')
          ∧ game_state game' = ONGOING
          ∧ last (stdout w') = Some Interrupted)
     ∨ (∃ w',
          ConsoleInterface.play_game 10 game human opponent w0
          = (Raise EOFError, w')
          ∧ stdin w' = [])).
Proof.
  intros Hself Hinit Hopponent human. pose proof Hself as (Hsym & Hopp & Hhard). split.
  - destruct (guarded_fresh [] w game w0 Hinit) as [Hguard Hcount];
      [by intros s lost Hs%elem_of_nil|].
    assert (keeps_or_stops False (guarded []) human "X") as Hhx.
    { apply keeps_or_ends_stops, human_keeps_or_ends.
      by intros s lost Hs%elem_of_nil. }
    assert (keeps_or_stops False (guarded []) (HumanPlayer.new "O" name2) "O") as Hho.
    { apply keeps_or_ends_stops, human_keeps_or_ends.
      by intros s lost Hs%elem_of_nil. }
    destruct (play_game_loop_ends_or_stops False (guarded []) human
                (HumanPlayer.new "O" name2)
                (guarded_inv []) (guarded_elsewhere []) Hhx Hho 10
                (set_stdout (stdout w0 ++ [StartingGame (name human)
                                             (name (HumanPlayer.new "O" name2))]) w0)
                game)
      as [(game' & w' & Hrun & _ & Hover) | [(w' & Hrun & Hin) | [[] _]]];
      [by eapply guarded_elsewhere | rewrite Hcount; lia | |].
    + left. exists game', w'. split; [|done].
      unfold ConsoleInterface.play_game, bind at 1, print at 1. exact Hrun.
    + right. exists w'. split; [|done].
      unfold ConsoleInterface.play_game, bind at 1, print at 1. exact Hrun.
  - destruct (guarded_fresh [(self, X_WINS)] w game w0 Hinit) as [Hguard Hcount].
    { intros s lost [= -> ->]%list_elem_of_singleton. by right. }
    assert (keeps_or_stops True (guarded [(self, X_WINS)]) human "X") as Hhx.
    { apply keeps_or_ends_stops, human_keeps_or_ends.
      intros s lost [= -> ->]%list_elem_of_singleton. by rewrite Hsym. }
    assert (keeps_or_stops True (guarded [(self, X_WINS)]) opponent "O") as Hso.
    { apply (search_keeps_or_stops _ self X_WINS);
        [by apply list_elem_of_singleton | done | done | | done].
      intros s lost Hs%list_elem_of_singleton. by left. }
    destruct (play_game_loop_ends_or_stops True (guarded [(self, X_WINS)]) human
                opponent (guarded_inv _) (guarded_elsewhere _) Hhx Hso 10
                (set_stdout (stdout w0 ++ [StartingGame (name human)
                                             (name opponent)]) w0)
                game)
      as [(game' & w' & Hrun & [_ Hsafe] & Hover)
         | [(w' & Hrun & Hin) | (_ & game' & w' & Hrun & _ & Hongoing & Hlast)]];
      [by eapply guarded_elsewhere | rewrite Hcount; lia | | |].
    + left. exists game', w'. split.
      { unfold ConsoleInterface.play_game, bind at 1, print at 1. exact Hrun. }
      pose proof (safe_not_lost _ _ _ _
                    (Hsafe self X_WINS ltac:(by apply list_elem_of_singleton))).
      by destruct (game_state game'); auto.
    + right. right. exists w'. split; [|done].
      unfold ConsoleInterface.play_game, bind at 1, print at 1. exact Hrun.
    + right. left. exists game', w'. split; [|done].
      unfold ConsoleInterface.play_game, bind at 1, print at 1. exact Hrun.
Qed.

Lemma human_sessions_witness :
  full_strength Tournament.smart_ai "O" "X"
  ∧ TicTacToe_init world_console_stop = (Ok game0, world_stop)
  ∧ search_with_interrupts Tournament.smart_ai
      (interrupted (SmartAI.player Tournament.smart_ai))
  ∧ let human := HumanPlayer.new "X" "Player 1" in
    let opponent := interrupted (SmartAI.player Tournament.smart_ai) in
    ((∃ game' w',
        ConsoleInterface.play_game 10 game0 human (HumanPlayer.new "O" "Player 2")
          world_stop
        = (Ok (Some (game_state game'), game'), w')
        ∧ game_state game' ≠ ONGOING)
     ∨ (∃ w',
          ConsoleInterface.play_game 10 game0 human (HumanPlayer.new "O" "Player 2")
            world_stop
          = (Raise EOFError, w')
          ∧ stdin w' = []))
    ∧ ((∃ game' w',
          ConsoleInterface.play_game 10 game0 human opponent world_stop
          = (Ok (Some (game_state game'), game'), w')
          ∧ (game_state game' = O_WINS ∨ game_state game' = DRAW))
       ∨ (∃ game' w',
            ConsoleInterface.play_game 10 game0 human opponent world_stop
            = (Ok (None, game'), w')
            ∧ game_state game' = ONGOING
            ∧ last (stdout w') = Some Interrupted)
       ∨ (∃ w',
            ConsoleInterface.play_game 10 game0 human opponent world_stop
            = (Raise EOFError, w')
            ∧ stdin w' = [])).
Proof.
  assert (full_strength Tournament.smart_ai "O" "X") as Hfull by done.
  split; [done|]. split; [reflexivity|].
  split; [apply search_with_interrupts_always|].
  exact (human_sessions "Player 1" "Player 2" Tournament.smart_ai
           (interrupted (SmartAI.player Tournament.smart_ai)) world_console_stop game0
           world_stop Hfull eq_refl (search_with_interrupts_always _)).
Defined.

(** In that session "X" enters 1 and Ctrl-C falls on the search: the
    driver reports the interrupt and returns [None], with the one move
    made.  When the same Ctrl-C waits for the next prompt instead, the
    search replies at the centre, the human player's [get_move] takes the
    interrupt for a bad entry, and the session goes on until the console
    ends. *)
Example interrupt_during_the_search :
  (∃ w',
     ConsoleInterface.play_game 10 game0 (HumanPlayer.new "X" "Player 1")
       (interrupted (SmartAI.player Tournament.smart_ai)) world_stop
     = (Ok (None, mkTicTacToe 1%positive "O" ONGOING 1 None None), w')
     ∧ last (stdout w') = Some Interrupted
     ∧ heap w' !! 1%positive = Some ["X"; " "; " "; " "; " "; " "; " "; " "; " "]
     ∧ stdin w' = [Number 5])
  ∧ (∃ w',
       ConsoleInterface.play_game 10 game0 (HumanPlayer.new "X" "Player 1")
         (SmartAI.player Tournament.smart_ai) world_stop
       = (Raise EOFError, w')
       ∧ existsb is_interrupted (stdout w') = false
       ∧ heap w' !! 1%positive = Some ["X"; " "; " "; " "; "O"; " "; " "; " "; " "]).
Proof. split; eexists; by vm_compute. Qed.

(** ** The search sees a move that wins at once *)

Lemma evaluate_after_winning_move self (b : list string) player i :
  length b = 9%nat → no_line b → (0 ≤ i ≤ 8)%Z → completes b player i →
  Search.evaluate self (Val.place b i player)
  = if String.eqb player (SmartAI.symbol self) then 10%Z else (-10)%Z.
Proof.
  intros Hlen Hno Hi (q & Hq & Hfull).
  assert (length (Val.place b i player) = 9%nat) as Hlen'
    by by rewrite place_length.
  destruct (evaluate_cases (Val.place b i player) self Hlen')
    as [[_ Hno'] | (pre & p & post & m & Hsplit & _ & Hfull' & ->)].
  - by destruct (Hno' q player Hq).
  - assert (m = player) as ->; [|done].
    apply (new_line b i player p m Hno); [lia | lia | | done].
    by eapply split_elem_of.
Qed.

Lemma better_range is_max (s : number) :
  s = Int (-10) ∨ s = Int 0 ∨ s = Int 10 →
  Search.better is_max s (Int (if is_max then 10 else -10)) = false
  ∧ (Search.better is_max (Int (if is_max then 10 else -10)) s = false →
     s = Int (if is_max then 10 else -10)).
Proof. intros [-> | [-> | ->]]; by destruct is_max. Qed.

(** X20.  The search sees a move that wins at once.  On a board of nine
    cells with no full pattern, when the player to move, the maximizing one
    with the search's own symbol or the minimizing one with another mark,
    has an empty cell [i] that fills a pattern, [_minimax] returns the best
    score there is, 10 when maximizing and -10 when minimizing, with a move
    [m] of that score at or before [i]; [m] need not be [i], since the
    score does not count the moves to the win. *)
Theorem search_sees_a_winning_move fuel self w l (b : list string)
    (player : string) (is_max : bool) i :
  heap w !! l = Some b → length b = 9%nat → no_line b →
  SmartAI.marks_ok self → player ≠ " " →
  (if is_max then player = SmartAI.symbol self else player ≠ SmartAI.symbol self) →
  (0 ≤ i ≤ 8)%Z → b !! Z.to_nat i = Some " " → completes b player i →
  (count_empty b ≤ fuel)%nat →
  let score := Int (if is_max then 10 else -10) in
  ∃ m,
    SmartAI._minimax (S fuel) self l player is_max w = (Ok (score, Some m), w)
    ∧ (0 ≤ m ≤ i)%Z ∧ b !! Z.to_nat m = Some " "
    ∧ candidate_score fuel self b player is_max m score
    ∧ candidate_score fuel self b player is_max i score.
Proof.
  intros Hl Hlen Hno Hmarks Hplayer Hrole Hi Hcell Hwin Hfuel score.
  unfold score. clear score. set (target := (if is_max then 10 else -10)%Z).
  assert (" " ∈ b) as Hempty by by eapply list_elem_of_lookup_2.
  assert (Val.cell b i = " ") as Hcelli by (apply cell_lookup; [lia | done]).
  assert (Search.terminal self b = false) as Hterm.
  { apply not_true_iff_false. rewrite terminal_iff by done.
    intros [(q & m & Hq & Hfull) | Hfull]; [by destruct (Hno q m) | done]. }
  assert (Search.child_score fuel self b player is_max i = Some (Int target))
    as Hchild.
  { unfold Search.child_score.
    destruct fuel as [|fuel].
    { pose proof (count_empty_insert b (Z.to_nat i) player Hcell Hplayer). lia. }
    rewrite minimax_S.
    assert (Search.terminal self (Val.place b i player) = true) as ->.
    { apply terminal_iff; [by rewrite place_length|]. left.
      destruct Hwin as (q & Hq & Hfull). by exists q, player. }
    cbn [fmap option_fmap option_map fst]. unfold target. do 2 f_equal.
    rewrite (evaluate_after_winning_move self b player i) by done.
    destruct is_max.
    - by rewrite Hrole, String.eqb_refl.
    - by apply String.eqb_neq in Hrole as ->. }
  pose proof (minimax_run (S fuel) self w l b player is_max Hl Hlen) as Hrun.
  destruct (minimax_enough_fuel (S fuel) self b player is_max Hmarks Hplayer Hlen)
    as [[s mv] Hm]; [lia|].
  rewrite Hm in Hrun. unfold runs_as in Hrun.
  destruct (minimax_value (S fuel) self b player is_max s mv Hlen Hm)
    as (Hrange & _ & _).
  rewrite minimax_S, Hterm in Hm.
  assert (∀ j cs, Search.child_score fuel self b player is_max j = Some cs →
                  cs = Int (-10) ∨ cs = Int 0 ∨ cs = Int 10) as Hint.
  { unfold Search.child_score. intros j cs Hcs.
    destruct (Search.minimax fuel self (Val.place b j player) _ _)
      as [[s' mv']|] eqn:Hmj; [|done].
    injection Hcs as <-.
    eapply (minimax_value fuel self (Val.place b j player)); [|done].
    by rewrite place_length. }
  apply scan_spec in Hm
    as [[[= -> ->] Hnone]
       | (pre & m & post & Hsplit & Hmv & Hcellm & Hsm & _ & Hpre & Hpost)].
  { destruct (Hnone i (in_range_9 i ltac:(lia)) Hcelli) as (cs & Hcs & Hworse).
    rewrite Hchild in Hcs. injection Hcs as <-. cbn [fst] in Hworse.
    by rewrite better_than_worst in Hworse. }
  cbn [fst snd] in *. subst mv.
  destruct (range_split 9 pre m post Hsplit) as [Hbefore Hafter].
  assert (m ∈ range 9) as Hm9 by by eapply split_elem_of.
  apply elem_of_range_9 in Hm9.
  assert (s = Int target ∧ (m ≤ i)%Z) as [-> Hle].
  { assert (i ∈ pre ++ m :: post) as Hin
      by (rewrite <- Hsplit; apply in_range_9; lia).
    apply elem_of_app in Hin as [Hin | [-> | Hin]%elem_of_cons].
    - destruct (Hpre i Hin Hcelli) as (cs & Hcs & Hbetter).
      rewrite Hchild in Hcs. injection Hcs as <-.
      destruct (better_range is_max s Hrange) as [Hnot _].
      unfold target in Hbetter. by rewrite Hnot in Hbetter.
    - rewrite Hchild in Hsm. injection Hsm as <-. split; [done | lia].
    - destruct (Hpost i Hin Hcelli) as (cs & Hcs & Hbetter).
      rewrite Hchild in Hcs. injection Hcs as <-.
      destruct (better_range is_max s Hrange) as [_ Hsame].
      split; [by apply Hsame|]. pose proof (Hafter i Hin). lia. }
  exists m. split; [done|]. split; [lia|].
  split; [apply cell_lookup; [lia | done]|].
  split; apply candidate_score_child; try done.
  split; [lia | done].
Qed.

Lemma search_sees_a_winning_move_witness :
  heap world_delay !! 1%positive = Some board_delay
  ∧ length board_delay = 9%nat
  ∧ no_line board_delay
  ∧ SmartAI.marks_ok (SmartAI.init "X" "" "hard")
  ∧ "X" ≠ " "
  ∧ "X" = SmartAI.symbol (SmartAI.init "X" "" "hard")
  ∧ (0 ≤ 8 ≤ 8)%Z
  ∧ board_delay !! Z.to_nat 8 = Some " "
  ∧ completes board_delay "X" 8
  ∧ (count_empty board_delay ≤ 5)%nat
  ∧ let self := SmartAI.init "X" "" "hard" in
    let score := Int 10 in
    ∃ m,
      SmartAI._minimax 6 self 1%positive "X" true world_delay
      = (Ok (score, Some m), world_delay)
      ∧ (0 ≤ m ≤ 8)%Z ∧ board_delay !! Z.to_nat m = Some " "
      ∧ candidate_score 5 self board_delay "X" true m score
      ∧ candidate_score 5 self board_delay "X" true 8%Z score.
Proof.
  assert (no_line board_delay) as Hno by (by apply no_line_by_lines).
  assert (completes board_delay "X" 8) as Hwin by (by apply wins_with_completes).
  assert (count_empty board_delay ≤ 5)%nat as Hfuel by (vm_compute; lia).
  split; [reflexivity|]. split; [reflexivity|]. split; [done|]. split; [done|].
  split; [done|]. split; [done|]. split; [lia|]. split; [reflexivity|].
  split; [done|]. split; [done|].
  exact (search_sees_a_winning_move 5 (SmartAI.init "X" "" "hard") world_delay
           1%positive board_delay "X" true 8%Z eq_refl eq_refl Hno ltac:(done)
           ltac:(done) eq_refl ltac:(lia) eq_refl Hwin Hfuel).
Defined.

(** On [board_delay] the move 8 wins at once, and the search returns the
    move 2, which does not: it wins two moves later. *)
Example search_delays_the_win :
  SmartAI._minimax 6 (SmartAI.init "X" "" "hard") 1%positive "X" true world_delay
  = (Ok (Int 10, Some 2%Z), world_delay)
  ∧ completes board_delay "X" 8 ∧ ¬ completes board_delay "X" 2.
Proof.
  split; [by vm_compute|]. split.
  - by apply wins_with_completes.
  - intros Hwin%wins_with_completes; done.
Qed.

(** ** A move that is not accepted *)

(** One turn of [play_game] in which the move is not accepted: the message
    is written and the loop goes round with the game as it was. *)
Lemma play_game_turn_rejected fuel game player_x player_o current m w w2
    (b : list string) :
  heap w !! board game = Some b → length b = 9%nat →
  game_state game = ONGOING →
  ConsoleInterface.players_item player_x player_o (current_player game) w
  = (Ok current, w) →
  let w1 := set_stdout
              (stdout w ++ [BoardDisplayed b;
                            TurnOf (name current) (current_player game)])
              (set_heap (<[fresh (dom (heap w)) := b]> (heap w)) w) in
  get_move current game w1 = (Ok m, w2) →
  heap w2 !! board game = Some b →
  Val.is_valid_move b game m = false →
  ConsoleInterface.play_game_loop (S fuel) game player_x player_o w
  = ConsoleInterface.play_game_loop fuel game player_x player_o
      (set_stdout (stdout w2 ++ [InvalidMove]) w2).
Proof.
  intros Hl Hlen Hongoing Hitem w1 Hget Hl2 Hinvalid.
  cbn [ConsoleInterface.play_game_loop]. unfold is_game_over.
  rewrite bool_decide_eq_true_2 by done. cbn [negb].
  run (display_board_run game w b Hl).
  assert (ConsoleInterface.players_item player_x player_o (current_player game)
            (set_stdout (stdout w ++ [BoardDisplayed b])
               (set_heap (<[fresh (dom (heap w)) := b]> (heap w)) w))
          = (Ok current, set_stdout (stdout w ++ [BoardDisplayed b])
                           (set_heap (<[fresh (dom (heap w)) := b]> (heap w)) w)))
    as Hitem0.
  { unfold ConsoleInterface.players_item in *.
    destruct (String.eqb (current_player game) "X"); [by injection Hitem as ->|].
    destruct (String.eqb (current_player game) "O"); [by injection Hitem as ->|].
    done. }
  run Hitem0. unfold bind at 1. unfold print at 1.
  cbn [stdout set_stdout set_heap heap stdin entropy].
  rewrite <- app_assoc. cbn [app].
  change (set_stdout _ (set_stdout _ ?x)) with w1 at 1.
  unfold bind at 1, try_except. rewrite (bind_run _ _ _ _ _ Hget).
  pose proof (make_move_run w2 game m b Hl2 Hlen) as Hmove.
  unfold Val.make_move in Hmove. rewrite Hinvalid in Hmove. cbn [fst snd] in Hmove.
  rewrite set_heap_same in Hmove by done.
  rewrite (bind_run _ _ _ _ _ Hmove). cbn [fst snd negb].
  unfold bind at 1, print at 1, ret at 1. done.
Qed.

(** With a player to move whose answers are never accepted, the loop of
    [play_game] goes round for as long as it is run, and each round writes
    the board, the turn and the message. *)
Lemma rejected_loop player_x player_o current game (b : list string) fuel :
  ∀ w,
  heap w !! board game = Some b → length b = 9%nat →
  game_state game = ONGOING →
  (current_player game = "X" ∧ current = player_x
   ∨ current_player game = "O" ∧ current = player_o) →
  always_rejected current game b →
  ∃ w' outs,
    ConsoleInterface.play_game_loop fuel game player_x player_o w
    = (Raise OutOfFuel, w')
    ∧ heap w' !! board game = Some b
    ∧ length outs = fuel
    ∧ stdout w'
      = stdout w
        ++ mjoin (rejected_turn b (name current) (current_player game) <$> outs).
Proof.
  induction fuel as [|fuel IH]; intros w Hl Hlen Hongoing Hseat Hrej.
  - exists w, []. cbn. by rewrite app_nil_r.
  - set (w1 := set_stdout
                 (stdout w ++ [BoardDisplayed b;
                               TurnOf (name current) (current_player game)])
                 (set_heap (<[fresh (dom (heap w)) := b]> (heap w)) w)).
    assert (heap w1 !! board game = Some b) as Hl1
      by (unfold w1; cbn [heap set_heap set_stdout]; by rewrite lookup_copied).
    destruct (Hrej w1 Hl1) as (m & w2 & out & Hget & Hnot & Hl2 & Hout2).
    assert (Val.is_valid_move b game m = false) as Hinvalid.
    { apply not_true_iff_false. intros (? & ? & _)%is_valid_move_true; [|done].
      by apply Hnot. }
    assert (ConsoleInterface.players_item player_x player_o (current_player game) w
            = (Ok current, w)) as Hitem.
    { unfold ConsoleInterface.players_item.
      by destruct Hseat as [[-> ->] | [-> ->]]. }
    rewrite (play_game_turn_rejected fuel game player_x player_o current m w w2 b);
      try done.
    destruct (IH (set_stdout (stdout w2 ++ [InvalidMove]) w2))
      as (w' & outs & Hrun & Hl' & Hlen' & Hout); try done.
    exists w', (out :: outs). split; [done|]. split; [done|].
    split; [cbn [length]; by rewrite Hlen'|].
    rewrite Hout. cbn [stdout set_stdout fmap list_fmap mjoin list_join].
    rewrite Hout2. unfold w1, rejected_turn. cbn [stdout set_stdout set_heap].
    by rewrite <- !app_assoc.
Qed.

Lemma rejected_silent_loop player_x player_o current game (b : list string) fuel :
  ∀ w,
  heap w !! board game = Some b → length b = 9%nat →
  game_state game = ONGOING →
  (current_player game = "X" ∧ current = player_x
   ∨ current_player game = "O" ∧ current = player_o) →
  always_rejected current game b →
  ∃ w',
    Tournament.play_silently fuel game player_x player_o w = (Raise OutOfFuel, w')
    ∧ heap w' !! board game = Some b.
Proof.
  induction fuel as [|fuel IH]; intros w Hl Hlen Hongoing Hseat Hrej.
  - by exists w.
  - destruct (Hrej w Hl) as (m & w2 & out & Hget & Hnot & Hl2 & _).
    assert (Val.is_valid_move b game m = false) as Hinvalid.
    { apply not_true_iff_false. intros (? & ? & _)%is_valid_move_true; [|done].
      by apply Hnot. }
    destruct (IH w2) as (w' & Hrun & Hl'); try done.
    exists w'. split; [|done].
    cbn [Tournament.play_silently]. unfold is_game_over.
    rewrite bool_decide_eq_true_2 by done. cbn [negb].
    assert (ConsoleInterface.players_item player_x player_o (current_player game) w
            = (Ok current, w)) as Hitem.
    { unfold ConsoleInterface.players_item.
      by destruct Hseat as [[-> ->] | [-> ->]]. }
    rewrite (bind_run _ _ _ _ _ Hitem). rewrite (bind_run _ _ _ _ _ Hget).
    pose proof (make_move_run w2 game m b Hl2 Hlen) as Hmove.
    unfold Val.make_move in Hmove. rewrite Hinvalid in Hmove. cbn [fst snd] in Hmove.
    rewrite set_heap_same in Hmove by done.
    rewrite (bind_run _ _ _ _ _ Hmove). exact Hrun.
Qed.

Lemma stubborn_always_rejected symbol name position game (b : list string) :
  ¬ ((0 ≤ position ≤ 8)%Z ∧ b !! Z.to_nat position = Some " ") →
  always_rejected (stubborn symbol name position) game b.
Proof.
  intros Hnot w Hl. exists position, w, []. by rewrite app_nil_r.
Qed.

Lemma off_board_always_rejected symbol name game (b : list string) :
  always_rejected (off_board symbol name) game b.
Proof.
  intros w Hl. exists (9 + Z.of_nat (length (stdout w)))%Z, w, [].
  rewrite app_nil_r. split; [done|]. split; [|done]. intros [? _]. lia.
Qed.

(** X21.  A player whose moves are never accepted keeps the game going for
    ever.  Let the game be ongoing, with "X" or "O" to move, and let the
    player in that seat answer every request with a position that is off
    the board or names a cell that is taken (the same one or another each
    time).  Then however long [play_game] is run it has not returned: the
    board is as it was, and what was written is the opening line followed by
    one round of board, turn, the player's own output and "Invalid move!" for
    every turn run.  The silent loop of the tournament, which drops the
    result of [make_move], does not end either, and leaves the board as it
    was. *)
Theorem rejected_player_never_ends player_x player_o current w game
    (b : list string) :
  heap w !! board game = Some b → length b = 9%nat →
  game_state game = ONGOING →
  (current_player game = "X" ∧ current = player_x
   ∨ current_player game = "O" ∧ current = player_o) →
  always_rejected current game b →
  ∀ fuel,
    (∃ w' outs,
       ConsoleInterface.play_game fuel game player_x player_o w
       = (Raise OutOfFuel, w')
       ∧ heap w' !! board game = Some b
       ∧ length outs = fuel
       ∧ stdout w'
         = stdout w ++ [StartingGame (name player_x) (name player_o)]
           ++ mjoin (rejected_turn b (name current) (current_player game) <$> outs))
    ∧ (∃ w',
         Tournament.play_silently fuel game player_x player_o w
         = (Raise OutOfFuel, w')
         ∧ heap w' !! board game = Some b).
Proof.
  intros Hl Hlen Hongoing Hseat Hrej fuel. split.
  - unfold ConsoleInterface.play_game, bind at 1, print at 1.
    destruct (rejected_loop player_x player_o current game b fuel
                (set_stdout (stdout w ++ [StartingGame (name player_x) (name player_o)])
                   w))
      as (w' & outs & Hrun & Hl' & Hlen' & Hout); try done.
    exists w', outs. split; [done|]. split; [done|]. split; [done|].
    rewrite Hout. cbn [stdout set_stdout]. by rewrite <- app_assoc.
  - by apply (rejected_silent_loop player_x player_o current).
Qed.

Lemma rejected_player_never_ends_witness :
  heap world_mid !! board game_mid = Some board_mid
  ∧ length board_mid = 9%nat
  ∧ game_state game_mid = ONGOING
  ∧ (current_player game_mid = "X" ∧ off_board "O" "Lost" = Tournament.random_ai
     ∨ current_player game_mid = "O" ∧ off_board "O" "Lost" = off_board "O" "Lost")
  ∧ always_rejected (off_board "O" "Lost") game_mid board_mid
  ∧ ∀ fuel,
      (∃ w' outs,
         ConsoleInterface.play_game fuel game_mid Tournament.random_ai
           (off_board "O" "Lost") world_mid
         = (Raise OutOfFuel, w')
         ∧ heap w' !! board game_mid = Some board_mid
         ∧ length outs = fuel
         ∧ stdout w'
           = stdout world_mid
             ++ [StartingGame (name Tournament.random_ai) (name (off_board "O" "Lost"))]
             ++ mjoin (rejected_turn board_mid (name (off_board "O" "Lost"))
                         (current_player game_mid) <$> outs))
      ∧ (∃ w',
           Tournament.play_silently fuel game_mid Tournament.random_ai
             (off_board "O" "Lost") world_mid
           = (Raise OutOfFuel, w')
           ∧ heap w' !! board game_mid = Some board_mid).
Proof.
  assert (current_player game_mid = "X" ∧ off_board "O" "Lost" = Tournament.random_ai
          ∨ current_player game_mid = "O" ∧ off_board "O" "Lost" = off_board "O" "Lost")
    as Hseat by (by right).
  split; [reflexivity|]. split; [reflexivity|]. split; [reflexivity|].
  split; [exact Hseat|]. split; [apply off_board_always_rejected|].
  exact (rejected_player_never_ends Tournament.random_ai (off_board "O" "Lost")
           (off_board "O" "Lost") world_mid game_mid board_mid
           eq_refl eq_refl eq_refl Hseat (off_board_always_rejected _ _ _ _)).
Defined.

(** Three turns of that session: the positions 12, 15 and 18 are offered
    and turned down. *)
Example off_board_three_turns :
  ∃ w',
    ConsoleInterface.play_game 3 game_mid Tournament.random_ai (off_board "O" "Lost")
      world_mid
    = (Raise OutOfFuel, w')
    ∧ stdout w'
      = [StartingGame "Random AI" "Lost";
         BoardDisplayed board_mid; TurnOf "Lost" "O"; InvalidMove;
         BoardDisplayed board_mid; TurnOf "Lost" "O"; InvalidMove;
         BoardDisplayed board_mid; TurnOf "Lost" "O"; InvalidMove]
    ∧ get_move (off_board "O" "Lost") game_mid world_mid = (Ok 9%Z, world_mid)
    ∧ (get_move (off_board "O" "Lost") game_mid w').1 = Ok 19%Z.
Proof. eexists. vm_compute. done. Qed.
